(** * jotai-signal: a shallow embedding of [src/signal.ts]

    The module wraps an atom of a jotai store as a tagged object (a
    Signal), finds such objects inside the props and children handed to
    [createElement], and renders the element through [Rerenderer], which
    subscribes to the signals it was given.

    JavaScript values are modelled as finite trees whose object nodes carry
    the address of the object: reference identity ([===] on objects) is
    equality of addresses, and an acyclic object graph is exactly such a
    tree.  Functions that allocate thread the next free address. *)

From Stdlib Require Import ZArith Lia.
From stdpp Require Import base option list sorting gmap strings.

Set Default Proof Using "Type".
Set Warnings "-register-all".

(** ** Values *)

(** Address of a heap-allocated object. *)
Definition ref := nat.

(** Identity of a jotai store and of an atom (both are objects). *)
Definition Store := ref.
Definition Atom := ref.

(** A JavaScript number.  Only equality of numbers matters to this module,
    so every number but NaN is represented by an integer; NaN is kept
    apart because [NaN === NaN] is false. *)
Inductive number :=
| NaN
| Num (z : Z).

(** A property key: a string or a symbol. *)
Inductive key :=
| KString (s : string)
| KSymbol (n : nat).

Global Instance key_eq_dec : EqDecision key.
Proof. solve_decision. Defined.

(** The [[Prototype]] of an object, as far as the module can tell it apart:
    [Object.prototype] or something else (a class prototype, [null]). *)
Inductive prototype :=
| ObjectPrototype
| OtherPrototype (p : ref).

(** [type Signal = { [SIGNAL]: { s: Subscribe; r: Read } }].  The two
    closures built by [getSignal] capture the store and the atom and
    nothing else: [s] is [(callback) => store.sub(atom, callback)] and [r]
    is [() => store.get(atom)]. *)
Record Signal := mkSignal {
  sig_ref : ref;
  sig_store : Store;
  sig_atom : Atom;
}.

(** Values.  [SIGNAL] is a symbol private to the module, so the objects
    that carry it are those made by [getSignal]: they have a constructor
    of their own, and the symbol keys of a [VObject] are other symbols.
    A function and a promise are leaves: neither has own enumerable
    properties here (the fields [status], [value] and [reason] that [use]
    keeps on a promise live in the promise table of the heap). *)
Inductive value :=
| VUndefined
| VNull
| VBoolean (b : bool)
| VNumber (n : number)
| VString (s : string)
| VFunction (f : ref)
| VPromise (p : ref)
| VSignal (sg : Signal)
| VArray (a : ref) (items : list value)
| VObject (o : ref) (pr : prototype) (props : list property)
with property :=
| Property (k : key) (enumerable : bool) (v : value).

Definition prop_key (p : property) : key :=
  match p with Property k _ _ => k end.
Definition prop_value (p : property) : value :=
  match p with Property _ _ v => v end.

(** Induction over values that reaches the elements of an array and the
    values of the properties of an object. *)
Section value_induction.
Variable P : value → Prop.
Hypothesis Hundefined : P VUndefined.
Hypothesis Hnull : P VNull.
Hypothesis Hboolean : ∀ b, P (VBoolean b).
Hypothesis Hnumber : ∀ n, P (VNumber n).
Hypothesis Hstring : ∀ s, P (VString s).
Hypothesis Hfunction : ∀ f, P (VFunction f).
Hypothesis Hpromise : ∀ p, P (VPromise p).
Hypothesis Hsignal : ∀ sg, P (VSignal sg).
Hypothesis Harray : ∀ a items, Forall P items → P (VArray a items).
Hypothesis Hobject : ∀ o pr props,
  Forall (λ p, P (prop_value p)) props → P (VObject o pr props).

Fixpoint value_nested_ind (x : value) : P x :=
  match x with
  | VUndefined => Hundefined
  | VNull => Hnull
  | VBoolean b => Hboolean b
  | VNumber n => Hnumber n
  | VString s => Hstring s
  | VFunction f => Hfunction f
  | VPromise p => Hpromise p
  | VSignal sg => Hsignal sg
  | VArray a items =>
      Harray a items
        ((fix go (l : list value) : Forall P l :=
            match l with
            | [] => Forall_nil_2 P
            | y :: l' => Forall_cons_2 P y l' (value_nested_ind y) (go l')
            end) items)
  | VObject o pr props =>
      Hobject o pr props
        ((fix go (l : list property) : Forall (λ p, P (prop_value p)) l :=
            match l with
            | [] => Forall_nil_2 _
            | Property k e v :: l' =>
                Forall_cons_2 (λ p, P (prop_value p)) (Property k e v) l'
                  (value_nested_ind v) (go l')
            end) props)
  end.
End value_induction.

(** ** Operators of the language *)

(** [x === y].  Primitives compare by value, NaN differs from itself,
    objects compare by address. *)
Definition strict_eq (x y : value) : bool :=
  match x, y with
  | VUndefined, VUndefined => true
  | VNull, VNull => true
  | VBoolean a, VBoolean b => bool_decide (a = b)
  | VNumber (Num a), VNumber (Num b) => bool_decide (a = b)
  | VString a, VString b => bool_decide (a = b)
  | VFunction a, VFunction b => bool_decide (a = b)
  | VPromise a, VPromise b => bool_decide (a = b)
  | VSignal a, VSignal b => bool_decide (sig_ref a = sig_ref b)
  | VArray a _, VArray b _ => bool_decide (a = b)
  | VObject a _ _, VObject b _ _ => bool_decide (a = b)
  | _, _ => false
  end.

(** [x !== y]. *)
Definition strict_ne (x y : value) : bool := negb (strict_eq x y).

(** A property that [Object.entries] and [Object.values] list: own,
    enumerable and keyed by a string. *)
Definition is_entry (p : property) : bool :=
  match p with
  | Property (KString _) true _ => true
  | _ => false
  end.

(** [Object.entries(x)] of an object with the properties [props], in
    property order. *)
Definition entries (props : list property) : list (string * value) :=
  omap (λ p, match p with
             | Property (KString s) true v => Some (s, v)
             | _ => None
             end) props.

(** [Object.values(x)]. *)
Definition values (props : list property) : list value :=
  (entries props).*2.

(** ** The module *)

(** [const isSignal = (x) => !!(x as any)?.[SIGNAL]]. *)
Definition isSignal (x : value) : bool :=
  match x with
  | VSignal _ => true
  | _ => false
  end.

(** [findAllSignals]: a signal gives itself, an array
    [x.flatMap(findAllSignals)], any other object
    [Object.values(x).flatMap(findAllSignals)] (the inner function walks
    the values of the enumerable string-keyed properties), anything else
    the empty list. *)
Fixpoint findAllSignals (x : value) : list Signal :=
  match x with
  | VSignal sg => [sg]
  | VArray _ items => flat_map findAllSignals items
  | VObject _ _ props =>
      (fix over_values (ps : list property) : list Signal :=
         match ps with
         | [] => []
         | Property (KString _) true v :: ps' =>
             findAllSignals v ++ over_values ps'
         | _ :: ps' => over_values ps'
         end) props
  | _ => []
  end.

(** ** The heap and the effects of the module *)

(** What a settled promise carries. *)
Inductive outcome :=
| Fulfilled (v : value)
| Rejected (e : value).

(** The [status] field that [use] keeps on a promise. *)
Inductive status_field :=
| StatusUnset
| StatusPending
| StatusFulfilled
| StatusRejected.

(** A promise object: its own state ([settled], [None] while it is
    pending), the three fields [use] reads and writes, and [reactions],
    the number of calls [promise.then(...)] of [use] whose callbacks have
    not run yet: every call hands the promise one more pair of callbacks,
    and they wait until the promise has settled. *)
Record promise := mkPromise {
  settled : option outcome;
  status : status_field;
  value_field : value;
  reason_field : value;
  reactions : nat;
}.

(** A promise nobody has touched yet. *)
Definition untouched : promise :=
  {| settled := None; status := StatusUnset; value_field := VUndefined;
     reason_field := VUndefined; reactions := 0 |}.

(** The state the module runs in: the next free address, the module-level
    [signalCache], the promise objects, and [store.get(atom)] for every
    store and atom. *)
Record heap := mkHeap {
  next : ref;
  signalCache : gmap Store (gmap Atom Signal);
  promises : gmap ref promise;
  store_get : Store → Atom → value;
}.

Definition get_promise (p : ref) (σ : heap) : promise :=
  default untouched (promises σ !! p).

Definition set_promise (p : ref) (q : promise) (σ : heap) : heap :=
  {| next := next σ; signalCache := signalCache σ;
     promises := <[p := q]> (promises σ); store_get := store_get σ |}.

(** A call returns a value or throws one; either way it leaves a heap. *)
Inductive result (A : Type) :=
| Return (a : A)
| Throw (e : value).
Arguments Return {A} a.
Arguments Throw {A} e.

Definition M (A : Type) : Type := heap → result A * heap.

Definition ret {A} (a : A) : M A := λ σ, (Return a, σ).
Definition throw {A} (e : value) : M A := λ σ, (Throw e, σ).
Definition bind {A B} (m : M A) (k : A → M B) : M B := λ σ,
  match m σ with
  | (Return a, σ') => k a σ'
  | (Throw e, σ') => (Throw e, σ')
  end.

Notation "'let*' x ':=' m 'in' k" := (bind m (λ x, k))
  (at level 10, x pattern, m at level 100, k at level 200).

(** Allocation of one object. *)
Definition alloc : M ref := λ σ,
  (Return (next σ),
   {| next := S (next σ); signalCache := signalCache σ;
      promises := promises σ; store_get := store_get σ |}).

(** [promise.status = 'pending'; promise.then((v) => ..., (e) => ...)]:
    the promise after the two statements. *)
Definition tracked (q : promise) : promise :=
  {| settled := settled q; status := StatusPending;
     value_field := value_field q; reason_field := reason_field q;
     reactions := S (reactions q) |}.

(** Modelled from the spec: the contract of the rendering engine's own
    suspend-on-pending primitive, which is not part of the repository
    (section 6): "a suspend-capable synchronous-style await operation for
    a promise-like value exposing status/value/reason fields (status
    machine: unset → pending → fulfilled|rejected, transition exactly once
    from pending)".  A primitive under the contract returns the [value] of
    a promise whose [status] is ['fulfilled'] and throws the [reason] of
    one whose [status] is ['rejected']; on any other promise it suspends:
    it throws [suspender p], a value of its own choice (the promise or
    something else), after it has made a promise without [status] pending
    and handed it the callbacks that write the outcome to the fields. *)
Definition suspend_on_pending (React_use : ref → M value) : Prop :=
  ∃ suspender : ref → value, ∀ p σ,
    React_use p σ
    = match status (get_promise p σ) with
      | StatusPending => (Throw (suspender p), σ)
      | StatusFulfilled => (Return (value_field (get_promise p σ)), σ)
      | StatusRejected => (Throw (reason_field (get_promise p σ)), σ)
      | StatusUnset =>
          (Throw (suspender p), set_promise p (tracked (get_promise p σ)) σ)
      end.

(** Modelled from the spec: a primitive under the contract that throws
    one and the same value [e] to suspend, whatever the promise: an
    exception object of the engine, not the promise. *)
Definition suspending_with (e : value) : ref → M value := λ p σ,
  match status (get_promise p σ) with
  | StatusPending => (Throw e, σ)
  | StatusFulfilled => (Return (value_field (get_promise p σ)), σ)
  | StatusRejected => (Throw (reason_field (get_promise p σ)), σ)
  | StatusUnset => (Throw e, set_promise p (tracked (get_promise p σ)) σ)
  end.

(** The module is loaded with some React.  What the module takes from it
    besides the hooks and [createElementOrig] is [ReactExports.use]: the
    [use] that React exports, or [None] when it exports none (React 18,
    where [ReactExports.use] is [undefined]).  The definitions and the
    theorems of this section are about the module loaded with any React;
    a theorem that needs more of [ReactExports.use] says so in a
    hypothesis. *)
Section module.
Variable ReactExports_use : option (ref → M value).

(** [const use = ReactExports.use || ((promise) => { ... })]. *)
Definition use : ref → M value :=
  match ReactExports_use with
  | Some React_use => React_use
  | None => λ p σ,
      let promise := get_promise p σ in
      match status promise with
      | StatusPending => throw (VPromise p) σ
      | StatusFulfilled => ret (value_field promise) σ
      | StatusRejected => throw (reason_field promise) σ
      | StatusUnset => throw (VPromise p) (set_promise p (tracked promise) σ)
      end
  end.

(** React exports no [use], or one that keeps the contract of the
    engine's primitive. *)
Definition React_use_ok : Prop :=
  ∀ React_use,
    ReactExports_use = Some React_use → suspend_on_pending React_use.

(** The promise [p] settles, if it has not yet. *)
Definition settle (p : ref) (o : outcome) (σ : heap) : heap :=
  let promise := get_promise p σ in
  match settled promise with
  | Some _ => σ
  | None =>
      set_promise p
        {| settled := Some o; status := status promise;
           value_field := value_field promise;
           reason_field := reason_field promise;
           reactions := reactions promise |} σ
  end.

(** The job queue runs the callbacks [use] left on [p], once [p] is
    settled: of every pair that waits,
    [(v) => { promise.status = 'fulfilled'; promise.value = v }] or
    [(e) => { promise.status = 'rejected'; promise.reason = e }].  They
    all write the same two fields, so one pair or several leave the same
    promise. *)
Definition run_reactions (p : ref) (σ : heap) : heap :=
  let promise := get_promise p σ in
  match reactions promise, settled promise with
  | S _, Some (Fulfilled v) =>
      set_promise p
        {| settled := settled promise; status := StatusFulfilled;
           value_field := v; reason_field := reason_field promise;
           reactions := 0 |} σ
  | S _, Some (Rejected e) =>
      set_promise p
        {| settled := settled promise; status := StatusRejected;
           value_field := value_field promise; reason_field := e;
           reactions := 0 |} σ
  | _, _ => σ
  end.

(** [readSignal]: [read()] is [store.get(atom)]. *)
Definition readSignal (signal : Signal) : M value := λ σ,
  let value := store_get σ (sig_store signal) (sig_atom signal) in
  match value with
  | VPromise p => use p σ
  | _ => ret value σ
  end.

(** [atomSignalCache.set(atom, signal)], where [atomSignalCache] is the
    inner map that [signalCache] holds for [store]. *)
Definition atomSignalCache_set (store : Store) (atom : Atom) (signal : Signal)
    (σ : heap) : heap :=
  {| next := next σ;
     signalCache := alter (λ c, <[atom := signal]> c) store (signalCache σ);
     promises := promises σ; store_get := store_get σ |}.

(** [signalCache.set(store, new WeakMap())]. *)
Definition signalCache_set_empty (store : Store) (σ : heap) : heap :=
  {| next := next σ;
     signalCache := <[store := ∅]> (signalCache σ);
     promises := promises σ; store_get := store_get σ |}.

(** [getSignal].  Of the objects it allocates only the signal itself is
    given an address: the closures and the inner record are reached
    through the signal alone. *)
Definition getSignal (store : Store) (atom : Atom) : M Signal := λ σ,
  let '(atomSignalCache, σ1) :=
    match signalCache σ !! store with
    | Some c => (c, σ)
    | None => (∅, signalCache_set_empty store σ)
    end in
  match atomSignalCache !! atom with
  | Some signal => (Return signal, σ1)
  | None =>
      let signal :=
        {| sig_ref := next σ1; sig_store := store; sig_atom := atom |} in
      (Return signal,
       atomSignalCache_set store atom signal
         {| next := S (next σ1); signalCache := signalCache σ1;
            promises := promises σ1; store_get := store_get σ1 |})
  end.

(** [signal(atom, store = getDefaultStore())]: the default store is the
    process-wide one, here [defaultStore]. *)
Definition signal (defaultStore : Store) (atom : Atom) (store : option Store)
    : M Signal :=
  getSignal (default defaultStore store) atom.

(** [Object.fromEntries]: the entries are defined one after the other; a
    key that is already there keeps its place and takes the new value. *)
Fixpoint define_property (k : string) (v : value) (props : list property)
    : list property :=
  match props with
  | [] => [Property (KString k) true v]
  | Property k' e v' :: props' =>
      if bool_decide (k' = KString k) then Property (KString k) true v :: props'
      else Property k' e v' :: define_property k v props'
  end.

Definition fromEntries (es : list (string * value)) : list property :=
  foldl (λ props e, define_property e.1 e.2 props) [] es.

(** [x.map((item) => { ... })] of [fillAllSignalValues] for a callback
    body [f]: the new items, and the [changed] flag the callback sets. *)
Definition map_items (f : value → M value)
    : list value → M (list value * bool) :=
  fix go (l : list value) :=
    match l with
    | [] => ret ([], false)
    | item :: l' =>
        let* item2 := f item in
        let* (rest, changed) := go l' in
        ret (item2 :: rest, strict_ne item item2 || changed)
    end.

(** [Object.entries(x).map(([key, value]) => { ... })] likewise: only
    the enumerable string-keyed properties are visited. *)
Definition map_entries (f : value → M value)
    : list property → M (list (string * value) * bool) :=
  fix go (ps : list property) :=
    match ps with
    | [] => ret ([], false)
    | Property (KString key) true value :: ps' =>
        let* value2 := f value in
        let* (rest, changed) := go ps' in
        ret ((key, value2) :: rest, strict_ne value value2 || changed)
    | _ :: ps' => go ps'
    end.

(** [fillAllSignalValues].  The array [x.map] returns is allocated before
    the items are visited, the object [Object.fromEntries] returns after
    the entries are; the arrays of entries in between are not reachable
    from the result and take no address. *)
Fixpoint fillAllSignalValues (x : value) : M value :=
  match x with
  | VSignal sg => readSignal sg
  | VArray a items =>
      let* x2 := alloc in
      let* (items2, changed) := map_items fillAllSignalValues items in
      ret (if changed then VArray x2 items2 else x)
  | VObject o pr props =>
      let* (entries2, changed) := map_entries fillAllSignalValues props in
      let* x2 := alloc in
      ret (if changed then VObject x2 ObjectPrototype (fromEntries entries2)
           else x)
  | _ => ret x
  end.

(** ** createElement *)

(** An array object whose elements are of type [T]: its address and its
    elements. *)
Record array (T : Type) := mkArray {
  arr_ref : ref;
  arr_items : list T;
}.
Global Arguments mkArray {T} arr_ref arr_items.
Global Arguments arr_ref {T} a.
Global Arguments arr_items {T} a.

(** What the [render] arrow function of [createElement] captures. *)
Record render_closure := mkRender {
  r_type : value;
  r_props : value;
  r_children : list value;
  r_signalsInChildren : list Signal;
  r_signalsInProps : list Signal;
}.

(** What [createElementOrig] was called with.  React's element-creation
    primitive is kept abstract: an element is the call that made it,
    [createElementOrig(type, props, ...children)] or
    [createElementOrig(Rerenderer, { signals, render })]. *)
Inductive element :=
| Element (type : value) (props : value) (children : list value)
| RerendererElement (signals : array Signal) (render : render_closure).

(** [children.flatMap((child) => isSignal(child) ? [child] : [])]. *)
Definition signalsInChildren (children : list value) : list Signal :=
  flat_map (λ child, match child with VSignal sg => [sg] | _ => [] end)
    children.

(** [l.map(f)] for an [f] that may throw. *)
Fixpoint mapM {A B} (f : A → M B) (l : list A) : M (list B) :=
  match l with
  | [] => ret []
  | a :: l' =>
      let* b := f a in
      let* bs := mapM f l' in
      ret (b :: bs)
  end.

(** [getChildren]: the array [children.map] builds is spread into the
    call at once, so only its elements are kept. *)
Definition getChildren (c : render_closure) : M (list value) :=
  match length (r_signalsInChildren c) with
  | 0 => ret (r_children c)
  | _ =>
      mapM (λ child, match child with
                     | VSignal sg => readSignal sg
                     | _ => ret child
                     end) (r_children c)
  end.

(** [getProps]. *)
Definition getProps (c : render_closure) : M value :=
  match length (r_signalsInProps c) with
  | 0 => ret (r_props c)
  | _ => fillAllSignalValues (r_props c)
  end.

(** [() => createElementOrig(type, getProps(), ...getChildren())]. *)
Definition render (c : render_closure) : M element :=
  let* props := getProps c in
  let* children := getChildren c in
  ret (Element (r_type c) props children).

(** [createElement]; an absent [props] is [VUndefined]. *)
Definition createElement (type props : value) (children : list value)
    : M element :=
  let signalsInChildren := signalsInChildren children in
  let signalsInProps := findAllSignals props in
  match length signalsInChildren, length signalsInProps with
  | 0, 0 => ret (Element type props children)
  | _, _ =>
      let* signals := alloc in
      ret (RerendererElement
             (mkArray signals (signalsInChildren ++ signalsInProps))
             (mkRender type props children signalsInChildren signalsInProps))
  end.

(** ** useMemoList *)

Section useMemoList.
Context {T : Type}.

(** [list.some((arg, index) => f(arg, index))], from [index] on. *)
Fixpoint some_from (f : T → nat → bool) (index : nat) (list : list T)
    : bool :=
  match list with
  | [] => false
  | arg :: rest => f arg index || some_from f (S index) rest
  end.

(** [listChanged].  [state[index]] is read only when the two lengths
    are equal, so it is never past the end of [state]; the last branch
    is not reached. *)
Definition listChanged (compareFn : T → T → bool) (list state : array T)
    : bool :=
  if negb (bool_decide (length (arr_items list) = length (arr_items state)))
  then true
  else some_from
         (λ arg index,
            match arr_items state !! index with
            | Some b => negb (compareFn arg b)
            | None => true
            end) 0 (arr_items list).

(** [useMemoList(list, compareFn)] where [useState(list)] gives [state]:
    the list it returns and the list given to [setState], if it is
    called. *)
Definition useMemoList (list : array T) (compareFn : T → T → bool)
    (state : array T) : array T * option (array T) :=
  if listChanged compareFn list state then (list, Some list)
  else (state, None).
End useMemoList.

(** The default [compareFn], [(a, b) => a === b], on values and on
    signals. *)
Definition default_compareFn (a b : value) : bool := strict_eq a b.
Definition signal_compareFn (a b : Signal) : bool :=
  strict_eq (VSignal a) (VSignal b).

(** ** Rerenderer *)

(** The component function is embedded from the source.  What drives it
    is not part of the repository: the store's [sub] and React's
    [useState], [useReducer] and [useEffect].  They are modelled from the
    contracts of the spec's section 6: [store.sub(atom, callback)]
    registers a listener that holds the callback and returns the function
    that removes it, and a store that fires an atom calls the callbacks of
    the listeners of that atom; state persists across the renders of one
    component instance; [useReducer] gives the state and a dispatch
    function that is the same for the life of the instance, a call of it
    queues an action, and React renders the instance again when the
    reducer, applied to the actions queued, gives another state than the
    current one; an effect runs after the commit when its dependencies
    changed (compared by reference), after the cleanup of the previous
    run, and the cleanup runs on unmount.  One [Rerenderer] instance is
    followed at a time. *)

(** Modelled from the spec: a function that can be subscribed to a store.
    [Dispatch i] is the dispatch function that [useReducer] made for the
    instance mounted as number [i]; any other function belongs to another
    subscriber. *)
Inductive callback :=
| Dispatch (i : nat)
| OtherCallback (f : ref).

Global Instance callback_eq_dec : EqDecision callback.
Proof. solve_decision. Defined.

(** Modelled from the spec: a listener registered by [store.sub(atom,
    callback)]; [l_id] stands for the [unsubscribe] function returned. *)
Record listener := mkListener {
  l_id : nat;
  l_store : Store;
  l_atom : Atom;
  l_callback : callback;
}.

(** Modelled from the spec: what React keeps for the instance.  Its
    number, the state of [useReducer] and the number of actions that were
    dispatched and are not yet reduced (an action has no payload), the
    state of [useState], the dependency [memoedSignals] of the last effect
    run, the [unsubs] its cleanup captured, and the [signals] prop of the
    last render. *)
Record fiber := mkFiber {
  fiber_id : nat;
  count : nat;
  queue : nat;
  list_state : array Signal;
  deps : array Signal;
  unsubs : list nat;
  props_signals : array Signal;
}.

(** Modelled from the spec: the instance, if mounted, the listeners of the
    stores, the next listener number and array address, the number of
    instances mounted so far, and the number of render passes committed so
    far. *)
Record world := mkWorld {
  instance : option fiber;
  listeners : list listener;
  next_listener : nat;
  next_array : ref;
  mounts : nat;
  passes : nat;
}.

Definition initial_world : world :=
  {| instance := None; listeners := []; next_listener := 0;
     next_array := 0; mounts := 0; passes := 0 |}.

(** [subscribeSignal(signal, callback)], that is [store.sub(atom,
    callback)] for the store and the atom of the signal: the listener is
    added and its number stands for the [unsub] returned. *)
Definition subscribeSignal (sg : Signal) (callback : callback)
    (ls : list listener * nat) : nat * (list listener * nat) :=
  (ls.2,
   (ls.1 ++ [mkListener ls.2 (sig_store sg) (sig_atom sg) callback],
    S ls.2)).

(** [memoedSignals.map((sig) => subscribeSignal(sig, rerender))]. *)
Fixpoint subscribe_all (sigs : list Signal) (rerender : callback)
    (ls : list listener * nat) : list nat * (list listener * nat) :=
  match sigs with
  | [] => ([], ls)
  | sg :: rest =>
      let (unsub, ls1) := subscribeSignal sg rerender ls in
      let (unsubs, ls2) := subscribe_all rest rerender ls1 in
      (unsub :: unsubs, ls2)
  end.

(** [unsub()]. *)
Definition unsubscribe (unsub : nat) (ls : list listener) : list listener :=
  filter (λ l, l_id l ≠ unsub) ls.

(** [unsubs.forEach((unsub) => unsub())]. *)
Definition unsubscribe_all (unsubs : list nat) (ls : list listener)
    : list listener :=
  foldl (λ ls unsub, unsubscribe unsub ls) ls unsubs.

(** The reducer of [useReducer((c) => c + 1, 0)], which the component
    hands to React at every render. *)
Definition reducer (c : nat) : nat := c + 1.

(** What a call of the component function asks of React, besides the
    output [render()] it returns: the list it gave to [setState], if it
    called it, and its effect, which captures [memoedSignals], also its
    dependency, and [rerender]. *)
Record rendering := mkRendering {
  set_state : option (array Signal);
  effect_deps : array Signal;
  effect_rerender : callback;
}.

(** [Rerenderer({ signals, render })], where [useReducer] gives the
    dispatch function [rerender] and [useState] gives [state]. *)
Definition Rerenderer (signals : array Signal) (rerender : callback)
    (state : array Signal) : rendering :=
  let (memoedSignals, set) := useMemoList signals signal_compareFn state in
  {| set_state := set; effect_deps := memoedSignals;
     effect_rerender := rerender |}.

(** The effect of [Rerenderer] for [memoedSignals] and [rerender], and its
    cleanup. *)
Definition effect (memoedSignals : array Signal) (rerender : callback)
    (ls : list listener * nat) : list nat * (list listener * nat) :=
  subscribe_all (arr_items memoedSignals) rerender ls.

Definition cleanup (unsubs : list nat) (ls : list listener) : list listener :=
  unsubscribe_all unsubs ls.

(** Modelled from the spec: the render phase of React.  The component
    function is called on the current state; when it calls [setState]
    with another list, React calls it again on the new state, and gives up
    after 25 rounds.  The result is the state, and the [memoedSignals] and
    the [rerender] of the effect of the last call.  A pass whose
    [render()] throws is not committed and leaves the instance as it was;
    only committed passes are followed. *)
Fixpoint render_phase (rounds : nat) (signals : array Signal)
    (rerender : callback) (state : array Signal)
    : option (array Signal * array Signal * callback) :=
  match rounds with
  | 0 => None
  | S rounds' =>
      let out := Rerenderer signals rerender state in
      match set_state out with
      | Some list =>
          if bool_decide (arr_ref list = arr_ref state)
          then Some (state, effect_deps out, effect_rerender out)
          else render_phase rounds' signals rerender list
      | None => Some (state, effect_deps out, effect_rerender out)
      end
  end.

(** Modelled from the spec: the state that [useReducer] gives at the next
    render of the instance: the reducer is applied once for every action
    in the queue. *)
Definition reduced (f : fiber) : nat := Nat.iter (queue f) reducer (count f).

(** Modelled from the spec: one render pass of the instance with the prop
    [signals], committed.  [useReducer] gives the reduced state and the
    dispatch function of the instance; a first pass mounts the instance
    under the next number.  The effect of
    [useEffect(..., [memoedSignals])] runs, after the cleanup of its last
    run, if this is the first commit or [memoedSignals] is another array
    than last time. *)
Definition render_pass (signals : array Signal) (w : world) : option world :=
  let i := from_option fiber_id (mounts w) (instance w) in
  let state0 := from_option list_state signals (instance w) in
  match render_phase 25 signals (Dispatch i) state0 with
  | None => None
  | Some (state, memoedSignals, rerender) =>
      let rerun :=
        match instance w with
        | Some f => negb (bool_decide (arr_ref (deps f) = arr_ref memoedSignals))
        | None => true
        end in
      let old_unsubs := from_option unsubs [] (instance w) in
      let '(new_unsubs, (ls, n)) :=
        if rerun
        then effect memoedSignals rerender
               (cleanup old_unsubs (listeners w), next_listener w)
        else (old_unsubs, (listeners w, next_listener w)) in
      Some {| instance :=
                Some {| fiber_id := i;
                        count := from_option reduced 0 (instance w);
                        queue := 0;
                        list_state := state;
                        deps := memoedSignals;
                        unsubs := new_unsubs;
                        props_signals := signals |};
              listeners := ls;
              next_listener := n;
              next_array := next_array w;
              mounts := match instance w with
                        | Some _ => mounts w
                        | None => S (mounts w)
                        end;
              passes := S (passes w) |}
  end.

(** Modelled from the spec: a call of the dispatch function of the
    instance: the action is queued. *)
Definition dispatch (f : fiber) : fiber :=
  {| fiber_id := fiber_id f; count := count f; queue := S (queue f);
     list_state := list_state f; deps := deps f; unsubs := unsubs f;
     props_signals := props_signals f |}.

(** Modelled from the spec: a call of [callback].  The dispatch function
    of the mounted instance queues an action; the dispatch function of an
    instance that is gone does nothing, and the functions of other
    subscribers do nothing to the instance. *)
Definition call (callback : callback) (inst : option fiber) : option fiber :=
  match callback, inst with
  | Dispatch i, Some f =>
      if bool_decide (fiber_id f = i) then Some (dispatch f) else Some f
  | _, _ => inst
  end.

(** Modelled from the spec: the store notifies the listeners of [atom] in
    [store]: it calls the callback of each. *)
Definition fire (store : Store) (atom : Atom) (w : world) : world :=
  let hit :=
    filter (λ l, l_store l = store ∧ l_atom l = atom) (listeners w) in
  {| instance := foldl (λ inst l, call (l_callback l) inst) (instance w) hit;
     listeners := listeners w;
     next_listener := next_listener w;
     next_array := next_array w;
     mounts := mounts w;
     passes := passes w |}.

(** Modelled from the spec: React works off the queue of the instance.
    When the reduced state is the current state there is nothing to
    render, and the queue is dropped; otherwise the instance is rendered
    again, with the props of the last render. *)
Definition flush (w : world) : option world :=
  match instance w with
  | Some f =>
      if bool_decide (reduced f = count f)
      then Some {| instance :=
                     Some {| fiber_id := fiber_id f; count := count f;
                             queue := 0; list_state := list_state f;
                             deps := deps f; unsubs := unsubs f;
                             props_signals := props_signals f |};
                   listeners := listeners w;
                   next_listener := next_listener w;
                   next_array := next_array w;
                   mounts := mounts w;
                   passes := passes w |}
      else render_pass (props_signals f) w
  | None => Some w
  end.

(** Modelled from the spec: React unmounts the instance, and the cleanup
    of the effect runs. *)
Definition unmount (w : world) : world :=
  {| instance := None;
     listeners := cleanup (from_option unsubs [] (instance w)) (listeners w);
     next_listener := next_listener w;
     next_array := next_array w;
     mounts := mounts w;
     passes := passes w |}.

(** What happens to the instance: its parent renders it with a new
    [signals] array (as [createElement] builds one on every call), the
    store fires an atom, React flushes, React unmounts the instance. *)
Inductive event :=
| Render (items : list Signal)
| Fire (store : Store) (atom : Atom)
| Flush
| Unmount.

Definition step (e : event) (w : world) : option world :=
  match e with
  | Render items =>
      render_pass (mkArray (next_array w) items)
        {| instance := instance w; listeners := listeners w;
           next_listener := next_listener w;
           next_array := S (next_array w);
           mounts := mounts w; passes := passes w |}
  | Fire store atom => Some (fire store atom w)
  | Flush => flush w
  | Unmount => Some (unmount w)
  end.

Fixpoint run (es : list event) (w : world) : option world :=
  match es with
  | [] => Some w
  | e :: es' =>
      match step e w with
      | Some w' => run es' w'
      | None => None
      end
  end.

(** The atoms the instance is subscribed to, in subscription order. *)
Definition subscriptions (w : world) : list (Store * Atom) :=
  map (λ l, (l_store l, l_atom l)) (listeners w).

(** The list of the last commit. *)
Definition committed (w : world) : list Signal :=
  from_option (λ f, arr_items (deps f)) [] (instance w).

Definition target (sg : Signal) : Store * Atom := (sig_store sg, sig_atom sg).

(** ** Specification vocabulary *)

(** The signal that [signalCache] holds for [atom] of [store], if any. *)
Definition cached (store : Store) (atom : Atom) (σ : heap) : option Signal :=
  signalCache σ !! store ≫= λ atomSignalCache, atomSignalCache !! atom.

(** The heap after a sequence of calls [signal(atom, store)]. *)
Fixpoint after_calls (defaultStore : Store)
    (calls : list (Atom * option Store)) (σ : heap) : heap :=
  match calls with
  | [] => σ
  | (atom, store) :: calls' =>
      after_calls defaultStore calls' (signal defaultStore atom store σ).2
  end.

(** The values [findAllSignals] and [fillAllSignalValues] descend into:
    the elements of an array, the [Object.values] of an object. *)
Definition parts (x : value) : list value :=
  match x with
  | VArray _ items => items
  | VObject _ _ props => values props
  | _ => []
  end.

(** A position inside a value: the index of a part, then a position
    inside that part. *)
Definition path := list nat.

(** [embedded p x sg]: the signal [sg] sits in [x] at the position [p]. *)
Inductive embedded : path → value → Signal → Prop :=
| embedded_here sg : embedded [] (VSignal sg) sg
| embedded_inside i p x y sg :
    parts x !! i = Some y → embedded p y sg → embedded (i :: p) x sg.

(** The order in which a left-to-right, depth-first walk meets the
    positions. *)
Inductive path_lt : path → path → Prop :=
| path_lt_nil i q : path_lt [] (i :: q)
| path_lt_head i j p q : i < j → path_lt (i :: p) (j :: q)
| path_lt_tail i p q : path_lt p q → path_lt (i :: p) (i :: q).

Definition under (i : nat) (o : path * Signal) : path * Signal :=
  (i :: o.1, o.2).

(** The signals found in the parts [l], numbered from [i] on, each with
    its position. *)
Definition located_parts (f : value → list (path * Signal))
    : nat → list value → list (path * Signal) :=
  fix go (i : nat) (l : list value) :=
    match l with
    | [] => []
    | y :: l' => (under i <$> f y) ++ go (S i) l'
    end.

(** [findAllSignals] with the position of every signal it returns. *)
Fixpoint located (x : value) : list (path * Signal) :=
  match x with
  | VSignal sg => [([], sg)]
  | VArray _ items => located_parts located 0 items
  | VObject _ _ props =>
      (fix over_values (i : nat) (ps : list property) :=
         match ps with
         | [] => []
         | Property (KString _) true v :: ps' =>
             (under i <$> located v) ++ over_values (S i) ps'
         | _ :: ps' => over_values i ps'
         end) 0 props
  | _ => []
  end.

Global Instance number_eq_dec : EqDecision number.
Proof. solve_decision. Defined.
Global Instance Signal_eq_dec : EqDecision Signal.
Proof. solve_decision. Defined.


(** [value instanceof Promise]. *)
Definition instanceof_Promise (v : value) : bool :=
  match v with
  | VPromise _ => true
  | _ => false
  end.

(** What [read()] of a signal returns in the heap [σ]. *)
Definition read (sg : Signal) (σ : heap) : value :=
  store_get σ (sig_store sg) (sig_atom sg).

(** What a render that reads a settled promise ends with. *)
Definition resumed (o : outcome) : result value :=
  match o with
  | Fulfilled v => Return v
  | Rejected e => Throw e
  end.


(** Two lists have equal length and are element-wise equal under
    [compareFn]. *)
Definition same_lists {T} (compareFn : T → T → bool) (list state : list T)
    : Prop :=
  length list = length state
  ∧ Forall2 (λ a b, compareFn a b = true) list state.


(** The value a render gets from [readSignal] in the heap [σ], when the
    call returns: the read result itself, or the value of a promise that
    [use] has seen fulfilled. *)
Definition now (sg : Signal) (σ : heap) : option value :=
  match read sg σ with
  | VPromise p =>
      match status (get_promise p σ) with
      | StatusFulfilled => Some (value_field (get_promise p σ))
      | _ => None
      end
  | v => Some v
  end.

(** Every signal of [sigs] can be read in [σ], and what is read is not
    itself a signal ([Read] returns a [Displayable]). *)
Definition readable (σ : heap) (sigs : list Signal) : bool :=
  forallb (λ sg, match now sg σ with
                 | Some v => negb (isSignal v)
                 | None => false
                 end) sigs.

(** No NaN anywhere in the parts of a value. *)
Fixpoint nan_free (x : value) : bool :=
  match x with
  | VNumber NaN => false
  | VArray _ items => forallb nan_free items
  | VObject _ _ props =>
      (fix over_values (ps : list property) : bool :=
         match ps with
         | [] => true
         | Property (KString _) true v :: ps' => nan_free v && over_values ps'
         | _ :: ps' => over_values ps'
         end) props
  | _ => true
  end.

(** The enumerable string keys of every object in the parts of a value
    are pairwise distinct, as the keys of an object are. *)
Fixpoint distinct_keys (x : value) : bool :=
  match x with
  | VArray _ items => forallb distinct_keys items
  | VObject _ _ props =>
      bool_decide (NoDup (entries props).*1)
      && (fix over_values (ps : list property) : bool :=
            match ps with
            | [] => true
            | Property (KString _) true v :: ps' =>
                distinct_keys v && over_values ps'
            | _ :: ps' => over_values ps'
            end) props
  | _ => true
  end.

(** Every array and object in the parts of a value was allocated before
    the address [n]. *)
Fixpoint allocated (n : ref) (x : value) : bool :=
  match x with
  | VArray a items => bool_decide (a < n) && forallb (allocated n) items
  | VObject o _ props =>
      bool_decide (o < n)
      && (fix over_values (ps : list property) : bool :=
            match ps with
            | [] => true
            | Property (KString _) true v :: ps' =>
                allocated n v && over_values ps'
            | _ :: ps' => over_values ps'
            end) props
  | _ => true
  end.

(** The value at a position. *)
Fixpoint value_at (pos : path) (x : value) : option value :=
  match pos with
  | [] => Some x
  | i :: pos' => parts x !! i ≫= value_at pos'
  end.

(** What a call leaves of the heap when it returns: only addresses were
    taken. *)
Definition frame (σ σ' : heap) : Prop :=
  promises σ' = promises σ ∧ store_get σ' = store_get σ
  ∧ signalCache σ' = signalCache σ ∧ next σ ≤ next σ'.


(** Whether the callback of [map_items] or [map_entries] has set
    [changed]: some value differs ([!==]) from the one it was mapped to. *)
Fixpoint any_changed (l l' : list value) : bool :=
  match l, l' with
  | y :: l, y' :: l' => strict_ne y y' || any_changed l l'
  | _, _ => false
  end.

(** The property [Object.fromEntries] defines for an entry. *)
Definition data_property (e : string * value) : property :=
  Property (KString e.1) true e.2.

(** [y'] is the very value [y] whenever [y] holds neither a signal nor a
    NaN. *)
Definition shared (y y' : value) : Prop :=
  findAllSignals y = [] → nan_free y = true → y' = y.

(** What [fillAllSignalValues] has made of [x] when it returns [x'],
    with [rd] the value read for each signal: [x] itself if it holds no
    signal and no NaN; another value if it holds a signal; at every
    position of a signal the value read for it; an array or an object
    again, with the same keys, whose parts are shared with [x]. *)
Definition filled (rd : Signal → option value) (x x' : value) : Prop :=
  shared x x'
  ∧ (findAllSignals x ≠ [] → strict_eq x x' = false)
  ∧ (∀ pos sg, embedded pos x sg →
       ∃ v, rd sg = Some v ∧ value_at pos x' = Some v)
  ∧ match x with
    | VArray _ items =>
        ∃ a' items', x' = VArray a' items' ∧ Forall2 shared items items'
    | VObject _ _ props =>
        ∃ o' pr' props',
          x' = VObject o' pr' props'
          ∧ (entries props').*1 = (entries props).*1
          ∧ Forall2 shared (values props) (values props')
    | _ => True
    end.


(** [fillAllSignalValues x] returns a [filled] value from every heap in
    which the signals of [x] read as [rd] says, none of them to a signal,
    and in which [x] is well formed. *)
Definition returns_filled (rd : Signal → option value) (x : value) : Prop :=
  ∀ σ,
    (∀ sg, now sg σ = rd sg) →
    (∀ sg, sg ∈ findAllSignals x → ∃ v, rd sg = Some v ∧ isSignal v = false) →
    distinct_keys x = true →
    allocated (next σ) x = true →
    ∃ x' σ', fillAllSignalValues x σ = (Return x', σ')
             ∧ frame σ σ' ∧ filled rd x x'.


(** A heap with nothing in it but the next free address [n], in which
    every atom holds [v]. *)
Definition heap_of (n : ref) (v : value) : heap :=
  {| next := n; signalCache := ∅; promises := ∅; store_get := λ _ _, v |}.

(** The children of [createElement] that are signals themselves, each
    with its index. *)
Fixpoint direct_signals (i : nat) (children : list value)
    : list (nat * Signal) :=
  match children with
  | [] => []
  | VSignal sg :: rest => (i, sg) :: direct_signals (S i) rest
  | _ :: rest => direct_signals (S i) rest
  end.

(** What React creates in the end for an element of [createElement]:
    [Rerenderer] returns [render()]. *)
Definition rendered (e : element) : M element :=
  match e with
  | Element _ _ _ => ret e
  | RerendererElement _ rc => render rc
  end.


(** What holds of the instance between two events: the effect ran for the
    list in the state, the listeners are those its cleanup will remove,
    they are subscribed to the signals of that list, the list in the
    state has the elements of the [signals] prop, and the callback of
    every listener is the dispatch function of the instance. *)
Definition consistent (w : world) : Prop :=
  match instance w with
  | None => listeners w = []
  | Some f =>
      deps f = list_state f
      ∧ l_id <$> listeners w = unsubs f
      ∧ subscriptions w = target <$> arr_items (deps f)
      ∧ arr_ref (list_state f) < next_array w
      ∧ arr_ref (props_signals f) < next_array w
      ∧ sig_ref <$> arr_items (list_state f)
        = sig_ref <$> arr_items (props_signals f)
      ∧ Forall (λ l, l_callback l = Dispatch (fiber_id f)) (listeners w)
  end.

(** The store fires the atom of a signal. *)
Definition fire_signal (sg : Signal) : event :=
  Fire (sig_store sg) (sig_atom sg).


(** ** Vocabulary of the further properties *)

(** Two heaps that differ at most in the next free address. *)
Definition same_state (σ σ' : heap) : Prop :=
  promises σ' = promises σ ∧ store_get σ' = store_get σ
  ∧ signalCache σ' = signalCache σ.

(** The signals [sigs] are read one after the other. *)
Definition reads (sigs : list Signal) : M (list value) :=
  mapM readSignal sigs.

(** The call that ended as [out] from the heap [σ] did to the promises,
    and threw, what the reads that ended as [rd] from the heap [σr] did:
    both returned, the reads leaving their heap alone and the call taking
    addresses only; or both threw the same value and left the same
    promises. *)
Definition reads_like {A B} (σ σr : heap) (out : result A * heap)
    (rd : result B * heap) : Prop :=
  match out, rd with
  | (Return _, σ'), (Return _, σr') => σr' = σr ∧ frame σ σ'
  | (Throw e, σ'), (Throw e', σr') =>
      e = e' ∧ same_state σr' σ' ∧ next σ ≤ next σ'
  | _, _ => False
  end.

(** The cache is in order: the signal cached for a pair was made for that
    pair, its address is taken, and no two pairs share a signal. *)
Definition registry_ok (σ : heap) : Prop :=
  ∀ s a h,
    cached s a σ = Some h →
    sig_store h = s ∧ sig_atom h = a ∧ sig_ref h < next σ
    ∧ ∀ s' a' h', cached s' a' σ = Some h' → sig_ref h' = sig_ref h →
                  s' = s ∧ a' = a.


(** [fillAllSignalValues x] throws, and does to the promises, what the
    reads of the signals of [x] in scanner order do. *)
Definition fill_reads_like (x : value) : Prop :=
  ∀ σ σr,
    same_state σr σ →
    reads_like σ σr (fillAllSignalValues x σ) (reads (findAllSignals x) σr).


(** A signal that can be read in [σ]. *)
Definition can_read (σ : heap) (sg : Signal) : Prop := is_Some (now sg σ).

(** The call that ended as [out] from [σ] went as the reads of [sigs] one
    after the other: either every signal can be read and the call
    returned, taking addresses only; or the call threw what the read of
    the first signal that cannot be read throws, and left the promises
    that read leaves. *)
Definition stops_at_first_unreadable {A} (σ : heap) (sigs : list Signal)
    (out : result A * heap) : Prop :=
  (Forall (can_read σ) sigs
   ∧ ∃ a σ', out = (Return a, σ') ∧ frame σ σ')
  ∨ (∃ pre sg post e σ' σr,
       sigs = pre ++ sg :: post
       ∧ Forall (can_read σ) pre
       ∧ now sg σ = None
       ∧ readSignal sg σ = (Throw e, σr)
       ∧ out = (Throw e, σ')
       ∧ same_state σr σ').


(** [y'] holds no signal, and is another value than [y] if [y] holds
    one. *)
Definition cleared (y y' : value) : Prop :=
  findAllSignals y' = []
  ∧ (findAllSignals y ≠ [] → strict_eq y y' = false).

(** [fillAllSignalValues x], when it returns, returns a [cleared] value,
    if the objects of [x] are allocated and no signal of [x] reads to a
    value that holds a signal. *)
Definition returns_cleared (x : value) : Prop :=
  ∀ σ x' σ',
    fillAllSignalValues x σ = (Return x', σ') →
    allocated (next σ) x = true →
    (∀ sg v, sg ∈ findAllSignals x → now sg σ = Some v →
             findAllSignals v = []) →
    cleared x x'.


(** What can happen to the promises between two reads: [use] is called
    on one, one settles, the job queue runs the callbacks left on one. *)
Inductive promise_step :=
| UseStep (p : ref)
| SettleStep (p : ref) (o : outcome)
| ReactionsStep (p : ref).

Definition promise_step_run (st : promise_step) (σ : heap) : heap :=
  match st with
  | UseStep p => (use p σ).2
  | SettleStep p o => settle p o σ
  | ReactionsStep p => run_reactions p σ
  end.

Definition promise_steps_run (sts : list promise_step) (σ : heap) : heap :=
  foldl (λ σ st, promise_step_run st σ) σ sts.

(** The callbacks of [use] are the only writers of [status] besides [use]
    itself: a promise whose [status] is ['fulfilled'] or ['rejected'] has
    no callback of [use] waiting on it. *)
Definition callbacks_done (σ : heap) : Prop :=
  ∀ p, reactions (get_promise p σ) ≠ 0 →
       status (get_promise p σ) = StatusPending.


(** * Theorems *)

(** ** The signal cache *)

Lemma getSignal_cached store atom σ h :
  cached store atom σ = Some h → getSignal store atom σ = (Return h, σ).
Proof.
  unfold cached, getSignal. intros Hc.
  destruct (signalCache σ !! store) as [c|] eqn:Hs; simpl in Hc; [|done].
  by rewrite Hc.
Qed.

Lemma getSignal_fresh store atom σ :
  cached store atom σ = None →
  ∃ σ1, getSignal store atom σ = (Return (mkSignal (next σ) store atom), σ1)
        ∧ next σ1 = S (next σ)
        ∧ cached store atom σ1 = Some (mkSignal (next σ) store atom)
        ∧ (∀ s a, (s, a) ≠ (store, atom) → cached s a σ1 = cached s a σ).
Proof.
  unfold cached, getSignal. intros Hc.
  destruct (signalCache σ !! store) as [c|] eqn:Hs; simpl in Hc.
  - rewrite Hc. eexists. split; [reflexivity|]. simpl.
    split; [done|]. split.
    + rewrite lookup_alter_eq, Hs. simpl. by rewrite lookup_insert_eq.
    + intros s a Hne. destruct (decide (s = store)) as [->|Hs'].
      * rewrite lookup_alter_eq, Hs. simpl.
        rewrite lookup_insert_ne; [done|congruence].
      * by rewrite lookup_alter_ne.
  - rewrite lookup_empty. eexists. split; [reflexivity|]. simpl.
    split; [done|]. split.
    + rewrite lookup_alter_eq, lookup_insert_eq. simpl.
      by rewrite lookup_insert_eq.
    + intros s a Hne. destruct (decide (s = store)) as [->|Hs'].
      * rewrite lookup_alter_eq, lookup_insert_eq, Hs. simpl.
        rewrite lookup_insert_ne; [done|congruence].
      * rewrite lookup_alter_ne, lookup_insert_ne by done. done.
Qed.

Lemma getSignal_keeps store atom σ s a h :
  cached s a σ = Some h → cached s a (getSignal store atom σ).2 = Some h.
Proof.
  intros Hc. destruct (cached store atom σ) as [h'|] eqn:Hc'.
  - by rewrite (getSignal_cached _ _ _ _ Hc').
  - destruct (getSignal_fresh _ _ _ Hc') as (σ1 & -> & _ & _ & Hother).
    simpl. rewrite Hother; [done|]. intros [= -> ->]. congruence.
Qed.

Lemma after_calls_keeps defaultStore calls σ s a h :
  cached s a σ = Some h → cached s a (after_calls defaultStore calls σ) = Some h.
Proof.
  revert σ. induction calls as [|[atom store] calls IH]; intros σ Hc; [done|].
  simpl. apply IH. unfold signal. by apply getSignal_keeps.
Qed.

(** C1.  Two calls [signal(c, s)] return the same object: the first call
    returns a signal [h]; if the cache had none for the pair, [h] is a
    newly allocated object, otherwise [h] is the cached one and the heap is
    left as it was; the next call returns [h] and changes nothing; and
    after any further calls of [signal], for this pair or for others, the
    call still returns [h]. *)
Theorem signal_same_handle (defaultStore : Store) (c : Atom)
    (s : option Store) (σ : heap) :
  ∃ h σ1,
    signal defaultStore c s σ = (Return h, σ1)
    ∧ signal defaultStore c s σ1 = (Return h, σ1)
    ∧ (∀ calls,
         (signal defaultStore c s (after_calls defaultStore calls σ1)).1
         = Return h)
    ∧ (cached (default defaultStore s) c σ = None →
         sig_ref h = next σ ∧ next σ1 = S (next σ))
    ∧ (∀ h0, cached (default defaultStore s) c σ = Some h0 →
         h = h0 ∧ σ1 = σ).
Proof.
  unfold signal. set (store := default defaultStore s).
  assert (∃ h σ1, getSignal store c σ = (Return h, σ1)
                  ∧ cached store c σ1 = Some h
                  ∧ (cached store c σ = None →
                       sig_ref h = next σ ∧ next σ1 = S (next σ))
                  ∧ (∀ h0, cached store c σ = Some h0 → h = h0 ∧ σ1 = σ))
    as (h & σ1 & Hcall & Hc1 & Hnew & Hold).
  { destruct (cached store c σ) as [h0|] eqn:Hc.
    - exists h0, σ. rewrite (getSignal_cached _ _ _ _ Hc).
      split; [done|]. split; [done|]. split; [done|].
      by intros ? [= ->].
    - destruct (getSignal_fresh _ _ _ Hc) as (σ1 & Hcall & Hn & Hc1 & _).
      exists (mkSignal (next σ) store c), σ1.
      split; [done|]. split; [done|]. split; [done|]. done. }
  exists h, σ1. split; [done|]. split; [by apply getSignal_cached|].
  split; [|done].
  intros calls.
  by rewrite (getSignal_cached _ _ _ h (after_calls_keeps _ calls _ _ _ _ Hc1)).
Qed.

(** ** The scanner *)

Lemma findAllSignals_object o pr props :
  findAllSignals (VObject o pr props) = flat_map findAllSignals (values props).
Proof.
  unfold values, entries. simpl.
  induction props as [|[[s|n] [] v] props IH]; simpl; auto.
  by rewrite IH.
Qed.

Lemma findAllSignals_parts x :
  findAllSignals x =
  match x with
  | VSignal sg => [sg]
  | _ => flat_map findAllSignals (parts x)
  end.
Proof. destruct x; try done. apply findAllSignals_object. Qed.

Lemma located_object o pr props :
  located (VObject o pr props) = located_parts located 0 (values props).
Proof.
  unfold values, entries. simpl. generalize 0.
  induction props as [|[[s|k] [] v] props IH]; intros i; simpl; auto.
  by rewrite IH.
Qed.

Lemma located_eq x :
  located x =
  match x with
  | VSignal sg => [([], sg)]
  | _ => located_parts located 0 (parts x)
  end.
Proof. destruct x; try done. apply located_object. Qed.

Lemma located_parts_snd f g i l :
  Forall (λ y, (f y).*2 = g y) l →
  (located_parts f i l).*2 = flat_map g l.
Proof.
  intros H. revert i. induction H as [|y l Hy _ IH]; intros i; [done|].
  simpl. rewrite fmap_app, IH, <- Hy. f_equal.
  rewrite <- list_fmap_compose. done.
Qed.

Lemma located_snd x : (located x).*2 = findAllSignals x.
Proof.
  induction x using value_nested_ind;
    rewrite located_eq, findAllSignals_parts; try done.
  - simpl. by apply located_parts_snd.
  - simpl. apply located_parts_snd. unfold values, entries.
    induction H as [|[[s|k] [] v] props Hv _ IH]; simpl; auto.
Qed.

Lemma elem_of_located_parts f i l p sg :
  (p, sg) ∈ located_parts f i l ↔
  ∃ j y q, l !! j = Some y ∧ p = (i + j) :: q ∧ (q, sg) ∈ f y.
Proof.
  revert i. induction l as [|y l IH]; intros i; simpl.
  - split; [by intros ?%elem_of_nil|]. by intros (j & ? & ? & ? & _).
  - rewrite elem_of_app, IH, list_elem_of_fmap. split.
    + intros [([q sg'] & [= -> ->] & Hin)|(j & z & q & Hj & -> & Hin)].
      * exists 0, y, q. by rewrite Nat.add_0_r.
      * exists (S j), z, q. split; [done|]. split; [f_equal; lia|done].
    + intros ([|j] & z & q & Hj & -> & Hin); simpl in Hj.
      * injection Hj as ->. left. exists (q, sg). by rewrite Nat.add_0_r.
      * right. exists j, z, q. split; [done|]. split; [f_equal; lia|done].
Qed.

Lemma Forall_parts (P : value → Prop) x :
  match x with
  | VArray _ items => Forall P items
  | VObject _ _ props => Forall (λ p, P (prop_value p)) props
  | _ => True
  end → Forall P (parts x).
Proof.
  destruct x; simpl; try done.
  unfold values, entries.
  induction 1 as [|[[s|k] [] v] props Hv _ IH]; simpl; auto.
Qed.

Lemma elem_of_located x pos sg :
  (pos, sg) ∈ located x ↔ embedded pos x sg.
Proof.
  revert pos. induction x using value_nested_ind; intros pos;
    rewrite located_eq;
    try (simpl; split; [by intros ?%elem_of_nil
                       | by inversion 1; simplify_eq/=]).
  - simpl. rewrite list_elem_of_singleton. split.
    + intros [= -> ->]. constructor.
    + inversion 1; simplify_eq/=. done.
  - pose proof (Forall_parts
      (λ y, ∀ pos, (pos, sg) ∈ located y ↔ embedded pos y sg)
      (VArray a items) H) as HP.
    rewrite elem_of_located_parts. rewrite Forall_lookup in HP. split.
    + intros (j & y & q & Hj & -> & Hin). simpl.
      econstructor; [done|]. by apply (HP j y Hj).
    + inversion 1 as [|i q ? y ? Hi Hq]; simplify_eq/=. exists i, y, q.
      split; [done|]. split; [done|]. by apply (HP i y).
  - pose proof (Forall_parts
      (λ y, ∀ pos, (pos, sg) ∈ located y ↔ embedded pos y sg)
      (VObject o pr props) H) as HP.
    rewrite elem_of_located_parts. rewrite Forall_lookup in HP. split.
    + intros (j & y & q & Hj & -> & Hin). simpl.
      econstructor; [done|]. by apply (HP j y Hj).
    + inversion 1 as [|i q ? y ? Hi Hq]; simplify_eq/=. exists i, y, q.
      split; [done|]. split; [done|]. by apply (HP i y).
Qed.

Lemma path_lt_irrefl pos : ¬ path_lt pos pos.
Proof. induction pos as [|i pos IH]; inversion 1; subst; [lia|auto]. Qed.

Lemma StronglySorted_path_lt_NoDup (l : list path) :
  StronglySorted path_lt l → NoDup l.
Proof.
  induction 1 as [|pos l _ IH Hall]; constructor; [|done].
  intros Hin. rewrite Forall_forall in Hall.
  exact (path_lt_irrefl pos (Hall pos Hin)).
Qed.

Lemma under_fst i (occ : list (path * Signal)) :
  (under i <$> occ).*1 = (λ pos : path, i :: pos) <$> occ.*1.
Proof. induction occ as [|o occ IH]; [done|]. csimpl. by rewrite IH. Qed.

Lemma located_parts_sorted f i l :
  Forall (λ y, StronglySorted path_lt (f y).*1) l →
  StronglySorted path_lt (located_parts f i l).*1.
Proof.
  intros H. revert i. induction H as [|y l Hy _ IH]; intros i; simpl.
  - constructor.
  - rewrite fmap_app. apply StronglySorted_app. split; [|split].
    + intros p1 p2 H1 H2.
      apply list_elem_of_fmap in H1 as ([q1 s1] & -> & H1).
      apply list_elem_of_fmap in H1 as ([q1' s1'] & [= -> ->] & H1).
      apply list_elem_of_fmap in H2 as ([q2 s2] & -> & H2).
      apply elem_of_located_parts in H2 as (j & z & q & _ & -> & _).
      simpl. apply path_lt_head. lia.
    + rewrite under_fst.
      apply (StronglySorted_fmap _ path_lt path_lt); [|done].
      intros ???; by apply path_lt_tail.
    + apply IH.
Qed.

Lemma located_sorted x : StronglySorted path_lt (located x).*1.
Proof.
  induction x using value_nested_ind; rewrite located_eq;
    try (simpl; by repeat constructor).
  - apply located_parts_sorted. done.
  - apply located_parts_sorted.
    by apply (Forall_parts (λ y, StronglySorted path_lt (located y).*1)
                (VObject o pr props)).
Qed.

Lemma occurrences_counted (occ : list (path * Signal)) (sg : Signal) :
  NoDup occ.*1 →
  ∃ ps : list path,
    NoDup ps ∧ (∀ pos, pos ∈ ps ↔ (pos, sg) ∈ occ)
    ∧ length (filter (sg =.) occ.*2) = length ps.
Proof.
  induction occ as [|[pos0 sg0] occ IH]; csimpl; intros Hnd.
  - exists []. split; [constructor|]. split; [|done].
    intros pos. by rewrite !elem_of_nil.
  - apply NoDup_cons in Hnd as [Hnotin Hnd].
    destruct (IH Hnd) as (ps & Hps & Hin & Hlen).
    rewrite filter_cons. destruct (decide (sg = sg0)) as [<-|Hne].
    + exists (pos0 :: ps). split; [|split].
      * constructor; [|done]. rewrite Hin. intros Hx. apply Hnotin.
        apply list_elem_of_fmap. by exists (pos0, sg).
      * intros pos. rewrite !elem_of_cons, Hin. split.
        -- intros [->|?]; [by left|by right].
        -- intros [[= ->]|?]; [by left|by right].
      * cbn [length]. by rewrite Hlen.
    + exists ps. split; [done|]. split; [|done].
      intros pos. rewrite elem_of_cons, Hin. split; [by right|].
      intros [[= -> ->]|?]; done.
Qed.

(** C5.  [findAllSignals] returns exactly the signals embedded in its
    argument, in left-to-right depth-first order: its result is the list of
    the signals at the positions where one is embedded, one entry for each
    position, the positions in increasing order.  A signal embedded at [k]
    positions is therefore returned [k] times.  The result is empty for a
    value in which no signal is embedded, among them [null], [undefined],
    booleans, numbers, strings and functions. *)
Theorem findAllSignals_encounter_order (x : value) :
  (∃ occ : list (path * Signal),
     findAllSignals x = occ.*2
     ∧ StronglySorted path_lt occ.*1
     ∧ ∀ pos sg, (pos, sg) ∈ occ ↔ embedded pos x sg)
  ∧ (∀ sg, ∃ ps : list path,
       NoDup ps ∧ (∀ pos, pos ∈ ps ↔ embedded pos x sg)
       ∧ length (filter (sg =.) (findAllSignals x)) = length ps)
  ∧ ((∀ pos sg, ¬ embedded pos x sg) → findAllSignals x = [])
  ∧ findAllSignals VNull = []
  ∧ findAllSignals VUndefined = []
  ∧ (∀ b, findAllSignals (VBoolean b) = [])
  ∧ (∀ n, findAllSignals (VNumber n) = [])
  ∧ (∀ s, findAllSignals (VString s) = [])
  ∧ (∀ f, findAllSignals (VFunction f) = []).
Proof.
  split; [|split; [|split]].
  - exists (located x). split; [by rewrite located_snd|].
    split; [apply located_sorted|]. intros pos sg. apply elem_of_located.
  - intros sg.
    destruct (occurrences_counted (located x) sg) as (ps & Hnd & Hin & Hlen).
    { apply StronglySorted_path_lt_NoDup, located_sorted. }
    exists ps. split; [done|]. split.
    + intros pos. by rewrite Hin, elem_of_located.
    + by rewrite <- located_snd.
  - intros Hnone. rewrite <- located_snd.
    destruct (located x) as [|[pos sg] occ] eqn:Hocc; [done|].
    exfalso. apply (Hnone pos sg), elem_of_located. rewrite Hocc. left.
  - repeat split; done.
Qed.

(** ** Reading a signal *)

Lemma get_set_promise p q σ : get_promise p (set_promise p q σ) = q.
Proof. unfold get_promise, set_promise. simpl. by rewrite lookup_insert_eq. Qed.

Lemma read_settle sg p o σ : read sg (settle p o σ) = read sg σ.
Proof. unfold settle. by destruct (settled (get_promise p σ)). Qed.

Lemma read_run_reactions sg p σ : read sg (run_reactions p σ) = read sg σ.
Proof.
  unfold run_reactions.
  by destruct (reactions (get_promise p σ)),
       (settled (get_promise p σ)) as [[]|].
Qed.

Lemma readSignal_promise sg σ p :
  read sg σ = VPromise p → readSignal sg σ = use p σ.
Proof. unfold read, readSignal. by intros ->. Qed.

(** What [use] does with a promise, by the [status] of the promise: as
    the function of the module when React exports no [use], as the
    contract of the engine's primitive says when it exports one. *)
Lemma use_cases :
  React_use_ok →
  ∃ suspender : ref → value,
    (ReactExports_use = None → suspender = VPromise)
    ∧ ∀ p σ,
        use p σ
        = match status (get_promise p σ) with
          | StatusPending => (Throw (suspender p), σ)
          | StatusFulfilled => (Return (value_field (get_promise p σ)), σ)
          | StatusRejected => (Throw (reason_field (get_promise p σ)), σ)
          | StatusUnset =>
              (Throw (suspender p),
               set_promise p (tracked (get_promise p σ)) σ)
          end.
Proof.
  unfold React_use_ok, use. intros Hok.
  destruct ReactExports_use as [React_use|].
  - destruct (Hok React_use eq_refl) as (suspender & Huse).
    exists suspender. split; [done|]. exact Huse.
  - exists VPromise. split; [done|]. intros p σ.
    by destruct (status (get_promise p σ)).
Qed.

(** C7.  [readSignal] returns a read result that is not a promise as it
    is, at once.  A read result that is a promise goes to [use]: to the
    [use] that React exports, when it exports one.  When React exports
    none, or one that keeps the contract of the engine's primitive, and
    the promise is one that [use] has not seen, the call suspends: it
    throws, and so does every later call until the callbacks [use] left on
    the promise have run; once the promise has settled and they have run,
    the call returns the value the promise was fulfilled with, or throws
    the reason it was rejected with.  What is thrown to suspend is the
    promise itself when React exports no [use]. *)
Theorem readSignal_suspends_and_resumes (sg : Signal) (σ : heap) :
  (instanceof_Promise (read sg σ) = false →
     readSignal sg σ = (Return (read sg σ), σ))
  ∧ (∀ p React_use,
       read sg σ = VPromise p →
       ReactExports_use = Some React_use →
       readSignal sg σ = React_use p σ)
  ∧ (React_use_ok →
     ∃ suspender : ref → value,
       (ReactExports_use = None → suspender = VPromise)
       ∧ ∀ p o,
           read sg σ = VPromise p →
           status (get_promise p σ) = StatusUnset →
           let σ1 := (readSignal sg σ).2 in
           let σ2 := run_reactions p (settle p o σ1) in
           readSignal sg σ = (Throw (suspender p), σ1)
           ∧ readSignal sg σ1 = (Throw (suspender p), σ1)
           ∧ readSignal sg (settle p o σ1)
             = (Throw (suspender p), settle p o σ1)
           ∧ readSignal sg σ2
             = (resumed (default o (settled (get_promise p σ))), σ2)).
Proof.
  split; [|split].
  - unfold read, readSignal. by destruct (store_get σ _ _).
  - intros p React_use Hread HR.
    rewrite (readSignal_promise _ _ _ Hread). unfold use. by rewrite HR.
  - intros Hok. destruct (use_cases Hok) as (suspender & Hnone & Huse).
    exists suspender. split; [exact Hnone|].
    intros p o Hread Hstatus σ1 σ2.
    assert (Hσ1 : σ1 = set_promise p (tracked (get_promise p σ)) σ).
    { unfold σ1. rewrite (readSignal_promise _ _ _ Hread), Huse.
      by rewrite Hstatus. }
    assert (Hr1 : read sg σ1 = VPromise p) by by rewrite Hσ1.
    assert (Hrs : read sg (settle p o σ1) = VPromise p)
      by by rewrite read_settle.
    assert (Hr2 : read sg σ2 = VPromise p)
      by by (unfold σ2; rewrite read_run_reactions, read_settle).
    split; [|split; [|split]].
    + rewrite (readSignal_promise _ _ _ Hread). unfold σ1.
      rewrite (readSignal_promise _ _ _ Hread), Huse.
      by rewrite Hstatus.
    + rewrite (readSignal_promise _ _ _ Hr1), Huse.
      by rewrite Hσ1, get_set_promise.
    + rewrite (readSignal_promise _ _ _ Hrs), Huse. unfold settle.
      rewrite Hσ1, get_set_promise. simpl.
      destruct (settled (get_promise p σ)); by rewrite get_set_promise.
    + rewrite (readSignal_promise _ _ _ Hr2), Huse. unfold σ2.
      unfold run_reactions, settle.
      rewrite Hσ1, !get_set_promise. unfold tracked. simpl.
      destruct (settled (get_promise p σ)) as [[v|e]|]; simpl;
        rewrite !get_set_promise; simpl; rewrite ?get_set_promise;
        try destruct o; simpl; by rewrite ?get_set_promise.
Qed.

(** C9.  A read result that is not an instance of [Promise] is returned as
    it is and the heap is left alone, whatever else the value is: a
    string, a number, an object with a [then] method. *)
Theorem readSignal_only_Promise_instances (sg : Signal) (σ : heap) :
  instanceof_Promise (read sg σ) = false →
  readSignal sg σ = (Return (read sg σ), σ).
Proof. unfold read, readSignal. by destruct (store_get σ _ _). Qed.

(** ** useMemoList *)

Lemma some_from_false {T} (compareFn : T → T → bool) (state : list T) i l :
  some_from (λ arg index,
               match state !! index with
               | Some b => negb (compareFn arg b)
               | None => true
               end) i l = false
  ↔ ∀ j a, l !! j = Some a →
           ∃ b, state !! (i + j) = Some b ∧ compareFn a b = true.
Proof.
  revert i. induction l as [|a l IH]; intros i; simpl.
  - split; [|done]. by intros _ j a.
  - rewrite orb_false_iff, IH. split.
    + intros [Ha Hl] [|j] a'; simpl.
      * intros [= <-]. rewrite Nat.add_0_r.
        destruct (state !! i) as [b|]; [|done].
        exists b. split; [done|]. by apply negb_false_iff.
      * intros Hj. destruct (Hl j a' Hj) as (b & Hb & Hc).
        exists b. split; [|done]. by replace (i + S j) with (S i + j) by lia.
    + intros H. split.
      * destruct (H 0 a eq_refl) as (b & Hb & Hc).
        rewrite Nat.add_0_r in Hb. rewrite Hb. by apply negb_false_iff.
      * intros j a' Hj. destruct (H (S j) a' Hj) as (b & Hb & Hc).
        exists b. split; [|done]. by replace (S i + j) with (i + S j) by lia.
Qed.

Lemma listChanged_false {T} (compareFn : T → T → bool) (list state : array T) :
  listChanged compareFn list state = false
  ↔ same_lists compareFn (arr_items list) (arr_items state).
Proof.
  unfold listChanged, same_lists.
  destruct (decide (length (arr_items list) = length (arr_items state)))
    as [Hlen|Hlen].
  - rewrite bool_decide_eq_true_2 by done. simpl.
    rewrite some_from_false, Forall2_same_length_lookup. split.
    + intros H. split; [done|]. split; [done|].
      intros j a b Ha Hb. destruct (H j a Ha) as (b' & Hb' & Hc).
      simpl in Hb'. congruence.
    + intros (_ & _ & H) j a Ha. simpl.
      destruct (lookup_lt_is_Some_2 (arr_items state) j) as [b Hb].
      { rewrite <- Hlen. by eapply lookup_lt_Some. }
      exists b. split; [done|]. by eapply H.
  - rewrite bool_decide_eq_false_2 by done. simpl. split; [done|].
    by intros [? _].
Qed.

(** C8.  [useMemoList] returns the list in the state, and does not call
    [setState], exactly when the new list and the list in the state have
    equal length and are element-wise equal under [compareFn]; otherwise
    it returns the new list and hands it to [setState].  When the new list
    is another object than the list in the state, as a freshly computed
    list is, the object returned is the one in the state exactly in the
    first case. *)
Theorem useMemoList_keeps_equal_list {T} (compareFn : T → T → bool)
    (list state : array T) :
  (useMemoList list compareFn state = (state, None)
   ↔ same_lists compareFn (arr_items list) (arr_items state))
  ∧ (¬ same_lists compareFn (arr_items list) (arr_items state) →
       useMemoList list compareFn state = (list, Some list))
  ∧ (arr_ref list ≠ arr_ref state →
       (arr_ref (useMemoList list compareFn state).1 = arr_ref state
        ↔ same_lists compareFn (arr_items list) (arr_items state))).
Proof.
  unfold useMemoList.
  pose proof (listChanged_false compareFn list state) as Hiff.
  destruct (listChanged compareFn list state); simpl.
  - assert (¬ same_lists compareFn (arr_items list) (arr_items state))
      as Hnot by (intros H; by apply Hiff in H).
    split; [split; [by intros [=]|done]|]. split; [done|].
    intros Hne. split; done.
  - assert (same_lists compareFn (arr_items list) (arr_items state))
      as Hsame by by apply Hiff.
    split; [done|]. split; [done|]. intros Hne. split; done.
Qed.

(** The steady state on signals: the default comparison is reference
    equality, so a list compared with itself is unchanged. *)
Lemma listChanged_same_state (st : array Signal) :
  listChanged signal_compareFn st st = false.
Proof.
  apply listChanged_false. split; [done|].
  apply Forall2_same_length_lookup. split; [done|].
  intros i a b Ha Hb. simplify_eq. unfold signal_compareFn. simpl.
  by apply bool_decide_eq_true_2.
Qed.

(** ** Substitution of the signals *)

Lemma frame_refl σ : frame σ σ.
Proof. by repeat split. Qed.

Lemma frame_trans σ1 σ2 σ3 : frame σ1 σ2 → frame σ2 σ3 → frame σ1 σ3.
Proof.
  intros (? & ? & ? & ?) (? & ? & ? & ?).
  repeat split; try congruence. lia.
Qed.

Lemma alloc_frame σ :
  ∃ σ', alloc σ = (Return (next σ), σ') ∧ frame σ σ' ∧ next σ' = S (next σ).
Proof. eexists. split; [done|]. split; [|done]. repeat split; simpl; lia. Qed.

Lemma now_frame sg σ σ' : frame σ σ' → now sg σ' = now sg σ.
Proof.
  intros (Hp & Hg & _). unfold now, read, get_promise. by rewrite Hp, Hg.
Qed.

Lemma readSignal_now sg σ v :
  React_use_ok → now sg σ = Some v → readSignal sg σ = (Return v, σ).
Proof.
  intros Hok. destruct (use_cases Hok) as (suspender & _ & Huse).
  unfold now, readSignal, read.
  destruct (store_get σ _ _); try by intros [= ->].
  rewrite Huse. destruct (status _); by intros [= ->].
Qed.

Lemma bind_returns {A B} (m : M A) (k : A → M B) σ b σ' :
  bind m k σ = (Return b, σ') →
  ∃ a σ1, m σ = (Return a, σ1) ∧ k a σ1 = (Return b, σ').
Proof.
  unfold bind. destruct (m σ) as [[a|e] σ1]; [|done]. eauto.
Qed.

Lemma map_items_returns f (Q : value → value → Prop) l σ :
  Forall (λ y, ∀ σa, frame σ σa →
            ∃ y' σb, f y σa = (Return y', σb) ∧ frame σa σb ∧ Q y y') l →
  ∃ l' σ', map_items f l σ = (Return (l', any_changed l l'), σ')
           ∧ frame σ σ' ∧ Forall2 Q l l'.
Proof.
  intros H. revert σ H. induction l as [|y l IH]; intros σ H.
  - exists [], σ. split; [done|]. split; [apply frame_refl|constructor].
  - apply Forall_cons in H as [Hy Hl].
    destruct (Hy σ (frame_refl σ)) as (y' & σb & Hf & Hfr & HQ).
    destruct (IH σb) as (l' & σ' & Hm & Hfr' & HQs).
    { eapply Forall_impl; [exact Hl|]. intros z Hz σa Hσa.
      apply Hz. by eapply frame_trans. }
    exists (y' :: l'), σ'. split; [|split].
    + simpl. unfold bind at 1. rewrite Hf.
      unfold bind at 1. fold (map_items f). by rewrite Hm.
    + by eapply frame_trans.
    + by constructor.
Qed.

Lemma map_entries_returns f (Q : value → value → Prop) props σ :
  Forall (λ y, ∀ σa, frame σ σa →
            ∃ y' σb, f y σa = (Return y', σb) ∧ frame σa σb ∧ Q y y')
    (values props) →
  ∃ es' σ',
    map_entries f props σ
    = (Return (es', any_changed (values props) es'.*2), σ')
    ∧ frame σ σ' ∧ es'.*1 = (entries props).*1
    ∧ Forall2 Q (values props) es'.*2.
Proof.
  unfold values, entries. intros H. revert σ H.
  induction props as [|[[s|k] [] y] props IH]; intros σ H; csimpl in *.
  - exists [], σ. split; [done|]. split; [apply frame_refl|].
    split; [done|constructor].
  - apply Forall_cons in H as [Hy Hl].
    destruct (Hy σ (frame_refl σ)) as (y' & σb & Hf & Hfr & HQ).
    destruct (IH σb) as (es' & σ' & Hm & Hfr' & Hk & HQs).
    { eapply Forall_impl; [exact Hl|]. intros z Hz σa Hσa.
      apply Hz. by eapply frame_trans. }
    exists ((s, y') :: es'), σ'. split; [|split; [|split]].
    + unfold bind at 1. rewrite Hf.
      unfold bind at 1. fold (map_entries f). by rewrite Hm.
    + by eapply frame_trans.
    + csimpl. by rewrite Hk.
    + by constructor.
  - by apply IH.
  - by apply IH.
  - by apply IH.
Qed.

Lemma define_property_new k v props :
  KString k ∉ prop_key <$> props →
  define_property k v props = props ++ [data_property (k, v)].
Proof.
  induction props as [|[k' e v'] props IH]; csimpl; intros Hnot; [done|].
  apply not_elem_of_cons in Hnot as [Hne Hnot].
  rewrite bool_decide_eq_false_2 by done. by rewrite IH.
Qed.

Lemma foldl_define_property_distinct acc es :
  NoDup ((prop_key <$> acc) ++ (KString <$> es.*1)) →
  foldl (λ props e, define_property e.1 e.2 props) acc es
  = acc ++ (data_property <$> es).
Proof.
  revert acc. induction es as [|[k v] es IH]; intros acc Hnd; csimpl in *.
  - by rewrite app_nil_r.
  - rewrite define_property_new.
    + rewrite IH; [by rewrite <- app_assoc|].
      rewrite fmap_app, <- app_assoc. done.
    + apply NoDup_app in Hnd as (_ & Hdisj & _).
      intros Hin. apply (Hdisj _ Hin). left.
Qed.

Lemma fromEntries_distinct es :
  NoDup es.*1 → fromEntries es = data_property <$> es.
Proof.
  intros Hnd. unfold fromEntries.
  rewrite foldl_define_property_distinct; [done|]. simpl.
  apply NoDup_fmap_2; [|done]. by intros ?? [= ->].
Qed.

Lemma entries_data_property es : entries (data_property <$> es) = es.
Proof.
  unfold entries. induction es as [|[k v] es IH]; csimpl; [done|].
  by rewrite IH.
Qed.

Lemma define_property_entries k v props :
  Forall (λ p, is_entry p = true) props →
  Forall (λ p, is_entry p = true) (define_property k v props).
Proof.
  induction 1 as [|[k' e v'] props Hp Hps IH]; simpl.
  - by repeat constructor.
  - case_bool_decide; constructor; done.
Qed.

Lemma define_property_keys k v props k' :
  k' ∈ prop_key <$> define_property k v props
  ↔ k' = KString k ∨ k' ∈ prop_key <$> props.
Proof.
  induction props as [|[k0 e v0] props IH]; csimpl.
  - rewrite list_elem_of_singleton, elem_of_nil. tauto.
  - case_bool_decide as Hk; csimpl; rewrite !elem_of_cons.
    + subst k0. tauto.
    + rewrite IH. tauto.
Qed.

Lemma fromEntries_entries es :
  Forall (λ p, is_entry p = true) (fromEntries es).
Proof.
  unfold fromEntries.
  assert (Forall (λ p, is_entry p = true) []) as Hacc by constructor.
  revert Hacc. generalize (@nil property).
  induction es as [|[k v] es IH]; intros acc Hacc; simpl; [done|].
  by apply IH, define_property_entries.
Qed.

Lemma fromEntries_keys es k' :
  k' ∈ prop_key <$> fromEntries es ↔ k' ∈ KString <$> es.*1.
Proof.
  unfold fromEntries.
  assert (∀ acc, k' ∈ prop_key <$>
                   foldl (λ props e, define_property e.1 e.2 props) acc es
                 ↔ k' ∈ prop_key <$> acc ∨ k' ∈ KString <$> es.*1) as H.
  { induction es as [|[k v] es IH]; intros acc; csimpl.
    - rewrite elem_of_nil. tauto.
    - rewrite IH, define_property_keys, elem_of_cons. tauto. }
  rewrite H. csimpl. rewrite elem_of_nil. tauto.
Qed.

Lemma strict_eq_refl x :
  x ≠ VNumber NaN → strict_eq x x = true.
Proof.
  destruct x as [| | | [] | | | | | |]; simpl; intros Hx;
    try done; by apply bool_decide_eq_true_2.
Qed.

Lemma nan_free_parts x :
  nan_free x = true → x ≠ VNumber NaN ∧ Forall (λ y, nan_free y = true) (parts x).
Proof.
  destruct x as [| | | [] | | | | |a items|o pr props]; simpl;
    try (intros _; split; [done|constructor]); try done.
  - intros H. split; [done|]. apply Forall_forall. intros y Hy.
    rewrite forallb_forall in H. by apply H, list_elem_of_In.
  - intros H. split; [done|]. unfold values, entries.
    induction props as [|[[s|k] [] y] props IH]; csimpl in *;
      try constructor; try (apply IH; done).
    + by apply andb_prop in H as [? _].
    + apply IH. by apply andb_prop in H as [_ ?].
Qed.

Lemma distinct_keys_parts x :
  distinct_keys x = true →
  Forall (λ y, distinct_keys y = true) (parts x)
  ∧ match x with
    | VObject _ _ props => NoDup (entries props).*1
    | _ => True
    end.
Proof.
  destruct x as [| | | | | | | |a items|o pr props]; simpl;
    try (intros _; split; [constructor|done]).
  - intros H. split; [|done]. apply Forall_forall. intros y Hy.
    rewrite forallb_forall in H. by apply H, list_elem_of_In.
  - intros [Hnd H]%andb_prop. apply bool_decide_eq_true in Hnd.
    split; [|done]. clear Hnd. unfold values, entries.
    induction props as [|[[s|k] [] y] props IH]; csimpl in *;
      try constructor; try (apply IH; done).
    + by apply andb_prop in H as [? _].
    + apply IH. by apply andb_prop in H as [_ ?].
Qed.

Lemma allocated_parts n x :
  allocated n x = true →
  Forall (λ y, allocated n y = true) (parts x)
  ∧ match x with
    | VArray a _ | VObject a _ _ => a < n
    | _ => True
    end.
Proof.
  destruct x as [| | | | | | | |a items|o pr props]; simpl;
    try (intros _; split; [constructor|done]).
  - intros [Ha H]%andb_prop. apply bool_decide_eq_true in Ha.
    split; [|done]. apply Forall_forall. intros y Hy.
    rewrite forallb_forall in H. by apply H, list_elem_of_In.
  - intros [Ha H]%andb_prop. apply bool_decide_eq_true in Ha.
    split; [|done]. clear Ha. unfold values, entries.
    induction props as [|[[s|k] [] y] props IH]; csimpl in *;
      try constructor; try (apply IH; done).
    + by apply andb_prop in H as [? _].
    + apply IH. by apply andb_prop in H as [_ ?].
Qed.

Lemma allocated_mono n m x :
  n ≤ m → allocated n x = true → allocated m x = true.
Proof.
  intros Hnm. induction x using value_nested_ind; simpl; try done.
  - intros [Ha Hi]%andb_prop. apply andb_true_intro. split.
    + apply bool_decide_eq_true_2. apply bool_decide_eq_true in Ha. lia.
    + rewrite forallb_forall in Hi |- *. rewrite Forall_forall in H.
      intros y Hy. apply H; [by apply list_elem_of_In|by apply Hi].
  - intros [Ha Hi]%andb_prop. apply andb_true_intro. split.
    + apply bool_decide_eq_true_2. apply bool_decide_eq_true in Ha. lia.
    + clear Ha. induction H as [|[[s|k] [] y] props Hy _ IH]; simpl in *;
        try done; try (by apply IH).
      apply andb_prop in Hi as [H1 H2]. apply andb_true_intro. split; auto.
Qed.

Lemma embedded_found pos x sg : embedded pos x sg → sg ∈ findAllSignals x.
Proof.
  intros H%elem_of_located. rewrite <- located_snd.
  apply list_elem_of_fmap. by exists (pos, sg).
Qed.

Lemma elem_of_flat_map_parts (l : list value) sg :
  sg ∈ flat_map findAllSignals l ↔ ∃ y, y ∈ l ∧ sg ∈ findAllSignals y.
Proof.
  rewrite list_elem_of_In, in_flat_map. split.
  - intros (y & Hy & Hsg). exists y. by rewrite !list_elem_of_In.
  - intros (y & Hy & Hsg). exists y. by rewrite <- !list_elem_of_In.
Qed.

Lemma found_in_part x y sg :
  y ∈ parts x → sg ∈ findAllSignals y → sg ∈ findAllSignals x.
Proof.
  intros Hy Hsg. rewrite findAllSignals_parts.
  destruct x; simpl in Hy; try by apply elem_of_nil in Hy.
  all: apply elem_of_flat_map_parts; eauto.
Qed.

Lemma any_changed_same l :
  Forall (λ y, nan_free y = true) l → any_changed l l = false.
Proof.
  induction 1 as [|y l Hy _ IH]; simpl; [done|].
  unfold strict_ne. rewrite strict_eq_refl, IH; [done|].
  by apply nan_free_parts in Hy as [? _].
Qed.

Lemma any_changed_at l l' i y y' :
  l !! i = Some y → l' !! i = Some y' → strict_eq y y' = false →
  any_changed l l' = true.
Proof.
  revert l' i. induction l as [|z l IH]; intros [|z' l'] [|i]; simpl;
    try done.
  - intros [= ->] [= ->] Hne. unfold strict_ne. by rewrite Hne.
  - intros Hy Hy' Hne. rewrite (IH _ _ Hy Hy' Hne). apply orb_true_r.
Qed.

(** What the parts [l'] mapped from the parts [l] make of a container. *)
Lemma filled_parts rd (l l' : list value) :
  Forall2 (filled rd) l l' →
  (flat_map findAllSignals l = [] → Forall (λ y, nan_free y = true) l →
     l' = l ∧ any_changed l l' = false)
  ∧ (flat_map findAllSignals l ≠ [] → any_changed l l' = true)
  ∧ (∀ i y pos sg, l !! i = Some y → embedded pos y sg →
       ∃ v, rd sg = Some v ∧ l' !! i ≫= value_at pos = Some v)
  ∧ Forall2 shared l l'.
Proof.
  intros HF. split; [|split; [|split]].
  - intros Hnone Hnan.
    assert (l' = l) as ->.
    { induction HF as [|y y' l l' (Hsh & _) _ IH]; [done|].
      simpl in Hnone. apply app_eq_nil in Hnone as [Hy Hl].
      apply Forall_cons in Hnan as [Hny Hnl].
      by rewrite (Hsh Hy Hny), (IH Hl Hnl). }
    split; [done|]. by apply any_changed_same.
  - intros Hsome.
    destruct (flat_map findAllSignals l) as [|sg sgs] eqn:Hfm; [done|].
    assert (sg ∈ flat_map findAllSignals l) as Hin by (rewrite Hfm; left).
    apply elem_of_flat_map_parts in Hin as (y & Hy & Hsg).
    apply list_elem_of_lookup in Hy as [i Hi].
    destruct (Forall2_lookup_l _ _ _ _ _ HF Hi) as (y' & Hi' & _ & Hne & _).
    apply (any_changed_at _ _ _ _ _ Hi Hi'), Hne.
    intros Hnil. rewrite Hnil in Hsg. by apply elem_of_nil in Hsg.
  - intros i y pos sg Hi Hemb.
    destruct (Forall2_lookup_l _ _ _ _ _ HF Hi) as (y' & Hi' & _ & _ & Hat & _).
    destruct (Hat pos sg Hemb) as (v & Hv & Hpos).
    exists v. split; [done|]. by rewrite Hi'.
  - eapply Forall2_impl; [exact HF|]. by intros y y' [? _].
Qed.

Lemma Forall2_shared_refl (l : list value) : Forall2 shared l l.
Proof. induction l; constructor; [by intros ??|done]. Qed.

Lemma embedded_leaf pos x sg :
  embedded pos x sg → parts x = [] → pos = [] ∧ x = VSignal sg.
Proof.
  inversion 1 as [|i q ? y ? Hi Hq]; subst; [done|].
  intros Hnil. by rewrite Hnil in Hi.
Qed.

Lemma filled_leaf rd x :
  parts x = [] → isSignal x = false → filled rd x x.
Proof.
  intros Hparts Hsig. split; [by intros ??|]. split; [|split].
  - rewrite findAllSignals_parts, Hparts. by destruct x.
  - intros pos sg Hemb.
    destruct (embedded_leaf _ _ _ Hemb Hparts) as [_ ->]. done.
  - destruct x; try done; simpl in Hparts.
    + exists a, items. split; [done|apply Forall2_shared_refl].
    + exists o, pr, props. split; [done|]. split; [done|].
      apply Forall2_shared_refl.
Qed.

(** [fillAllSignalValues] returns when every signal it meets can be read,
    and what it returns is [filled]. *)
Lemma part_holds_signal x y :
  y ∈ parts x → findAllSignals y ≠ [] → findAllSignals x ≠ [].
Proof.
  intros Hy Hsome Hnone. destruct (findAllSignals y) as [|sg l] eqn:Hl; [done|].
  assert (sg ∈ findAllSignals x) as Hin
    by (apply (found_in_part x y); [done|]; rewrite Hl; left).
  rewrite Hnone in Hin. by apply elem_of_nil in Hin.
Qed.

Lemma fillAllSignalValues_returns_when rd x :
  (findAllSignals x ≠ [] → React_use_ok) → returns_filled rd x.
Proof.
  induction x as [| | | | | | |sg|a items H|o pr props H]
    using value_nested_ind;
    intros Hok σ Hrd Hread Hkeys Halloc;
    try (eexists _, σ; split; [reflexivity|];
         split; [apply frame_refl|by apply filled_leaf]).
  - (* a signal *)
    destruct (Hread sg) as (v & Hv & Hns); [simpl; left|].
    exists v, σ. split; [|split; [apply frame_refl|]].
    { simpl. apply readSignal_now; [by apply Hok|]. by rewrite Hrd. }
    split; [by intros [=]|]. split; [|split; [|done]].
    + intros _. by destruct v.
    + intros pos sg' Hemb.
      destruct (embedded_leaf _ _ _ Hemb eq_refl) as [-> [= ->]]. eauto.
  - (* an array *)
    destruct (alloc_frame σ) as (σ1 & Ha & Hfr1 & Hn1).
    apply distinct_keys_parts in Hkeys as [Hkeys _].
    apply allocated_parts in Halloc as [Halloc Hlt]. simpl in *.
    destruct (map_items_returns fillAllSignalValues (filled rd) items σ1)
      as (items' & σ' & Hmap & Hfr & HF).
    { rewrite Forall_forall in H, Hkeys, Halloc |- *.
      intros y Hy σa Hσa. apply H; [done| | | | |].
      - intros Hsome. apply Hok.
        by apply (part_holds_signal (VArray a items) y).
      - intros sg. rewrite <- Hrd.
        apply now_frame. by eapply frame_trans.
      - intros sg Hsg. apply Hread.
        by apply (found_in_part (VArray a items) y).
      - by apply Hkeys.
      - eapply allocated_mono; [|by apply Halloc].
        destruct Hfr1 as (_ & _ & _ & ?), Hσa as (_ & _ & _ & ?). lia. }
    destruct (filled_parts rd items items' HF) as (Hsame & Hdiff & Hat & Hsh).
    eexists _, σ'. split; [|split; [by eapply frame_trans|]].
    { simpl. unfold bind at 1. rewrite Ha. unfold bind at 1.
      rewrite Hmap. reflexivity. }
    split; [|split; [|split]].
    + intros Hnone Hnan. apply nan_free_parts in Hnan as [_ Hnan].
      destruct (Hsame Hnone Hnan) as [-> ->]. done.
    + intros Hsome. rewrite (Hdiff Hsome). simpl.
      apply bool_decide_eq_false_2. lia.
    + intros pos sg Hemb.
      inversion Hemb as [|i q ? y ? Hi Hq]; subst. simpl in Hi.
      rewrite Hdiff; [by apply (Hat i y)|].
      intros Hnil. apply embedded_found in Hq.
      assert (sg ∈ flat_map findAllSignals items) as Hin
        by (apply elem_of_flat_map_parts; exists y;
            split; [by eapply list_elem_of_lookup_2|done]).
      rewrite Hnil in Hin. by apply elem_of_nil in Hin.
    + destruct (any_changed items items'); eexists _, _; split; try done.
      apply Forall2_shared_refl.
  - (* an object *)
    apply distinct_keys_parts in Hkeys as [Hkeys Hnd].
    apply allocated_parts in Halloc as [Halloc Hlt]. simpl in Hkeys, Halloc.
    destruct (map_entries_returns fillAllSignalValues (filled rd) props σ)
      as (es' & σ1 & Hmap & Hfr1 & Hk & HF).
    { pose proof (Forall_parts
                    (λ y, (findAllSignals y ≠ [] → React_use_ok)
                          → returns_filled rd y)
                    (VObject o pr props) H) as HP.
      simpl in HP.
      rewrite Forall_forall in HP, Hkeys, Halloc |- *.
      intros y Hy σa Hσa. apply HP; [done| | | | |].
      - intros Hsome. apply Hok.
        by apply (part_holds_signal (VObject o pr props) y).
      - intros sg. rewrite <- Hrd. by apply now_frame.
      - intros sg Hsg. apply Hread.
        by apply (found_in_part (VObject o pr props) y).
      - by apply Hkeys.
      - eapply allocated_mono; [|by apply Halloc].
        destruct Hσa as (_ & _ & _ & ?). lia. }
    destruct (alloc_frame σ1) as (σ' & Ha & Hfr' & Hn').
    destruct (filled_parts rd (values props) es'.*2 HF)
      as (Hsame & Hdiff & Hat & Hsh).
    assert (fromEntries es' = data_property <$> es') as Hfrom
      by (apply fromEntries_distinct; by rewrite Hk).
    eexists _, σ'. split; [|split; [by eapply frame_trans|]].
    { simpl. unfold bind at 1. rewrite Hmap. unfold bind at 1.
      rewrite Ha. reflexivity. }
    rewrite Hfrom.
    assert (values (data_property <$> es') = es'.*2) as Hvals
      by (unfold values; by rewrite entries_data_property).
    split; [|split; [|split]].
    + intros Hnone Hnan. apply nan_free_parts in Hnan as [_ Hnan].
      rewrite findAllSignals_object in Hnone.
      destruct (Hsame Hnone Hnan) as [_ ->]. done.
    + intros Hsome. rewrite findAllSignals_object in Hsome.
      rewrite (Hdiff Hsome). simpl. apply bool_decide_eq_false_2.
      destruct Hfr1 as (_ & _ & _ & ?). lia.
    + intros pos sg Hemb.
      inversion Hemb as [|i q ? y ? Hi Hq]; subst. simpl in Hi.
      rewrite Hdiff.
      { simpl. rewrite Hvals. by apply (Hat i y). }
      intros Hnil. apply embedded_found in Hq.
      assert (sg ∈ flat_map findAllSignals (values props)) as Hin
        by (apply elem_of_flat_map_parts; exists y;
            split; [by eapply list_elem_of_lookup_2|done]).
      rewrite Hnil in Hin. by apply elem_of_nil in Hin.
    + destruct (any_changed (values props) es'.*2).
      * eexists _, _, _. split; [done|].
        rewrite entries_data_property, Hvals. done.
      * eexists _, _, _. split; [done|]. split; [done|].
        apply Forall2_shared_refl.
Qed.

Lemma fillAllSignalValues_returns rd x :
  React_use_ok → returns_filled rd x.
Proof. intros Hok. by apply fillAllSignalValues_returns_when. Qed.

(** ** Rebuilt objects *)

Lemma map_entries_keys f props σ es changed σ' :
  map_entries f props σ = (Return (es, changed), σ') →
  es.*1 = (entries props).*1.
Proof.
  unfold entries. revert σ es changed σ'.
  induction props as [|[[s|k] [] y] props IH]; intros σ es changed σ'; csimpl.
  - by intros [= <- _ _].
  - intros (y' & σ1 & _ & H)%bind_returns.
    apply bind_returns in H as ([rest ch] & σ2 & Hrest & [= <- _ _]).
    csimpl. f_equal. eapply IH. exact Hrest.
  - apply IH.
  - apply IH.
  - apply IH.
Qed.

Lemma fillAllSignalValues_object o pr props σ x' σ' :
  fillAllSignalValues (VObject o pr props) σ = (Return x', σ') →
  x' = VObject o pr props
  ∨ ∃ es, es.*1 = (entries props).*1
          ∧ x' = VObject (next σ' - 1) ObjectPrototype (fromEntries es).
Proof.
  simpl. intros ([es changed] & σ1 & Hmap & H)%bind_returns.
  apply bind_returns in H as (o2 & σ2 & [= <- <-] & [= <- <-]).
  destruct changed; [right|by left].
  exists es. split; [by eapply map_entries_keys|].
  simpl. by rewrite Nat.sub_0_r.
Qed.

(** C10.  When [fillAllSignalValues] returns another object than the
    object it was given, that object has [Object.prototype] as its
    prototype, whatever the prototype of the input, and every property of
    it is an enumerable string-keyed one; its keys are the enumerable
    string keys of the input, in the same order when those are distinct.
    So no symbol-keyed or non-enumerable property of the input is in it. *)
Theorem fillAllSignalValues_rebuilds_from_entries (o : ref) (pr : prototype)
    (props : list property) (σ σ' : heap) (x' : value) :
  fillAllSignalValues (VObject o pr props) σ = (Return x', σ') →
  strict_eq (VObject o pr props) x' = false →
  ∃ o' props',
    x' = VObject o' ObjectPrototype props'
    ∧ Forall (λ p, is_entry p = true) props'
    ∧ (∀ k, k ∈ prop_key <$> props' ↔ k ∈ KString <$> (entries props).*1)
    ∧ (NoDup (entries props).*1 →
         prop_key <$> props' = KString <$> (entries props).*1).
Proof.
  intros Hfill Hne.
  destruct (fillAllSignalValues_object _ _ _ _ _ _ Hfill)
    as [->|(es & Hk & ->)].
  { simpl in Hne. by rewrite bool_decide_eq_true_2 in Hne. }
  eexists _, _. split; [done|]. split; [apply fromEntries_entries|].
  split.
  - intros k. by rewrite fromEntries_keys, Hk.
  - intros Hnd. rewrite fromEntries_distinct by by rewrite Hk.
    rewrite <- Hk, <- !list_fmap_compose.
    apply list_fmap_ext. by intros ? [].
Qed.

(** Without NaN the sharing holds: a value that holds no signal and no
    NaN is returned as it is. *)
Lemma fillAllSignalValues_shares x σ :
  findAllSignals x = [] → nan_free x = true →
  distinct_keys x = true → allocated (next σ) x = true →
  ∃ σ', fillAllSignalValues x σ = (Return x, σ').
Proof.
  intros Hnone Hnan Hkeys Halloc.
  destruct (fillAllSignalValues_returns_when (λ sg, now sg σ) x) with σ
    as (x' & σ' & Hfill & _ & Hshared & _); try done.
  { intros sg. rewrite Hnone. by intros ?%elem_of_nil. }
  exists σ'. by rewrite <- (Hshared Hnone Hnan) at 2.
Qed.

(** C6, at [[NaN]], at [{ a: NaN }] and at the props
    [{ style: { opacity: NaN }, title: $a }].  Neither [[NaN]] nor
    [{ a: NaN }] holds a signal, yet [fillAllSignalValues] returns a newly
    allocated copy, not the value it was given: [NaN !== NaN] sets
    [changed].  In the props the [style] object, a sibling of the one
    signal, comes back as a copy at a new address.  With [0] in place of
    NaN the value given is returned, and [style] is shared. *)
Theorem fillAllSignalValues_copies_NaN :
  let σ := heap_of 10 (VString "t") in
  let array := VArray 0 [VNumber NaN] in
  let object :=
    VObject 0 ObjectPrototype [Property (KString "a") true (VNumber NaN)] in
  let style n :=
    VObject 1 ObjectPrototype [Property (KString "opacity") true (VNumber n)] in
  let props n :=
    VObject 0 ObjectPrototype
      [Property (KString "style") true (style n);
       Property (KString "title") true (VSignal (mkSignal 2 0 0))] in
  findAllSignals array = []
  ∧ (fillAllSignalValues array σ).1 = Return (VArray 10 [VNumber NaN])
  ∧ strict_eq array (VArray 10 [VNumber NaN]) = false
  ∧ findAllSignals object = []
  ∧ (fillAllSignalValues object σ).1
    = Return (VObject 10 ObjectPrototype
                [Property (KString "a") true (VNumber NaN)])
  ∧ (fillAllSignalValues (VArray 0 [VNumber (Num 0)]) σ).1
    = Return (VArray 0 [VNumber (Num 0)])
  ∧ findAllSignals (style NaN) = []
  ∧ (fillAllSignalValues (props NaN) σ).1
    = Return (VObject 11 ObjectPrototype
                [Property (KString "style") true
                   (VObject 10 ObjectPrototype
                      [Property (KString "opacity") true (VNumber NaN)]);
                 Property (KString "title") true (VString "t")])
  ∧ (fillAllSignalValues (props (Num 0)) σ).1
    = Return (VObject 11 ObjectPrototype
                [Property (KString "style") true (style (Num 0));
                 Property (KString "title") true (VString "t")]).
Proof. repeat split; reflexivity. Qed.

(** ** createElement *)

Lemma signalsInChildren_direct i children :
  signalsInChildren children = (direct_signals i children).*2.
Proof.
  revert i. induction children as [|c children IH]; intros i; [done|].
  destruct c; simpl; try apply IH. csimpl. f_equal. apply IH.
Qed.

Lemma elem_of_direct_signals i children j sg :
  (j, sg) ∈ direct_signals i children
  ↔ ∃ k, j = i + k ∧ children !! k = Some (VSignal sg).
Proof.
  revert i. induction children as [|c children IH]; intros i; simpl.
  - rewrite elem_of_nil. split; [done|]. by intros (k & _ & ?).
  - assert ((j, sg) ∈ direct_signals (S i) children
            ↔ ∃ k, j = i + S k ∧ children !! k = Some (VSignal sg)) as IH'.
    { rewrite IH. split; intros (k & -> & Hk); exists k; split; (lia || done). }
    assert (c ≠ VSignal sg →
            (∃ k, j = i + S k ∧ children !! k = Some (VSignal sg))
            ↔ ∃ k, j = i + k ∧ (c :: children) !! k = Some (VSignal sg)) as Hc.
    { intros Hc. split.
      - intros (k & -> & Hk). by exists (S k).
      - intros ([|k] & -> & Hk); simpl in Hk; [congruence|]. by exists k. }
    destruct c; try (rewrite IH'; apply Hc; done).
    rewrite elem_of_cons, IH'. split.
    + intros [[= -> ->]|(k & -> & Hk)].
      * exists 0. split; [lia|done].
      * by exists (S k).
    + intros ([|k] & -> & Hk); simpl in Hk.
      * injection Hk as ->. left. f_equal. lia.
      * right. by exists k.
Qed.

Lemma direct_signals_sorted i children :
  StronglySorted lt (direct_signals i children).*1.
Proof.
  revert i. induction children as [|c children IH]; intros i; simpl.
  - constructor.
  - destruct c; try apply IH. csimpl. constructor; [apply IH|].
    apply Forall_forall. intros j Hj.
    apply list_elem_of_fmap in Hj as ([j' sg'] & -> & Hj).
    apply elem_of_direct_signals in Hj as (k & -> & _). simpl. lia.
Qed.

Lemma readable_elem σ sigs sg :
  readable σ sigs = true → sg ∈ sigs →
  ∃ v, now sg σ = Some v ∧ isSignal v = false.
Proof.
  unfold readable. rewrite forallb_forall. intros H Hsg%list_elem_of_In.
  specialize (H sg Hsg). destruct (now sg σ) as [v|]; [|done].
  exists v. split; [done|]. by apply negb_true_iff.
Qed.

(** C4, at a child that holds a signal without being one: the scanner
    finds the signal in the children, [createElement] does not, and
    creates the element directly. *)
Lemma createElement_skips_signal_inside_child :
  let h := mkSignal 1 0 0 in
  let children := [VArray 2 [VSignal h]] in
  let σ := heap_of 3 (VNumber (Num 1)) in
  flat_map findAllSignals children = [h]
  ∧ signalsInChildren children = []
  ∧ createElement (VString "div") VNull children σ
    = (Return (Element (VString "div") VNull children), σ).
Proof. repeat split; reflexivity. Qed.

(** C4, amended.  The signals [createElement] detects in the children are
    the children that are signals themselves, in order; those it detects
    in the props are the result of [findAllSignals].  When there is none,
    the element is created directly; otherwise a [Rerenderer] element is
    created with a new array holding the signals of the children followed
    by those of the props. *)
Theorem createElement_signal_list (type props : value) (children : list value)
    (σ : heap) :
  let direct := direct_signals 0 children in
  StronglySorted lt direct.*1
  ∧ (∀ i sg, (i, sg) ∈ direct ↔ children !! i = Some (VSignal sg))
  ∧ match direct.*2 ++ findAllSignals props with
    | [] =>
        createElement type props children σ
        = (Return (Element type props children), σ)
    | signals =>
        ∃ rc σ',
          createElement type props children σ
          = (Return (RerendererElement (mkArray (next σ) signals) rc), σ')
          ∧ frame σ σ'
    end.
Proof.
  intros direct. split; [apply direct_signals_sorted|]. split.
  - intros i sg. unfold direct. rewrite elem_of_direct_signals. split.
    + by intros (k & -> & Hk).
    + intros Hi. by exists i.
  - unfold createElement, direct.
    rewrite (signalsInChildren_direct 0).
    destruct ((direct_signals 0 children).*2) as [|sg1 sgs];
      [destruct (findAllSignals props) as [|sg2 sgs2]|]; simpl; [done| |].
    all: eexists _, _; split; [reflexivity|].
    all: repeat split; simpl; lia.
Qed.

Lemma mapM_children_returns children σ :
  React_use_ok →
  readable σ (signalsInChildren children) = true →
  ∃ children',
    mapM (λ child, match child with
                   | VSignal sg => readSignal sg
                   | _ => ret child
                   end) children σ = (Return children', σ)
    ∧ Forall2 (λ c c', match c with
                       | VSignal sg => now sg σ = Some c'
                       | _ => c' = c
                       end) children children'.
Proof.
  intros Hok. induction children as [|c children IH]; intros Hread.
  - exists []. split; [done|constructor].
  - assert (readable σ (signalsInChildren children) = true) as Hrest.
    { unfold readable in *. destruct c; try done.
      simpl in Hread. by apply andb_prop in Hread as [_ ?]. }
    destruct (IH Hrest) as (children' & Hmap & HF).
    assert (∃ c', match c with
                  | VSignal sg => readSignal sg
                  | _ => ret c
                  end σ = (Return c', σ)
                  ∧ match c with
                    | VSignal sg => now sg σ = Some c'
                    | _ => c' = c
                    end) as (c' & Hc & Hc').
    { destruct c; try by eexists.
      destruct (readable_elem σ _ sg Hread) as (v & Hv & _); [simpl; left|].
      exists v. split; [by apply readSignal_now|done]. }
    exists (c' :: children'). split; [|by constructor].
    simpl. unfold bind at 1. rewrite Hc. unfold bind at 1.
    by rewrite Hmap.
Qed.

Lemma getChildren_returns rc σ :
  React_use_ok →
  r_signalsInChildren rc = signalsInChildren (r_children rc) →
  readable σ (r_signalsInChildren rc) = true →
  ∃ children',
    getChildren rc σ = (Return children', σ)
    ∧ Forall2 (λ c c', match c with
                       | VSignal sg => now sg σ = Some c'
                       | _ => c' = c
                       end) (r_children rc) children'.
Proof.
  intros Hok Hsic Hread. unfold getChildren.
  destruct (r_signalsInChildren rc) as [|sg sgs] eqn:Hs; simpl.
  - exists (r_children rc). split; [done|].
    apply Forall2_same_length_lookup. split; [done|].
    intros i c c' Hc Hc'. simplify_eq. destruct c; try done.
    assert ((i, sg) ∈ direct_signals 0 (r_children rc)) as Hin
      by (apply elem_of_direct_signals; by exists i).
    apply (list_elem_of_fmap_2 snd) in Hin.
    rewrite <- signalsInChildren_direct, <- Hsic in Hin.
    by apply elem_of_nil in Hin.
  - apply mapM_children_returns; [done|]. by rewrite <- Hsic.
Qed.

Lemma getProps_returns rc σ :
  React_use_ok →
  r_signalsInProps rc = findAllSignals (r_props rc) →
  readable σ (r_signalsInProps rc) = true →
  distinct_keys (r_props rc) = true →
  allocated (next σ) (r_props rc) = true →
  ∃ props' σ',
    getProps rc σ = (Return props', σ') ∧ frame σ σ'
    ∧ ∀ pos sg, embedded pos (r_props rc) sg →
                ∃ v, now sg σ = Some v ∧ value_at pos props' = Some v.
Proof.
  intros Hok Hsip Hread Hkeys Halloc. unfold getProps.
  destruct (r_signalsInProps rc) as [|sg0 sgs] eqn:Hs; simpl.
  - exists (r_props rc), σ. split; [done|]. split; [apply frame_refl|].
    intros pos sg Hemb%embedded_found. rewrite <- Hsip in Hemb.
    by apply elem_of_nil in Hemb.
  - destruct (fillAllSignalValues_returns (λ sg, now sg σ) (r_props rc) Hok σ)
      as (props' & σ' & Hfill & Hfr & _ & _ & Hat & _); try done.
    { intros sg Hsg. apply (readable_elem σ (sg0 :: sgs)); [done|].
      by rewrite Hsip. }
    by exists props', σ'.
Qed.

(** C3.  In the element [createElement] ends with when every signal that
    is a child or lies inside the props can be read: a child that is a
    signal is replaced by the value read for it; any other child is passed
    on as it is, so a signal inside it stays where it was; and at every
    position of the props where a signal lies, at any depth, there is the
    value read for it.  This holds with the [use] of the module and with
    any [use] of React that keeps the contract of the engine's
    primitive. *)
Theorem createElement_substitutes (type props : value) (children : list value)
    (σ0 σ : heap) :
  React_use_ok →
  readable σ (signalsInChildren children ++ findAllSignals props) = true →
  distinct_keys props = true →
  allocated (next σ) props = true →
  ∃ e σ1 props' children' σ',
    createElement type props children σ0 = (Return e, σ1)
    ∧ rendered e σ = (Return (Element type props' children'), σ')
    ∧ length children' = length children
    ∧ (∀ i sg, children !! i = Some (VSignal sg) →
         ∃ v, now sg σ = Some v ∧ children' !! i = Some v)
    ∧ (∀ i c, children !! i = Some c → isSignal c = false →
         children' !! i = Some c)
    ∧ (∀ i c pos sg, children !! i = Some c → isSignal c = false →
         embedded pos c sg →
         ∃ c', children' !! i = Some c' ∧ embedded pos c' sg)
    ∧ (∀ pos sg, embedded pos props sg →
         ∃ v, now sg σ = Some v ∧ value_at pos props' = Some v).
Proof.
  intros Hok Hread Hkeys Halloc.
  unfold readable in Hread. rewrite forallb_app in Hread.
  apply andb_prop in Hread as [Hrc Hrp].
  set (rc := mkRender type props children (signalsInChildren children)
               (findAllSignals props)).
  destruct (getProps_returns rc σ Hok eq_refl Hrp Hkeys Halloc)
    as (props' & σa & Hprops & Hfr & Hat).
  destruct (getChildren_returns rc σa Hok eq_refl) as (children' & Hch & HF).
  { simpl. unfold readable in *. rewrite forallb_forall in Hrc |- *.
    intros sg Hsg. rewrite (now_frame _ _ _ Hfr). by apply Hrc. }
  simpl in HF.
  assert (∀ i sg, children !! i = Some (VSignal sg) →
            ∃ v, now sg σ = Some v ∧ children' !! i = Some v) as Hdirect.
  { intros i sg Hi.
    destruct (Forall2_lookup_l _ _ _ _ _ HF Hi) as (v & Hv & Hnow).
    exists v. by rewrite <- (now_frame _ _ _ Hfr). }
  assert (∀ i c, children !! i = Some c → isSignal c = false →
            children' !! i = Some c) as Hother.
  { intros i c Hi Hc.
    destruct (Forall2_lookup_l _ _ _ _ _ HF Hi) as (c' & Hc' & Heq).
    destruct c; try done; by subst. }
  assert (render rc σ = (Return (Element type props' children'), σa))
    as Hrender.
  { unfold render. unfold bind at 1. rewrite Hprops.
    unfold bind at 1. by rewrite Hch. }
  assert (∃ e σ1, createElement type props children σ0 = (Return e, σ1)
                  ∧ rendered e σ
                    = (Return (Element type props' children'), σa))
    as (e & σ1 & Hcreate & Hrendered).
  { unfold createElement.
    destruct (length (signalsInChildren children)) as [|n1] eqn:Hsic;
      [destruct (length (findAllSignals props)) as [|n2] eqn:Hsip|].
    - eexists _, _. split; [reflexivity|].
      unfold render, getProps, getChildren, rc in Hrender.
      simpl in Hrender. rewrite Hsic, Hsip in Hrender. done.
    - eexists _, _. split; [reflexivity|]. exact Hrender.
    - eexists _, _. split; [reflexivity|]. exact Hrender. }
  exists e, σ1, props', children', σa.
  split; [done|]. split; [done|].
  split; [symmetry; by eapply Forall2_length|].
  split; [done|]. split; [done|]. split; [|done].
  intros i c pos sg Hi Hc Hemb. exists c. split; [by apply Hother|done].
Qed.

(** ** Rerenderer *)

Lemma same_lists_signals (l1 l2 : list Signal) :
  same_lists signal_compareFn l1 l2 ↔ sig_ref <$> l1 = sig_ref <$> l2.
Proof.
  unfold same_lists. split.
  - intros [_ HF]. induction HF as [|a b l1 l2 Hab _ IH]; [done|].
    csimpl. f_equal; [|done].
    unfold signal_compareFn in Hab. simpl in Hab.
    by apply bool_decide_eq_true in Hab.
  - revert l2. induction l1 as [|a l1 IH]; intros [|b l2]; try done.
    csimpl. intros [= Hab Hl]. destruct (IH l2 Hl) as [Hlen HF].
    split; [by rewrite Hlen|]. constructor; [|done].
    unfold signal_compareFn. simpl. by apply bool_decide_eq_true_2.
Qed.

Lemma render_phase_unchanged rounds signals rerender state :
  listChanged signal_compareFn signals state = false →
  render_phase (S rounds) signals rerender state
  = Some (state, state, rerender).
Proof. intros H. simpl. unfold Rerenderer, useMemoList. by rewrite H. Qed.

Lemma render_phase_changed rounds signals rerender state :
  listChanged signal_compareFn signals state = true →
  arr_ref signals ≠ arr_ref state →
  render_phase (S (S rounds)) signals rerender state
  = Some (signals, signals, rerender).
Proof.
  intros H Hne. cbn [render_phase]. unfold Rerenderer at 1 2.
  unfold useMemoList at 1 2. rewrite H. simpl.
  rewrite bool_decide_eq_false_2 by done.
  unfold Rerenderer, useMemoList. by rewrite listChanged_same_state.
Qed.

Lemma unsubscribe_all_covered unsubs ls :
  (∀ l, l ∈ ls → l_id l ∈ unsubs) → unsubscribe_all unsubs ls = [].
Proof.
  revert ls. induction unsubs as [|u unsubs IH]; intros ls Hcov; simpl.
  - destruct ls as [|l ls]; [done|].
    specialize (Hcov l). rewrite elem_of_nil, elem_of_cons in Hcov.
    destruct Hcov. by left.
  - apply IH. intros l [Hne Hl]%list_elem_of_filter.
    apply Hcov in Hl. apply elem_of_cons in Hl as [?|?]; done.
Qed.

Lemma subscribe_all_spec sigs rerender ls n :
  ∃ new,
    subscribe_all sigs rerender (ls, n)
    = (l_id <$> new, (ls ++ new, n + length sigs))
    ∧ (λ l, (l_store l, l_atom l)) <$> new = target <$> sigs
    ∧ Forall (λ l, l_callback l = rerender) new.
Proof.
  revert ls n. induction sigs as [|sg sigs IH]; intros ls n.
  - exists []. simpl. by rewrite app_nil_r, Nat.add_0_r.
  - simpl.
    destruct (IH (ls ++ [mkListener n (sig_store sg) (sig_atom sg) rerender])
                (S n)) as (new & -> & Htargets & Hcb).
    exists (mkListener n (sig_store sg) (sig_atom sg) rerender :: new).
    split; [|split].
    + csimpl. rewrite <- app_assoc. do 3 f_equal. lia.
    + csimpl. by rewrite Htargets.
    + by constructor.
Qed.

(** The reducer [c => c + 1] never gives the state it was given, so the
    reduced state is the current one only when nothing is queued. *)
Lemma reduced_queue f : reduced f = count f ↔ queue f = 0.
Proof.
  unfold reduced.
  assert (∀ n c, Nat.iter n reducer c = c + n) as Hiter.
  { induction n as [|n IH]; intros c; simpl; [lia|].
    rewrite IH. unfold reducer. lia. }
  rewrite Hiter. lia.
Qed.

Lemma render_pass_spec signals w :
  consistent w →
  (∀ f, instance w = Some f →
     arr_ref (list_state f) < arr_ref signals
     ∨ sig_ref <$> arr_items signals = sig_ref <$> arr_items (list_state f)) →
  arr_ref signals < next_array w →
  ∃ w',
    render_pass signals w = Some w'
    ∧ consistent w'
    ∧ passes w' = S (passes w)
    ∧ next_array w' = next_array w
    ∧ sig_ref <$> committed w' = sig_ref <$> arr_items signals
    ∧ subscriptions w' = target <$> committed w'
    ∧ (∃ f', instance w' = Some f' ∧ queue f' = 0
             ∧ props_signals f' = signals
             ∧ fiber_id f' = from_option fiber_id (mounts w) (instance w)
             ∧ count f' = from_option reduced 0 (instance w))
    ∧ (∀ f, instance w = Some f →
         sig_ref <$> arr_items signals = sig_ref <$> arr_items (list_state f) →
         listeners w' = listeners w ∧ committed w' = committed w)
    ∧ (instance w = None → committed w' = arr_items signals).
Proof.
  intros Hinv Hfresh Hlt. unfold render_pass, consistent, committed in *.
  destruct (instance w) as [f|] eqn:Hinst.
  - destruct Hinv as (Hdeps & Hids & Hsubs & Hstate & Hpr & Hprops & Hcb).
    cbn [from_option].
    destruct (listChanged signal_compareFn signals (list_state f)) eqn:Hch.
    + assert (arr_ref (list_state f) < arr_ref signals) as Hnew.
      { destruct (Hfresh f eq_refl) as [?|Heq]; [done|].
        apply same_lists_signals, listChanged_false in Heq. congruence. }
      rewrite render_phase_changed by (done || lia).
      rewrite Hdeps. rewrite bool_decide_eq_false_2 by lia. simpl.
      unfold effect, cleanup. rewrite unsubscribe_all_covered.
      2:{ intros l Hl. rewrite <- Hids. by apply list_elem_of_fmap_2. }
      destruct (subscribe_all_spec (arr_items signals)
                  (Dispatch (fiber_id f)) [] (next_listener w))
        as (new & -> & Htargets & Hnewcb).
      eexists. split; [reflexivity|]. simpl.
      split; [by repeat split|]. split; [done|]. split; [done|].
      split; [done|]. split; [done|]. split; [by eexists|].
      split; [|done]. intros f' [= <-] Heq.
      apply same_lists_signals, listChanged_false in Heq. congruence.
    + rewrite render_phase_unchanged by done.
      rewrite Hdeps. rewrite bool_decide_eq_true_2 by done. simpl.
      apply listChanged_false, same_lists_signals in Hch.
      eexists. split; [reflexivity|]. simpl. rewrite <- Hdeps.
      split; [repeat split; try done; by rewrite Hdeps|].
      split; [done|]. split; [done|]. split; [by rewrite Hdeps|].
      split; [done|]. split; [by eexists|]. split; [|done].
      by intros f' [= <-] _.
  - cbn [from_option].
    rewrite render_phase_unchanged by apply listChanged_same_state.
    simpl. rewrite Hinv. unfold effect, cleanup. simpl.
    destruct (subscribe_all_spec (arr_items signals)
                (Dispatch (mounts w)) [] (next_listener w))
      as (new & -> & Htargets & Hnewcb).
    eexists. split; [reflexivity|]. simpl.
    split; [by repeat split|]. split; [done|]. split; [done|].
    split; [done|]. split; [done|]. split; [by eexists|]. done.
Qed.

Lemma foldl_call (f : fiber) (hit : list listener) :
  Forall (λ l, l_callback l = Dispatch (fiber_id f)) hit →
  foldl (λ inst l, call (l_callback l) inst) (Some f) hit
  = Some {| fiber_id := fiber_id f; count := count f;
            queue := queue f + length hit; list_state := list_state f;
            deps := deps f; unsubs := unsubs f;
            props_signals := props_signals f |}.
Proof.
  revert f. induction hit as [|l hit IH]; intros f Hcb.
  - simpl. rewrite Nat.add_0_r. by destruct f.
  - apply Forall_cons in Hcb as [Hl Hcb]. simpl. rewrite Hl. simpl.
    rewrite bool_decide_eq_true_2 by done.
    rewrite (IH (dispatch f)) by done. simpl. do 2 f_equal. lia.
Qed.

Lemma hit_subscriptions store atom w :
  filter (λ l, l_store l = store ∧ l_atom l = atom) (listeners w) = []
  ↔ (store, atom) ∉ subscriptions w.
Proof.
  unfold subscriptions. induction (listeners w) as [|l ls IH]; csimpl.
  - split; [|done]. intros _. apply not_elem_of_nil.
  - rewrite filter_cons, not_elem_of_cons, <- IH.
    destruct (decide (l_store l = store ∧ l_atom l = atom)) as [[Hs Ha]|Hne].
    + split; [by intros ?|]. intros [Hne _]. destruct Hne. congruence.
    + split; [|by intros [_ ?]]. intros H. split; [|done].
      intros [= Hs Ha]. by apply Hne.
Qed.

Lemma fire_spec store atom w :
  consistent w →
  consistent (fire store atom w)
  ∧ listeners (fire store atom w) = listeners w
  ∧ committed (fire store atom w) = committed w
  ∧ passes (fire store atom w) = passes w
  ∧ next_array (fire store atom w) = next_array w
  ∧ ∀ f, instance w = Some f →
      ∃ f', instance (fire store atom w) = Some f'
            ∧ props_signals f' = props_signals f
            ∧ list_state f' = list_state f
            ∧ (queue f' = 0
               ↔ queue f = 0 ∧ (store, atom) ∉ subscriptions w).
Proof.
  intros Hinv. unfold consistent, committed in *.
  pose proof (hit_subscriptions store atom w) as Hhit.
  unfold fire. simpl.
  destruct (instance w) as [f|] eqn:Hinst.
  - destruct Hinv as (Hdeps & Hids & Hsubs & Hstate & Hpr & Hprops & Hcb).
    rewrite foldl_call.
    2:{ rewrite Forall_forall in Hcb |- *.
        intros l [_ Hl]%list_elem_of_filter. by apply Hcb. }
    simpl.
    split; [done|]. split; [done|]. split; [done|]. split; [done|].
    split; [done|]. intros f' [= <-]. eexists. split; [done|]. simpl.
    split; [done|]. split; [done|]. rewrite <- Hhit.
    destruct (filter _ (listeners w)) as [|l ls]; simpl.
    + split; [intros ?; split; [lia|done]|intros [? _]; lia].
    + split; [lia|by intros [_ ?]].
  - rewrite Hinv. simpl. by repeat split.
Qed.

Lemma flush_idle w f :
  instance w = Some f → queue f = 0 → flush w = Some w.
Proof.
  intros Hf Hq. unfold flush. rewrite Hf.
  rewrite bool_decide_eq_true_2 by by apply reduced_queue.
  destruct w, f. simpl in *. by subst.
Qed.

Lemma flush_spec w :
  consistent w →
  ∃ w',
    flush w = Some w' ∧ consistent w'
    ∧ listeners w' = listeners w
    ∧ committed w' = committed w
    ∧ next_array w' = next_array w
    ∧ flush w' = Some w'
    ∧ passes w'
      = match instance w with
        | Some f => if bool_decide (queue f = 0) then passes w
                    else S (passes w)
        | None => passes w
        end.
Proof.
  intros Hinv.
  destruct (instance w) as [f|] eqn:Hinst.
  2:{ exists w. unfold flush. by rewrite Hinst. }
  destruct (decide (queue f = 0)) as [Hq|Hq].
  { exists w. rewrite (flush_idle w f Hinst Hq).
    by rewrite bool_decide_eq_true_2. }
  assert (flush w = render_pass (props_signals f) w) as ->.
  { unfold flush. rewrite Hinst.
    by rewrite bool_decide_eq_false_2 by by rewrite reduced_queue. }
  rewrite (bool_decide_eq_false_2 _ Hq).
  assert (Hinv' := Hinv). unfold consistent in Hinv'. rewrite Hinst in Hinv'.
  destruct Hinv' as (Hdeps & Hids & Hsubs & Hstate & Hpr & Hprops & Hcb).
  destruct (render_pass_spec (props_signals f) w Hinv)
    as (w' & Hpass & Hinv1 & Hp & Hn & _ & _ & (f' & Hf' & Hs' & _) & Hsame & _).
  { intros f0. rewrite Hinst. intros [= <-]. by right. }
  { done. }
  destruct (Hsame f Hinst (eq_sym Hprops)) as [Hl Hc].
  exists w'. by rewrite (flush_idle w' f' Hf' Hs').
Qed.

Lemma consistent_subscriptions w :
  consistent w → subscriptions w = target <$> committed w.
Proof.
  unfold consistent, committed, subscriptions.
  destruct (instance w) as [f|]; simpl.
  - by intros (_ & _ & ? & _).
  - by intros ->.
Qed.

Lemma consistent_callbacks w f :
  consistent w → instance w = Some f →
  Forall (λ l, l_callback l = Dispatch (fiber_id f)) (listeners w).
Proof.
  unfold consistent. intros Hinv Hf. rewrite Hf in Hinv.
  by destruct Hinv as (_ & _ & _ & _ & _ & _ & ?).
Qed.

Lemma render_step_spec items w :
  consistent w →
  ∃ w1,
    step (Render items) w = Some w1
    ∧ consistent w1
    ∧ passes w1 = S (passes w)
    ∧ sig_ref <$> committed w1 = sig_ref <$> items
    ∧ (instance w = None → committed w1 = items)
    ∧ ∃ f1, instance w1 = Some f1 ∧ queue f1 = 0
            ∧ fiber_id f1 = from_option fiber_id (mounts w) (instance w).
Proof.
  intros Hinv. simpl.
  destruct (render_pass_spec (mkArray (next_array w) items)
              {| instance := instance w; listeners := listeners w;
                 next_listener := next_listener w;
                 next_array := S (next_array w);
                 mounts := mounts w; passes := passes w |})
    as (w1 & Hpass & Hinv1 & Hp & _ & Hc & _
        & (f1 & Hf1 & Hs1 & _ & Hid & _) & _ & Hnone).
  - unfold consistent in *. simpl. destruct (instance w); [|done].
    destruct Hinv as (? & ? & ? & ? & ? & ? & ?).
    repeat split; try done; lia.
  - simpl. intros f Hf. left. unfold consistent in Hinv. rewrite Hf in Hinv.
    by destruct Hinv as (_ & _ & _ & ? & _).
  - simpl. lia.
  - exists w1. split; [done|]. split; [done|]. split; [done|].
    split; [done|]. split; [done|]. by exists f1.
Qed.

Lemma fire_flush_spec store atom w f :
  consistent w → instance w = Some f → queue f = 0 →
  ∃ w2,
    run [Fire store atom; Flush] w = Some w2
    ∧ consistent w2
    ∧ passes w2
      = (if bool_decide ((store, atom) ∈ subscriptions w)
         then S (passes w) else passes w)
    ∧ subscriptions w2 = subscriptions w
    ∧ committed w2 = committed w
    ∧ flush w2 = Some w2.
Proof.
  intros Hinv Hf Hs.
  destruct (fire_spec store atom w Hinv)
    as (Hinv1 & Hl1 & Hc1 & Hp1 & _ & Hf1).
  destruct (Hf1 f Hf) as (f' & Hf' & _ & _ & Hs').
  destruct (flush_spec _ Hinv1) as (w2 & Hfl & Hinv2 & Hl2 & Hc2 & _ & Hfl2 & Hp2).
  exists w2. simpl. rewrite Hfl. split; [done|]. split; [done|].
  split; [|split; [|split]]; try done.
  - rewrite Hp2, Hf', Hp1.
    destruct (decide ((store, atom) ∈ subscriptions w)) as [Hin|Hnot].
    + rewrite (bool_decide_eq_true_2 _ Hin).
      rewrite bool_decide_eq_false_2; [done|].
      intros Hq. apply Hs' in Hq as [_ Hq]. done.
    + rewrite (bool_decide_eq_false_2 _ Hnot).
      rewrite bool_decide_eq_true_2; [done|]. by apply Hs'.
  - unfold subscriptions. by rewrite Hl2, Hl1.
  - by rewrite Hc2.
Qed.

Lemma step_consistent e w :
  consistent w → ∃ w', step e w = Some w' ∧ consistent w'.
Proof.
  intros Hinv. destruct e as [items|store atom| |].
  - destruct (render_step_spec items w Hinv) as (w1 & ? & ? & _). eauto.
  - eexists. split; [done|]. by apply fire_spec.
  - destruct (flush_spec w Hinv) as (w' & ? & ? & _). eauto.
  - eexists. split; [done|]. unfold consistent, unmount, cleanup in *. simpl.
    destruct (instance w) as [f|]; simpl; [|by rewrite Hinv].
    destruct Hinv as (_ & Hids & _). apply unsubscribe_all_covered.
    intros l Hl. rewrite <- Hids. by apply list_elem_of_fmap_2.
Qed.

Lemma run_consistent es w :
  consistent w → ∃ w', run es w = Some w' ∧ consistent w'.
Proof.
  revert w. induction es as [|e es IH]; intros w Hinv; [by exists w|].
  destruct (step_consistent e w Hinv) as (w1 & Hstep & Hinv1).
  simpl. rewrite Hstep. by apply IH.
Qed.

(** C2.  Whatever has happened to the instance, its subscriptions are to
    the signals of the list of the last commit, in order, and the callback
    of every listener is the [rerender] of the instance, the dispatch
    function of its [useReducer].  A render with a new [signals] array
    commits a list with the same elements and leaves the instance
    subscribed to exactly those; then a fire of an atom, followed by the
    flush, makes one more render pass when the instance is subscribed to
    that atom, because the store calls [rerender] and the reducer gives
    another state, and none when it is not subscribed; and it leaves
    nothing queued.  So from the mount with [[h1]]: a fire of [h1] gives
    one more pass; the render with [[]] leaves no subscription, and a fire
    of [h1] after it gives no pass. *)
Theorem Rerenderer_subscriptions_follow_list (es : list event) :
  ∃ w,
    run es initial_world = Some w
    ∧ subscriptions w = target <$> committed w
    ∧ (∀ f, instance w = Some f →
         Forall (λ l, l_callback l = Dispatch (fiber_id f)) (listeners w))
    ∧ (∀ items, ∃ w1,
         step (Render items) w = Some w1
         ∧ passes w1 = S (passes w)
         ∧ sig_ref <$> committed w1 = sig_ref <$> items
         ∧ subscriptions w1 = target <$> committed w1
         ∧ (∀ f1, instance w1 = Some f1 →
              Forall (λ l, l_callback l = Dispatch (fiber_id f1))
                (listeners w1))
         ∧ ∀ store atom, ∃ w2,
             run [Fire store atom; Flush] w1 = Some w2
             ∧ passes w2
               = (if bool_decide ((store, atom) ∈ subscriptions w1)
                  then S (passes w1) else passes w1)
             ∧ subscriptions w2 = subscriptions w1
             ∧ flush w2 = Some w2)
    ∧ (∀ h1, ∃ w1 w2 w3 w4,
         step (Render [h1]) initial_world = Some w1
         ∧ committed w1 = [h1]
         ∧ subscriptions w1 = [target h1]
         ∧ l_callback <$> listeners w1 = [Dispatch 0]
         ∧ run [fire_signal h1; Flush] w1 = Some w2
         ∧ passes w2 = S (passes w1)
         ∧ step (Render []) w2 = Some w3
         ∧ committed w3 = []
         ∧ subscriptions w3 = []
         ∧ run [fire_signal h1; Flush] w3 = Some w4
         ∧ passes w4 = passes w3).
Proof.
  assert (consistent initial_world) as Hinit by done.
  destruct (run_consistent es _ Hinit) as (w & Hrun & Hinv).
  exists w. split; [done|]. split; [by apply consistent_subscriptions|].
  split; [intros f; by apply consistent_callbacks|].
  split.
  - intros items.
    destruct (render_step_spec items w Hinv)
      as (w1 & Hstep & Hinv1 & Hp & Hc & _ & f1 & Hf1 & Hs1 & _).
    exists w1. split; [done|]. split; [done|]. split; [done|].
    split; [by apply consistent_subscriptions|].
    split; [intros f; by apply consistent_callbacks|].
    intros store atom.
    destruct (fire_flush_spec store atom w1 f1 Hinv1 Hf1 Hs1)
      as (w2 & ? & _ & ? & ? & _ & ?).
    by exists w2.
  - intros h1.
    destruct (render_step_spec [h1] _ Hinit)
      as (w1 & Hstep1 & Hinv1 & _ & _ & Hc1 & f1 & Hf1 & Hs1 & Hid1).
    specialize (Hc1 eq_refl).
    pose proof (consistent_subscriptions _ Hinv1) as Hsub1.
    rewrite Hc1 in Hsub1. simpl in Hsub1.
    destruct (fire_flush_spec (sig_store h1) (sig_atom h1) w1 f1 Hinv1 Hf1 Hs1)
      as (w2 & Hrun2 & Hinv2 & Hp2 & _ & _ & _).
    rewrite bool_decide_eq_true_2 in Hp2 by (rewrite Hsub1; left).
    destruct (render_step_spec [] w2 Hinv2)
      as (w3 & Hstep3 & Hinv3 & _ & Hc3 & _ & f3 & Hf3 & Hs3 & _).
    apply fmap_nil_inv in Hc3.
    pose proof (consistent_subscriptions _ Hinv3) as Hsub3.
    rewrite Hc3 in Hsub3. simpl in Hsub3.
    destruct (fire_flush_spec (sig_store h1) (sig_atom h1) w3 f3 Hinv3 Hf3 Hs3)
      as (w4 & Hrun4 & _ & Hp4 & _ & _ & _).
    rewrite bool_decide_eq_false_2 in Hp4
      by (rewrite Hsub3; apply not_elem_of_nil).
    exists w1, w2, w3, w4.
    assert (l_callback <$> listeners w1 = [Dispatch 0]) as Hcb1.
    { pose proof (consistent_callbacks _ _ Hinv1 Hf1) as Hcb.
      rewrite Hid1 in Hcb. simpl in Hcb. unfold subscriptions in Hsub1.
      destruct (listeners w1) as [|l [|l' ls]]; try done.
      apply Forall_cons in Hcb as [Hl _]. csimpl. by rewrite Hl. }
    by repeat split.
Qed.

(** * Further properties *)

(** ** The cache of signals *)

Lemma getSignal_effect store atom σ :
  ∃ h σ',
    getSignal store atom σ = (Return h, σ')
    ∧ cached store atom σ' = Some h
    ∧ promises σ' = promises σ ∧ store_get σ' = store_get σ
    ∧ (∀ s a, (s, a) ≠ (store, atom) → cached s a σ' = cached s a σ)
    ∧ match cached store atom σ with
      | Some h0 => h = h0 ∧ σ' = σ
      | None => h = mkSignal (next σ) store atom ∧ next σ' = S (next σ)
      end.
Proof.
  destruct (cached store atom σ) as [h0|] eqn:Hc.
  - exists h0, σ. rewrite (getSignal_cached _ _ _ _ Hc). by repeat split.
  - destruct (getSignal_fresh _ _ _ Hc) as (σ1 & Hcall & Hn & Hc1 & Hother).
    exists (mkSignal (next σ) store atom), σ1. split; [done|].
    split; [done|].
    assert (promises σ1 = promises σ ∧ store_get σ1 = store_get σ) as [??].
    { unfold getSignal in Hcall. unfold cached in Hc.
      destruct (signalCache σ !! store) as [c|]; simpl in Hc.
      - rewrite Hc in Hcall. by injection Hcall as <-.
      - rewrite lookup_empty in Hcall. by injection Hcall as <-. }
    by repeat split.
Qed.

(** X1.  What a call of [getSignal] that returns has done is at most an
    insertion into the cache (the store and the atom are objects, as the
    keys of a [WeakMap] must be): the promises and the atoms are
    untouched and the entries of the other pairs are as before.  For a
    pair that was cached the call returns the cached signal and leaves the
    heap as it was; for a new pair it returns an object that did not exist
    before, and caches it. *)
Theorem getSignal_only_inserts (store : Store) (atom : Atom) (σ σ' : heap)
    (h : Signal) :
  getSignal store atom σ = (Return h, σ') →
  promises σ' = promises σ
  ∧ store_get σ' = store_get σ
  ∧ cached store atom σ' = Some h
  ∧ (∀ s a, (s, a) ≠ (store, atom) → cached s a σ' = cached s a σ)
  ∧ match cached store atom σ with
    | Some h0 => h = h0 ∧ σ' = σ
    | None => next σ ≤ sig_ref h < next σ'
    end.
Proof.
  intros Hreturned.
  destruct (getSignal_effect store atom σ)
    as (h1 & σ1 & Hcall & Hc & Hp & Hg & Hother & Hcase).
  rewrite Hcall in Hreturned. injection Hreturned as -> ->.
  split; [done|]. split; [done|]. split; [done|]. split; [done|].
  destruct (cached store atom σ); [done|].
  destruct Hcase as [-> ->]. simpl. lia.
Qed.

(** X1 at the first call for a pair, and at the call after it. *)
Lemma getSignal_only_inserts_witness :
  let σ := heap_of 5 VNull in
  let h := mkSignal 5 0 7 in
  let σ' := (getSignal 0 7 σ).2 in
  getSignal 0 7 σ = (Return h, σ')
  ∧ cached 0 7 σ' = Some h
  ∧ cached 1 7 σ' = None
  ∧ getSignal 0 7 σ' = (Return h, σ').
Proof.
  intros σ h σ'.
  assert (getSignal 0 7 σ = (Return h, σ')) as Hfirst by reflexivity.
  destruct (getSignal_only_inserts 0 7 σ σ' h Hfirst)
    as (_ & _ & Hcached & Hother & _).
  split; [exact Hfirst|]. split; [exact Hcached|].
  split; [by rewrite (Hother 1 7)|].
  destruct (getSignal_effect 0 7 σ') as (h2 & σ2 & Hcall & _ & _ & _ & _ & Hc).
  rewrite Hcached in Hc. destruct Hc as [-> ->]. exact Hcall.
Defined.

Lemma getSignal_registry_ok store atom σ :
  registry_ok σ → registry_ok (getSignal store atom σ).2.
Proof.
  intros Hok.
  destruct (getSignal_effect store atom σ)
    as (h & σ' & Hcall & Hc' & _ & _ & Hother & Hcase).
  rewrite Hcall. simpl.
  destruct (cached store atom σ) as [h0|] eqn:Hc.
  { by destruct Hcase as [_ ->]. }
  destruct Hcase as [-> Hn].
  assert (∀ s a h1, cached s a σ' = Some h1 →
            (s, a) = (store, atom) ∧ h1 = mkSignal (next σ) store atom
            ∨ (s, a) ≠ (store, atom) ∧ cached s a σ = Some h1) as Hsplit.
  { intros s a h1 Hh1. destruct (decide ((s, a) = (store, atom))) as [Heq|Hne].
    - left. split; [done|]. injection Heq as -> ->. congruence.
    - right. split; [done|]. by rewrite <- Hother. }
  intros s a h1 Hh1.
  destruct (Hsplit _ _ _ Hh1) as [[[= -> ->] ->]|[Hne Hold]].
  - simpl. split; [done|]. split; [done|]. split; [lia|].
    intros s' a' h' Hh' Href.
    destruct (Hsplit _ _ _ Hh') as [[[= -> ->] _]|[_ Hold']]; [done|].
    destruct (Hok _ _ _ Hold') as (_ & _ & Hlt & _). simpl in Href. lia.
  - destruct (Hok _ _ _ Hold) as (Hs & Ha & Hlt & Hinj).
    split; [done|]. split; [done|]. split; [lia|].
    intros s' a' h' Hh' Href.
    destruct (Hsplit _ _ _ Hh') as [[_ ->]|[_ Hold']].
    + simpl in Href. lia.
    + by apply (Hinj _ _ _ Hold').
Qed.

Lemma after_calls_registry_ok defaultStore calls σ :
  registry_ok σ → registry_ok (after_calls defaultStore calls σ).
Proof.
  revert σ. induction calls as [|[atom store] calls IH]; intros σ Hok; [done|].
  simpl. apply IH. unfold signal. by apply getSignal_registry_ok.
Qed.

(** X2.  From a cache that is in order, and so from an empty one, any
    calls of [signal] leave a cache in which the signal of a pair reads
    the atom of that pair in the store of that pair, and in which the
    signals of two different pairs are different objects. *)
Theorem signal_reads_its_atom (defaultStore : Store)
    (calls : list (Atom * option Store)) (σ : heap) :
  registry_ok σ →
  let σ' := after_calls defaultStore calls σ in
  (∀ s a h, cached s a σ' = Some h → read h σ' = store_get σ' s a)
  ∧ (∀ s1 a1 h1 s2 a2 h2,
       cached s1 a1 σ' = Some h1 → cached s2 a2 σ' = Some h2 →
       (s1, a1) ≠ (s2, a2) →
       strict_eq (VSignal h1) (VSignal h2) = false).
Proof.
  intros Hok σ'.
  pose proof (after_calls_registry_ok defaultStore calls σ Hok) as Hok'.
  fold σ' in Hok'. split.
  - intros s a h Hh. destruct (Hok' _ _ _ Hh) as (Hs & Ha & _).
    unfold read. by rewrite Hs, Ha.
  - intros s1 a1 h1 s2 a2 h2 H1 H2 Hne. simpl.
    apply bool_decide_eq_false_2. intros Href.
    destruct (Hok' _ _ _ H2) as (_ & _ & _ & Hinj).
    destruct (Hinj _ _ _ H1 Href) as [-> ->]. done.
Qed.

(** X2 at an empty cache, after three calls. *)
Lemma signal_reads_its_atom_witness :
  let σ := heap_of 5 (VString "v") in
  let σ' := after_calls 0 [(7, None); (8, Some 1); (7, None)] σ in
  registry_ok σ
  ∧ (∀ s a h, cached s a σ' = Some h → read h σ' = store_get σ' s a)
  ∧ strict_eq (VSignal (mkSignal 5 0 7)) (VSignal (mkSignal 6 1 8)) = false.
Proof.
  intros σ σ'.
  assert (registry_ok σ) as Hok by (intros s a h Hh; discriminate Hh).
  split; [exact Hok|].
  destruct (signal_reads_its_atom 0 [(7, None); (8, Some 1); (7, None)] σ Hok)
    as [Hread Hdiff].
  split; [exact Hread|].
  apply (Hdiff 0 7 _ 1 8 _); [reflexivity|reflexivity|discriminate].
Defined.

(** ** [use] *)

Lemma use_None p σ :
  ReactExports_use = None →
  use p σ
  = match status (get_promise p σ) with
    | StatusPending => (Throw (VPromise p), σ)
    | StatusFulfilled => (Return (value_field (get_promise p σ)), σ)
    | StatusRejected => (Throw (reason_field (get_promise p σ)), σ)
    | StatusUnset =>
        (Throw (VPromise p), set_promise p (tracked (get_promise p σ)) σ)
    end.
Proof.
  unfold use. intros ->. by destruct (status (get_promise p σ)).
Qed.

(** X3.  When React exports no [use], the function of the module hands
    its callbacks to [promise.then] once, however often it is called: the
    call that finds the promise without [status] hands over one pair, no
    other call hands over any, and after the first call any number of
    further calls leave the heap the first call left; the second call ends
    as the first did.  The function touches no other promise, does not
    settle the promise it is given, and leaves the atoms and the cache
    alone. *)
Theorem use_again (p : ref) (σ : heap) :
  ReactExports_use = None →
  reactions (get_promise p (use p σ).2)
  = match status (get_promise p σ) with
    | StatusUnset => S (reactions (get_promise p σ))
    | _ => reactions (get_promise p σ)
    end
  ∧ (∀ n, Nat.iter n (λ σ', (use p σ').2) (use p σ).2 = (use p σ).2)
  ∧ use p (use p σ).2 = use p σ
  ∧ (∀ q, q ≠ p → get_promise q (use p σ).2 = get_promise q σ)
  ∧ settled (get_promise p (use p σ).2) = settled (get_promise p σ)
  ∧ store_get (use p σ).2 = store_get σ
  ∧ signalCache (use p σ).2 = signalCache σ
  ∧ next (use p σ).2 = next σ.
Proof.
  intros HR.
  assert (use p (use p σ).2 = use p σ) as Hagain.
  { rewrite !(use_None _ _ HR).
    destruct (status (get_promise p σ)) eqn:Hstatus; simpl;
      rewrite ?(use_None _ _ HR); simpl;
      by rewrite ?Hstatus, ?get_set_promise. }
  split; [|split; [|split; [exact Hagain|]]].
  - rewrite (use_None _ _ HR).
    destruct (status (get_promise p σ)); simpl; by rewrite ?get_set_promise.
  - induction n as [|n IH]; [done|]. simpl. rewrite IH. by rewrite Hagain.
  - rewrite (use_None _ _ HR).
    destruct (status (get_promise p σ)) eqn:Hstatus; simpl.
    all: split; [|by rewrite ?get_set_promise].
    all: intros q Hq; unfold get_promise, set_promise; simpl.
    all: by rewrite ?lookup_insert_ne.
Qed.

(** ** The order of the reads *)

Lemma same_state_frame σr σ σ1 :
  same_state σr σ → frame σ σ1 → same_state σr σ1.
Proof.
  intros (Hp & Hg & Hc) (Hp1 & Hg1 & Hc1 & _).
  repeat split; congruence.
Qed.

Lemma reads_app l1 l2 σ :
  reads (l1 ++ l2) σ
  = bind (reads l1) (λ v1, bind (reads l2) (λ v2, ret (v1 ++ v2))) σ.
Proof.
  unfold reads. revert σ. induction l1 as [|sg l1 IH]; intros σ; simpl.
  - unfold bind, ret. simpl. by destruct (mapM readSignal l2 σ) as [[?|?] ?].
  - unfold bind at 1 3 4. destruct (readSignal sg σ) as [[v|e] σ1]; [|done].
    unfold bind at 1. rewrite IH. unfold bind, ret.
    destruct (mapM readSignal l1 σ1) as [[v1|e] σ2]; [|done].
    by destruct (mapM readSignal l2 σ2) as [[v2|e] σ3].
Qed.

Lemma reads_like_ret {A} (a : A) σ σr :
  reads_like σ σr (ret a σ) (reads [] σr).
Proof. simpl. split; [done|apply frame_refl]. Qed.

Lemma reads_like_alloc σ σr : reads_like σ σr (alloc σ) (reads [] σr).
Proof. simpl. split; [done|]. repeat split; simpl; lia. Qed.

Lemma reads_like_bind {A B} (m : M A) (k : A → M B) l1 l2 σ σr :
  reads_like σ σr (m σ) (reads l1 σr) →
  (∀ a σ1, m σ = (Return a, σ1) → frame σ σ1 →
           reads_like σ1 σr (k a σ1) (reads l2 σr)) →
  reads_like σ σr (bind m k σ) (reads (l1 ++ l2) σr).
Proof.
  intros Hm Hk. rewrite reads_app. unfold bind at 1 2.
  destruct (m σ) as [[a|e] σ1], (reads l1 σr) as [[v1|e1] σr1];
    simpl in Hm; try done.
  destruct Hm as [-> Hfr]. specialize (Hk a σ1 eq_refl Hfr).
  unfold bind, ret.
  destruct (k a σ1) as [[b|e] σ'], (reads l2 σr) as [[v2|e2] σr2];
    simpl in *; try done.
  - destruct Hk as [-> Hfr']. split; [done|]. by eapply frame_trans.
  - destruct Hk as (-> & Hs & Hn). split; [done|]. split; [done|].
    destruct Hfr as (_ & _ & _ & ?). lia.
Qed.

Lemma readSignal_reads_like sg σ σr :
  React_use_ok →
  same_state σr σ → reads_like σ σr (readSignal sg σ) (reads [sg] σr).
Proof.
  intros Hok (Hp & Hg & Hc).
  destruct (use_cases Hok) as (suspender & _ & Huse).
  unfold reads. simpl. unfold bind, ret.
  unfold readSignal. rewrite Hg.
  destruct (store_get σr _ _) as [| | | | | |p| | |];
    try (simpl; split; [done|apply frame_refl]).
  rewrite !Huse. unfold get_promise. rewrite Hp.
  destruct (status _); simpl.
  - split; [done|]. split; [|done]. unfold same_state, set_promise. simpl.
    by rewrite Hp, Hg, Hc.
  - by repeat split.
  - split; [done|apply frame_refl].
  - by repeat split.
Qed.

Lemma map_items_reads_like l :
  Forall fill_reads_like l →
  ∀ σ σr, same_state σr σ →
    reads_like σ σr (map_items fillAllSignalValues l σ)
      (reads (flat_map findAllSignals l) σr).
Proof.
  induction 1 as [|y l Hy _ IH]; intros σ σr Hs.
  - apply reads_like_ret.
  - simpl. apply reads_like_bind; [by apply Hy|].
    intros item2 σ1 _ Hfr.
    rewrite <- (app_nil_r (flat_map findAllSignals l)).
    apply reads_like_bind.
    + apply IH. by eapply same_state_frame.
    + intros [rest changed] σ2 _ _. apply reads_like_ret.
Qed.

Lemma map_entries_reads_like props :
  Forall fill_reads_like (values props) →
  ∀ σ σr, same_state σr σ →
    reads_like σ σr (map_entries fillAllSignalValues props σ)
      (reads (flat_map findAllSignals (values props)) σr).
Proof.
  unfold values, entries.
  induction props as [|[[s|k] [] y] props IH]; csimpl; intros HF σ σr Hs.
  - exact (reads_like_ret (@nil (string * value), false) σ σr).
  - apply Forall_cons in HF as [Hy Hl].
    apply reads_like_bind; [by apply Hy|].
    intros value2 σ1 _ Hfr.
    rewrite <- (app_nil_r (flat_map findAllSignals _)).
    apply reads_like_bind.
    + apply IH; [done|]. by eapply same_state_frame.
    + intros [rest changed] σ2 _ _. apply reads_like_ret.
  - by apply IH.
  - by apply IH.
  - by apply IH.
Qed.

Lemma fillAllSignalValues_reads_like x : React_use_ok → fill_reads_like x.
Proof.
  intros Hok.
  induction x as [| | | | | | |sg|a items H|o pr props H]
    using value_nested_ind; intros σ σr Hs;
    try apply reads_like_ret.
  - by apply readSignal_reads_like.
  - simpl. change (flat_map findAllSignals items)
      with ([] ++ flat_map findAllSignals items).
    apply reads_like_bind; [apply reads_like_alloc|].
    intros x2 σ1 _ Hfr.
    rewrite <- (app_nil_r (flat_map findAllSignals items)).
    apply reads_like_bind.
    + apply map_items_reads_like; [done|]. by eapply same_state_frame.
    + intros [items2 changed] σ2 _ _. apply reads_like_ret.
  - rewrite findAllSignals_object.
    rewrite <- (app_nil_r (flat_map findAllSignals (values props))).
    change (fillAllSignalValues (VObject o pr props))
      with (bind (map_entries fillAllSignalValues props)
              (λ '(entries2, changed),
                 bind alloc (λ x2,
                   ret (if changed
                        then VObject x2 ObjectPrototype (fromEntries entries2)
                        else VObject o pr props)))).
    apply reads_like_bind.
    + apply map_entries_reads_like; [|done].
      by apply (Forall_parts fill_reads_like (VObject o pr props)).
    + intros [entries2 changed] σ1 _ _.
      change (@nil Signal) with (@nil Signal ++ []).
      apply reads_like_bind; [apply reads_like_alloc|].
      intros x2 σ2 _ _. apply reads_like_ret.
Qed.

Lemma readSignal_unreadable sg σ :
  React_use_ok →
  now sg σ = None → ∃ e σ', readSignal sg σ = (Throw e, σ').
Proof.
  intros Hok. destruct (use_cases Hok) as (suspender & _ & Huse).
  unfold now, readSignal, read.
  destruct (store_get σ _ _); try done.
  rewrite Huse. destruct (status _); try done; eauto.
Qed.

Lemma same_state_refl σ : same_state σ σ.
Proof. by repeat split. Qed.

Lemma reads_cases l σ :
  React_use_ok →
  (Forall (can_read σ) l ∧ ∃ vs, reads l σ = (Return vs, σ))
  ∨ (∃ pre sg post e σr,
       l = pre ++ sg :: post ∧ Forall (can_read σ) pre ∧ now sg σ = None
       ∧ readSignal sg σ = (Throw e, σr) ∧ reads l σ = (Throw e, σr)).
Proof.
  intros Hok. unfold reads. induction l as [|sg l IH].
  - left. split; [constructor|]. by exists [].
  - destruct (now sg σ) as [v|] eqn:Hnow.
    + pose proof (readSignal_now _ _ _ Hok Hnow) as Hread.
      destruct IH as [[Hall (vs & Hvs)]|(pre & sg' & post & e & σr & -> & Hpre
                                         & Hnone & Hthrow & Hrest)].
      * left. split; [constructor; [by exists v|done]|].
        exists (v :: vs). simpl. unfold bind at 1. rewrite Hread.
        unfold bind. by rewrite Hvs.
      * right. exists (sg :: pre), sg', post, e, σr.
        split; [done|]. split; [constructor; [by exists v|done]|].
        split; [done|]. split; [done|].
        simpl. unfold bind at 1. rewrite Hread. unfold bind.
        by rewrite Hrest.
    + destruct (readSignal_unreadable _ _ Hok Hnow) as (e & σr & Hthrow).
      right. exists [], sg, l, e, σr. split; [done|].
      split; [constructor|]. split; [done|]. split; [done|].
      simpl. unfold bind. by rewrite Hthrow.
Qed.

Lemma reads_like_first {A} σ l (out : result A * heap) :
  React_use_ok →
  reads_like σ σ out (reads l σ) → stops_at_first_unreadable σ l out.
Proof.
  intros Hok Hlike.
  destruct (reads_cases l σ Hok) as [[Hall (vs & Hvs)]|(pre & sg & post & e & σr
                                  & -> & Hpre & Hnone & Hthrow & Hrest)].
  - left. split; [done|]. rewrite Hvs in Hlike.
    destruct out as [[a|e] σ']; [|done]. destruct Hlike as [_ Hfr]. eauto.
  - right. rewrite Hrest in Hlike. destruct out as [[a|e'] σ']; [done|].
    destruct Hlike as (-> & Hs & _).
    exists pre, sg, post, e, σ', σr.
    split; [done|]. split; [done|]. split; [done|]. by split.
Qed.

(** X4.  [fillAllSignalValues] reads the signals of its argument in the
    order [findAllSignals] lists them and gives up at the first that
    cannot be read.  It returns exactly when every signal can be read,
    and then it has only taken addresses; otherwise it throws what the
    read of the first unreadable signal throws (the pending promise or
    the rejection reason) and leaves the promises as that read leaves
    them: no later signal is read.  This holds with the [use] of the
    module and with any [use] of React that keeps the contract of the
    engine's primitive. *)
Theorem fillAllSignalValues_stops_at_first_unreadable (x : value) (σ : heap) :
  React_use_ok →
  stops_at_first_unreadable σ (findAllSignals x) (fillAllSignalValues x σ).
Proof.
  intros Hok. apply reads_like_first; [done|].
  apply fillAllSignalValues_reads_like; [done|]. apply same_state_refl.
Qed.

Lemma mapM_children_reads_like children σ σr :
  React_use_ok →
  same_state σr σ →
  reads_like σ σr
    (mapM (λ child, match child with
                    | VSignal sg => readSignal sg
                    | _ => ret child
                    end) children σ)
    (reads (signalsInChildren children) σr).
Proof.
  intros Hok. revert σ. induction children as [|c children IH]; intros σ Hs.
  - apply reads_like_ret.
  - change (signalsInChildren (c :: children))
      with (match c with VSignal sg => [sg] | _ => [] end
            ++ signalsInChildren children).
    simpl mapM. apply reads_like_bind.
    + destruct c; try apply reads_like_ret. by apply readSignal_reads_like.
    + intros b σ1 _ Hfr.
      rewrite <- (app_nil_r (signalsInChildren children)).
      apply reads_like_bind.
      * apply IH. by eapply same_state_frame.
      * intros bs σ2 _ _. apply reads_like_ret.
Qed.

Lemma render_reads_like type props children σ σr :
  React_use_ok →
  same_state σr σ →
  reads_like σ σr
    (render (mkRender type props children (signalsInChildren children)
               (findAllSignals props)) σ)
    (reads (findAllSignals props ++ signalsInChildren children) σr).
Proof.
  intros Hok Hs. unfold render. apply reads_like_bind.
  - unfold getProps. simpl.
    destruct (findAllSignals props) as [|sg sgs] eqn:Hsip; simpl.
    + exact (reads_like_ret props σ σr).
    + rewrite <- Hsip. by apply fillAllSignalValues_reads_like.
  - intros props' σ1 _ Hfr.
    rewrite <- (app_nil_r (signalsInChildren children)).
    apply reads_like_bind.
    + unfold getChildren. simpl.
      destruct (signalsInChildren children) as [|sg sgs] eqn:Hsic; simpl.
      * exact (reads_like_ret children σ1 σr).
      * rewrite <- Hsic. apply mapM_children_reads_like; [done|].
        by eapply same_state_frame.
    + intros children' σ2 _ _. apply reads_like_ret.
Qed.

(** X5.  The [render] of a [Rerenderer] element made by [createElement]
    reads the signals of the props first, in scanner order, then the
    children that are signals, and gives up at the first that cannot be
    read; the list the element subscribes to has them the other way
    round, the children first.  This holds with the [use] of the module
    and with any [use] of React that keeps the contract of the engine's
    primitive. *)
Theorem render_reads_props_before_children (type props : value)
    (children : list value) (σ0 σ : heap) (signals : array Signal)
    (rc : render_closure) :
  React_use_ok →
  (createElement type props children σ0).1
  = Return (RerendererElement signals rc) →
  arr_items signals = signalsInChildren children ++ findAllSignals props
  ∧ stops_at_first_unreadable σ
      (findAllSignals props ++ signalsInChildren children) (render rc σ).
Proof.
  unfold createElement. intros Hok Hcreate.
  assert (signals = mkArray (next σ0)
                      (signalsInChildren children ++ findAllSignals props)
          ∧ rc = mkRender type props children (signalsInChildren children)
                   (findAllSignals props)) as [-> ->].
  { destruct (length (signalsInChildren children)),
      (length (findAllSignals props)); simpl in Hcreate;
      by try injection Hcreate as <- <-. }
  split; [done|].
  apply reads_like_first; [done|].
  apply render_reads_like; [done|]. apply same_state_refl.
Qed.

(** ** What substitution leaves *)

Lemma readSignal_returned sg σ v σ' :
  React_use_ok →
  readSignal sg σ = (Return v, σ') → now sg σ = Some v ∧ σ' = σ.
Proof.
  intros Hok. destruct (use_cases Hok) as (suspender & _ & Huse).
  unfold now, readSignal, read, ret.
  destruct (store_get σ _ _); try by intros [= -> ->].
  rewrite Huse. destruct (status _); by intros [= -> ->].
Qed.

Lemma fillAllSignalValues_frame x σ x' σ' :
  React_use_ok →
  fillAllSignalValues x σ = (Return x', σ') → frame σ σ'.
Proof.
  intros Hok Hfill.
  pose proof (fillAllSignalValues_reads_like x Hok σ σ (same_state_refl σ))
    as H.
  rewrite Hfill in H.
  destruct (reads (findAllSignals x) σ) as [[vs|e] σr]; [|done].
  by destruct H.
Qed.

Lemma map_items_returned l σ l' changed σ' :
  React_use_ok →
  map_items fillAllSignalValues l σ = (Return (l', changed), σ') →
  changed = any_changed l l'
  ∧ frame σ σ'
  ∧ Forall2 (λ y y', ∃ σa σb, frame σ σa
                              ∧ fillAllSignalValues y σa = (Return y', σb))
      l l'.
Proof.
  intros Hok.
  revert σ l' changed. induction l as [|y l IH]; intros σ l' changed; simpl.
  - intros [= <- <- <-]. split; [done|]. split; [apply frame_refl|constructor].
  - intros (y' & σ1 & Hy & H)%bind_returns.
    apply bind_returns in H as ([rest ch] & σ2 & Hrest & [= <- <- <-]).
    destruct (IH _ _ _ Hrest) as (-> & Hfr2 & HF).
    pose proof (fillAllSignalValues_frame _ _ _ _ Hok Hy) as Hfr1.
    split; [done|]. split; [by eapply frame_trans|]. constructor.
    + exists σ, σ1. split; [apply frame_refl|done].
    + eapply Forall2_impl; [exact HF|].
      intros z z' (σa & σb & Hfa & Hz). exists σa, σb.
      split; [by eapply frame_trans|done].
Qed.

Lemma map_entries_returned props σ es changed σ' :
  React_use_ok →
  map_entries fillAllSignalValues props σ = (Return (es, changed), σ') →
  changed = any_changed (values props) es.*2
  ∧ frame σ σ'
  ∧ Forall2 (λ y y', ∃ σa σb, frame σ σa
                              ∧ fillAllSignalValues y σa = (Return y', σb))
      (values props) es.*2.
Proof.
  intros Hok. unfold values, entries. revert σ es changed.
  induction props as [|[[s|k] [] y] props IH]; intros σ es changed; csimpl.
  - intros [= <- <- <-]. split; [done|]. split; [apply frame_refl|constructor].
  - intros (y' & σ1 & Hy & H)%bind_returns.
    apply bind_returns in H as ([rest ch] & σ2 & Hrest & [= <- <- <-]).
    destruct (IH _ _ _ Hrest) as (-> & Hfr2 & HF).
    pose proof (fillAllSignalValues_frame _ _ _ _ Hok Hy) as Hfr1.
    split; [done|]. split; [by eapply frame_trans|]. constructor.
    + exists σ, σ1. split; [apply frame_refl|done].
    + eapply Forall2_impl; [exact HF|].
      intros z z' (σa & σb & Hfa & Hz). exists σa, σb.
      split; [by eapply frame_trans|done].
  - apply IH.
  - apply IH.
  - apply IH.
Qed.

Lemma flat_map_findAllSignals_nil (l : list value) :
  flat_map findAllSignals l = [] ↔ Forall (λ y, findAllSignals y = []) l.
Proof.
  induction l as [|y l IH]; simpl.
  - split; [constructor|done].
  - rewrite Forall_cons, <- IH. split.
    + by intros [??]%app_eq_nil.
    + by intros [-> ->].
Qed.

Lemma cleared_parts (l l' : list value) :
  Forall2 cleared l l' →
  flat_map findAllSignals l' = []
  ∧ (flat_map findAllSignals l ≠ [] → any_changed l l' = true).
Proof.
  induction 1 as [|y y' l l' [Hy' Hne] _ [IH1 IH2]]; simpl; [done|].
  split; [by rewrite Hy', IH1|].
  intros Hsome. unfold strict_ne.
  destruct (findAllSignals y) as [|sg sgs] eqn:Hy.
  - simpl in Hsome. rewrite (IH2 Hsome). apply orb_true_r.
  - by rewrite Hne.
Qed.

Lemma values_define_property k v props y :
  y ∈ values (define_property k v props) → y = v ∨ y ∈ values props.
Proof.
  unfold values, entries.
  induction props as [|[k' e v'] props IH]; csimpl.
  - rewrite list_elem_of_singleton. tauto.
  - case_bool_decide as Hk; csimpl.
    + rewrite elem_of_cons. intros [->|Hin]; [by left|].
      right. destruct k' as [s|n], e; csimpl; rewrite ?elem_of_cons; tauto.
    + destruct k' as [s|n], e; csimpl; rewrite ?elem_of_cons; tauto.
Qed.

Lemma values_fromEntries es y :
  y ∈ values (fromEntries es) → y ∈ es.*2.
Proof.
  unfold fromEntries.
  assert (∀ acc, y ∈ values (foldl (λ props e, define_property e.1 e.2 props)
                               acc es) →
                 y ∈ values acc ∨ y ∈ es.*2) as H.
  { induction es as [|[k v] es IH]; intros acc; csimpl; [tauto|].
    intros Hin. destruct (IH _ Hin) as [Hacc|Hes].
    - apply values_define_property in Hacc as [->|?].
      + right. left.
      + by left.
    - right. by right. }
  intros Hin. destruct (H [] Hin) as [Hnil|?]; [|done].
  by apply elem_of_nil in Hnil.
Qed.

Lemma fillAllSignalValues_returns_cleared x :
  React_use_ok → returns_cleared x.
Proof.
  intros Hok.
  induction x as [| | | | | | |sg|a items H|o pr props H]
    using value_nested_ind; intros σ x' σ' Hfill Halloc Hread;
    try (injection Hfill as <- <-; by split).
  - (* a signal *)
    simpl in Hfill. apply readSignal_returned in Hfill as [Hnow ->]; [|done].
    assert (findAllSignals x' = []) as Hx'
      by (apply (Hread sg); [simpl; left|done]).
    split; [done|]. intros _. by destruct x'.
  - (* an array *)
    simpl in Hfill. apply bind_returns in Hfill as (x2 & σ1 & [= <- <-] & H1).
    apply bind_returns in H1 as ([items2 changed] & σ2 & Hmap & [= <- <-]).
    apply map_items_returned in Hmap as (-> & _ & HF); [|done].
    apply allocated_parts in Halloc as [Halloc Hlt]. simpl in Halloc.
    assert (Forall2 cleared items items2) as Hcl.
    { apply Forall2_same_length_lookup. split; [by eapply Forall2_length|].
      intros i y y' Hy Hy'.
      destruct (Forall2_lookup_lr _ _ _ _ _ _ HF Hy Hy')
        as (σa & σb & Hfr & Hfy).
      rewrite Forall_lookup in H, Halloc.
      apply (H i y Hy σa y' σb Hfy).
      - eapply allocated_mono; [|by apply (Halloc i y)].
        destruct Hfr as (_ & _ & _ & ?). simpl in *. lia.
      - intros sg v Hsg Hnow. apply (Hread sg).
        + apply (found_in_part (VArray a items) y); [|done].
          by eapply list_elem_of_lookup_2.
        + rewrite <- Hnow. symmetry. apply now_frame.
          eapply frame_trans; [|exact Hfr]. repeat split; simpl; lia. }
    destruct (cleared_parts _ _ Hcl) as [Hnil Hch].
    destruct (any_changed items items2) eqn:Hany.
    + split; [done|]. intros _. simpl. apply bool_decide_eq_false_2. lia.
    + assert (flat_map findAllSignals items = []) as Hnone.
      { destruct (flat_map findAllSignals items) eqn:Hfm; [done|].
        by discriminate Hch. }
      split; [done|]. simpl. by rewrite Hnone.
  - (* an object *)
    simpl in Hfill.
    apply bind_returns in Hfill as ([es changed] & σ1 & Hmap & H1).
    apply bind_returns in H1 as (x2 & σ2 & [= <- <-] & [= <- <-]).
    apply map_entries_returned in Hmap as (-> & Hfr1 & HF); [|done].
    apply allocated_parts in Halloc as [Halloc Hlt]. simpl in Halloc.
    pose proof (Forall_parts returns_cleared (VObject o pr props) H) as HP.
    simpl in HP.
    assert (Forall2 cleared (values props) es.*2) as Hcl.
    { apply Forall2_same_length_lookup. split; [by eapply Forall2_length|].
      intros i y y' Hy Hy'.
      destruct (Forall2_lookup_lr _ _ _ _ _ _ HF Hy Hy')
        as (σa & σb & Hfr & Hfy).
      rewrite Forall_lookup in HP, Halloc.
      apply (HP i y Hy σa y' σb Hfy).
      - eapply allocated_mono; [|by apply (Halloc i y)].
        destruct Hfr as (_ & _ & _ & ?). lia.
      - intros sg v Hsg Hnow. apply (Hread sg).
        + apply (found_in_part (VObject o pr props) y); [|done].
          by eapply list_elem_of_lookup_2.
        + rewrite <- Hnow. symmetry. by apply now_frame. }
    destruct (cleared_parts _ _ Hcl) as [Hnil Hch].
    unfold cleared. rewrite (findAllSignals_object o pr props).
    destruct (any_changed (values props) es.*2) eqn:Hany.
    + split.
      * rewrite findAllSignals_object. apply flat_map_findAllSignals_nil.
        apply Forall_forall. intros y Hy%values_fromEntries.
        apply flat_map_findAllSignals_nil in Hnil.
        rewrite Forall_forall in Hnil. by apply Hnil.
      * intros _. simpl. apply bool_decide_eq_false_2.
        destruct Hfr1 as (_ & _ & _ & ?). lia.
    + assert (flat_map findAllSignals (values props) = []) as Hnone.
      { destruct (flat_map findAllSignals (values props)) eqn:Hfm; [done|].
        by discriminate Hch. }
      split; [by rewrite findAllSignals_object|]. done.
Qed.

(** X6.  When the objects of [x] are allocated and no signal of [x] reads
    to a value that itself holds a signal, as a [Displayable] does not,
    the value [fillAllSignalValues] returns holds no signal; and if [x]
    holds a signal, the value returned is another value than [x], never
    [x] itself.  This holds with the [use] of the module and with any
    [use] of React that keeps the contract of the engine's primitive. *)
Theorem fillAllSignalValues_leaves_no_signal (x x' : value) (σ σ' : heap) :
  React_use_ok →
  fillAllSignalValues x σ = (Return x', σ') →
  allocated (next σ) x = true →
  (∀ sg v, sg ∈ findAllSignals x → now sg σ = Some v →
           findAllSignals v = []) →
  findAllSignals x' = []
  ∧ (findAllSignals x ≠ [] → strict_eq x x' = false).
Proof. intros Hok. by apply fillAllSignalValues_returns_cleared. Qed.

(** ** The list kept by [useMemoList] *)

Lemma listChanged_reflexive {T} (compareFn : T → T → bool) (list : array T) :
  (∀ a, a ∈ arr_items list → compareFn a a = true) →
  listChanged compareFn list list = false.
Proof.
  intros Hrefl. apply listChanged_false. split; [done|].
  apply Forall2_same_length_lookup. split; [done|].
  intros i a b Ha Hb. simplify_eq. apply Hrefl.
  by eapply list_elem_of_lookup_2.
Qed.

(** X7.  One commit is enough.  If [compareFn] holds of every element of
    the new list with itself, then after the state has taken what
    [useMemoList] gave to [setState], the next call with the same list
    returns the list in the state and does not call [setState]; the list
    in the state is then element-wise equal to the new list. *)
Theorem useMemoList_settles {T} (compareFn : T → T → bool)
    (list state : array T) :
  (∀ a, a ∈ arr_items list → compareFn a a = true) →
  let state' := default state (useMemoList list compareFn state).2 in
  useMemoList list compareFn state' = (state', None)
  ∧ same_lists compareFn (arr_items list) (arr_items state').
Proof.
  intros Hrefl. unfold useMemoList.
  destruct (listChanged compareFn list state) eqn:Hch; simpl.
  - rewrite (listChanged_reflexive _ _ Hrefl). split; [done|].
    by apply listChanged_false, listChanged_reflexive.
  - rewrite Hch. split; [done|]. by apply listChanged_false.
Qed.

(** X7 at a list of signals that replaces a list of one other signal. *)
Lemma useMemoList_settles_witness :
  let h := mkSignal 1 0 0 in
  let k := mkSignal 2 0 1 in
  let list := mkArray 11 [h; k] in
  let state := mkArray 10 [k] in
  (∀ a, a ∈ arr_items list → signal_compareFn a a = true)
  ∧ useMemoList list signal_compareFn state = (list, Some list)
  ∧ useMemoList list signal_compareFn list = (list, None).
Proof.
  intros h k list state.
  assert (∀ a, a ∈ arr_items list → signal_compareFn a a = true) as Hrefl.
  { intros a _. unfold signal_compareFn. simpl.
    by apply bool_decide_eq_true_2. }
  split; [exact Hrefl|]. split; [reflexivity|].
  exact (proj1 (useMemoList_settles signal_compareFn list state Hrefl)).
Defined.

(** ** The subscriptions of [Rerenderer] *)

Lemma run_app es1 es2 w :
  run (es1 ++ es2) w = run es1 w ≫= run es2.
Proof.
  revert w. induction es1 as [|e es1 IH]; intros w; [done|].
  simpl. destruct (step e w) as [w'|]; [apply IH|done].
Qed.

(** X8.  No subscription outlives the instance: whatever happened before,
    after the unmount the stores hold no listener of the instance, and a
    fire of any atom makes no render pass. *)
Theorem unmount_leaves_no_listener (es : list event) :
  ∃ w,
    run (es ++ [Unmount]) initial_world = Some w
    ∧ listeners w = []
    ∧ instance w = None
    ∧ ∀ store atom,
        passes <$> run [Fire store atom; Flush] w = Some (passes w).
Proof.
  assert (consistent initial_world) as Hinit by done.
  destruct (run_consistent es _ Hinit) as (w0 & Hrun & Hinv).
  destruct (step_consistent Unmount w0 Hinv) as (w & [= <-] & Hinv').
  exists (unmount w0). rewrite run_app, Hrun. split; [done|].
  assert (listeners (unmount w0) = []) as Hnone by exact Hinv'.
  split; [done|]. split; [done|]. intros store atom. simpl.
  unfold fire, flush. rewrite Hnone. done.
Qed.

(** X9.  No redundant subscription: when the instance is rendered with a
    new array that has the elements of the committed list, by reference
    and in order, the listeners stay the very same ones (the effect does
    not run again) and the committed list stays the same array. *)
Theorem equal_list_keeps_listeners (es : list event) :
  ∃ w,
    run es initial_world = Some w
    ∧ ∀ f items,
        instance w = Some f →
        sig_ref <$> items = sig_ref <$> committed w →
        ∃ w1 f1,
          step (Render items) w = Some w1
          ∧ listeners w1 = listeners w
          ∧ instance w1 = Some f1
          ∧ deps f1 = deps f
          ∧ passes w1 = S (passes w).
Proof.
  assert (consistent initial_world) as Hinit by done.
  destruct (run_consistent es _ Hinit) as (w & Hrun & Hinv).
  exists w. split; [done|]. intros f items Hf Hsame.
  assert (Hinv' := Hinv). unfold consistent in Hinv'. rewrite Hf in Hinv'.
  destruct Hinv' as (Hdeps & Hids & Hsubs & Hstate & Hpr & Hprops & Hcb).
  unfold committed in Hsame. rewrite Hf in Hsame. simpl in Hsame.
  rewrite Hdeps in Hsame.
  set (w' := {| instance := instance w; listeners := listeners w;
                next_listener := next_listener w;
                next_array := S (next_array w);
                mounts := mounts w; passes := passes w |}).
  assert (listChanged signal_compareFn (mkArray (next_array w) items)
            (list_state f) = false) as Hch
    by by apply listChanged_false, same_lists_signals.
  change (step (Render items) w)
    with (render_pass (mkArray (next_array w) items) w').
  unfold render_pass. change (instance w') with (instance w). rewrite Hf.
  cbn [from_option]. rewrite render_phase_unchanged by done.
  rewrite Hdeps, bool_decide_eq_true_2 by done. simpl.
  eexists _, _. split; [reflexivity|]. simpl.
  split; [done|]. split; [reflexivity|]. done.
Qed.

(** X9 after a mount with one signal. *)
Lemma equal_list_keeps_listeners_witness :
  let h := mkSignal 1 0 0 in
  ∃ w w1,
    run [Render [h]] initial_world = Some w
    ∧ step (Render [h]) w = Some w1
    ∧ listeners w1 = listeners w
    ∧ listeners w = [mkListener 0 0 0 (Dispatch 0)].
Proof.
  intros h.
  destruct (equal_list_keeps_listeners [Render [h]]) as (w & Hrun & Hkeep).
  vm_compute in Hrun. injection Hrun as <-.
  destruct (Hkeep _ [h] eq_refl eq_refl) as (w1 & f1 & Hstep & Hl & _).
  eexists _, w1. split; [reflexivity|]. split; [exact Hstep|].
  split; [exact Hl|reflexivity].
Defined.

Lemma subscribe_all_fresh sigs rerender ls n :
  ∃ new,
    subscribe_all sigs rerender (ls, n)
    = (l_id <$> new, (ls ++ new, n + length sigs))
    ∧ l_id <$> new = seq n (length sigs)
    ∧ (λ l, (l_store l, l_atom l)) <$> new = target <$> sigs
    ∧ Forall (λ l, l_callback l = rerender) new.
Proof.
  revert ls n. induction sigs as [|sg sigs IH]; intros ls n.
  - exists []. simpl. by rewrite app_nil_r, Nat.add_0_r.
  - simpl.
    destruct (IH (ls ++ [mkListener n (sig_store sg) (sig_atom sg) rerender])
                (S n)) as (new & -> & Hids & Htargets & Hcb).
    exists (mkListener n (sig_store sg) (sig_atom sg) rerender :: new).
    split; [|split; [|split]].
    + csimpl. rewrite <- app_assoc. do 3 f_equal. lia.
    + csimpl. by rewrite Hids.
    + csimpl. by rewrite Htargets.
    + by constructor.
Qed.

Lemma filter_keeps_all {A} (P : A → Prop) `{!∀ x, Decision (P x)}
    (l : list A) :
  (∀ x, x ∈ l → P x) → filter P l = l.
Proof.
  induction l as [|x l IH]; intros HP; [done|].
  rewrite filter_cons_True by (apply HP; left).
  rewrite IH; [done|]. intros y Hy. apply HP. by right.
Qed.

Lemma filter_drops_all {A} (P : A → Prop) `{!∀ x, Decision (P x)}
    (l : list A) :
  (∀ x, x ∈ l → ¬ P x) → filter P l = [].
Proof.
  induction l as [|x l IH]; intros HP; [done|].
  rewrite filter_cons_False by (apply HP; left).
  apply IH. intros y Hy. apply HP. by right.
Qed.

Lemma unsubscribe_all_filter unsubs ls :
  unsubscribe_all unsubs ls = filter (λ l, l_id l ∉ unsubs) ls.
Proof.
  revert ls. induction unsubs as [|u unsubs IH]; intros ls; simpl.
  - symmetry. apply filter_keeps_all. intros l _. apply not_elem_of_nil.
  - rewrite IH. unfold unsubscribe. rewrite list_filter_filter.
    apply list_filter_iff. intros l. rewrite not_elem_of_cons. tauto.
Qed.

(** X10.  The cleanup undoes the effect and nothing else: with listener
    numbers below the next one, the listeners that were there before the
    effect ran (those of other subscribers too) are exactly the ones left
    after its cleanup, and the effect has added one listener for each
    element of [memoedSignals], a signal listed twice being subscribed
    twice, each with [rerender] as its callback. *)
Theorem cleanup_undoes_effect (memoedSignals : array Signal)
    (rerender : callback) (ls : list listener) (n : nat) :
  Forall (λ l, l_id l < n) ls →
  let out := effect memoedSignals rerender (ls, n) in
  cleanup out.1 out.2.1 = ls
  ∧ length out.2.1 = length ls + length (arr_items memoedSignals)
  ∧ (λ l, (l_store l, l_atom l)) <$> drop (length ls) out.2.1
    = target <$> arr_items memoedSignals
  ∧ Forall (λ l, l_callback l = rerender) (drop (length ls) out.2.1).
Proof.
  intros Hbelow. unfold effect, cleanup.
  destruct (subscribe_all_fresh (arr_items memoedSignals) rerender ls n)
    as (new & -> & Hids & Htargets & Hcb). simpl.
  split; [|split; [|split]]; [| | |by rewrite drop_app_length].
  - rewrite unsubscribe_all_filter, filter_app, Hids.
    rewrite (filter_keeps_all _ ls).
    2:{ rewrite Forall_forall in Hbelow. intros l Hl%Hbelow.
        rewrite elem_of_seq. lia. }
    rewrite (filter_drops_all _ new), app_nil_r; [done|].
    intros l Hl Hnot. apply Hnot. rewrite <- Hids.
    by apply list_elem_of_fmap_2.
  - rewrite length_app. f_equal.
    by rewrite <- (length_fmap l_id), Hids, length_seq.
  - by rewrite drop_app_length.
Qed.

(** X10 at a store that already has a listener. *)
Lemma cleanup_undoes_effect_witness :
  let h := mkSignal 1 0 0 in
  let ls := [mkListener 3 9 9 (OtherCallback 7)] in
  let out := effect (mkArray 5 [h; h]) (Dispatch 0) (ls, 4) in
  Forall (λ l, l_id l < 4) ls
  ∧ cleanup out.1 out.2.1 = ls
  ∧ length out.2.1 = 3
  ∧ Forall (λ l, l_callback l = Dispatch 0) (drop 1 out.2.1).
Proof.
  intros h ls out.
  assert (Forall (λ l, l_id l < 4) ls) as Hbelow
    by (repeat constructor; simpl; lia).
  split; [exact Hbelow|].
  destruct (cleanup_undoes_effect (mkArray 5 [h; h]) (Dispatch 0) ls 4 Hbelow)
    as (Hundo & Hlen & _ & Hcb).
  split; [exact Hundo|]. split; [exact Hlen|exact Hcb].
Defined.

(** ** [createElement] and [Rerenderer] together *)

(** X11.  The signals [createElement] detects among the children are a
    subsequence of those the scanner finds in the children: it misses
    the signals inside a child, and adds or reorders none. *)
Theorem signalsInChildren_sublist (children : list value) :
  signalsInChildren children `sublist_of` flat_map findAllSignals children.
Proof.
  induction children as [|c children IH]; [constructor|].
  change (signalsInChildren (c :: children))
    with (match c with VSignal sg => [sg] | _ => [] end
          ++ signalsInChildren children).
  simpl flat_map. destruct c; simpl;
    first [exact IH | by apply sublist_skip | by apply sublist_inserts_l].
Qed.

(** X12.  Mounting the element [createElement] made: the instance is
    subscribed, in one render pass, to the atom and store of every signal
    detected, those of the children first, then those of the props. *)
Theorem mount_subscribes_detected_signals (type props : value)
    (children : list value) (σ : heap) (signals : array Signal)
    (rc : render_closure) :
  (createElement type props children σ).1
  = Return (RerendererElement signals rc) →
  ∃ w,
    step (Render (arr_items signals)) initial_world = Some w
    ∧ subscriptions w
      = target <$> (signalsInChildren children ++ findAllSignals props)
    ∧ passes w = 1.
Proof.
  unfold createElement. intros Hcreate.
  assert (arr_items signals
          = signalsInChildren children ++ findAllSignals props) as ->.
  { destruct (length (signalsInChildren children)),
      (length (findAllSignals props)); simpl in Hcreate;
      by try injection Hcreate as <- _. }
  assert (consistent initial_world) as Hinit by done.
  destruct (render_step_spec
              (signalsInChildren children ++ findAllSignals props) _ Hinit)
    as (w & Hstep & Hinv & Hp & _ & Hc & _).
  exists w. split; [done|]. split; [|done].
  rewrite (consistent_subscriptions _ Hinv). by rewrite (Hc eq_refl).
Qed.

(** ** What a read keeps *)

Lemma get_promise_set_ne p q r σ :
  p ≠ q → get_promise q (set_promise p r σ) = get_promise q σ.
Proof.
  intros Hne. unfold get_promise, set_promise. simpl.
  by rewrite lookup_insert_ne.
Qed.

Lemma promise_step_keeps st σ :
  React_use_ok →
  callbacks_done σ →
  callbacks_done (promise_step_run st σ)
  ∧ store_get (promise_step_run st σ) = store_get σ
  ∧ ∀ q, status (get_promise q σ) = StatusFulfilled →
         status (get_promise q (promise_step_run st σ)) = StatusFulfilled
         ∧ value_field (get_promise q (promise_step_run st σ))
           = value_field (get_promise q σ).
Proof.
  intros Hok Hdone. destruct (use_cases Hok) as (suspender & _ & Huse).
  assert (∀ p r,
            (reactions r ≠ 0 → status r = StatusPending) →
            (status (get_promise p σ) = StatusFulfilled →
               status r = StatusFulfilled
               ∧ value_field r = value_field (get_promise p σ)) →
            callbacks_done (set_promise p r σ)
            ∧ store_get (set_promise p r σ) = store_get σ
            ∧ ∀ q, status (get_promise q σ) = StatusFulfilled →
                   status (get_promise q (set_promise p r σ))
                   = StatusFulfilled
                   ∧ value_field (get_promise q (set_promise p r σ))
                     = value_field (get_promise q σ)) as Hset.
  { intros p r Hr Hkeep. split; [|split; [done|]].
    - intros q. destruct (decide (p = q)) as [<-|Hne].
      + by rewrite get_set_promise.
      + rewrite get_promise_set_ne by done. apply Hdone.
    - intros q Hq. destruct (decide (p = q)) as [<-|Hne].
      + rewrite get_set_promise. by apply Hkeep.
      + by rewrite get_promise_set_ne. }
  assert (callbacks_done σ
          ∧ store_get σ = store_get σ
          ∧ ∀ q, status (get_promise q σ) = StatusFulfilled →
                 status (get_promise q σ) = StatusFulfilled
                 ∧ value_field (get_promise q σ)
                   = value_field (get_promise q σ)) as Hid
    by (split; [done|]; split; [done|]; by intros).
  destruct st as [p|p o|p]; simpl.
  - rewrite Huse.
    destruct (status (get_promise p σ)) eqn:Hst; simpl; try exact Hid.
    apply Hset; simpl; [done|]. by rewrite Hst.
  - unfold settle. destruct (settled (get_promise p σ)); [exact Hid|].
    apply Hset; simpl; [apply Hdone|done].
  - unfold run_reactions.
    destruct (reactions (get_promise p σ)) as [|n] eqn:Hre; [exact Hid|].
    assert (status (get_promise p σ) = StatusPending) as Hpending
      by (apply Hdone; by rewrite Hre).
    destruct (settled (get_promise p σ)) as [[v|e]|]; try exact Hid.
    + apply Hset; simpl; [done|]. by rewrite Hpending.
    + apply Hset; simpl; [done|]. by rewrite Hpending.
Qed.

Lemma now_promise_steps sts sg σ v :
  React_use_ok →
  callbacks_done σ → now sg σ = Some v →
  now sg (promise_steps_run sts σ) = Some v.
Proof.
  intros Hok.
  revert σ. induction sts as [|st sts IH]; intros σ Hdone Hnow; [done|].
  destruct (promise_step_keeps st σ Hok Hdone) as (Hdone' & Hg & Hkeep).
  change (promise_steps_run (st :: sts) σ)
    with (promise_steps_run sts (promise_step_run st σ)).
  apply IH; [exact Hdone'|].
  unfold now, read in *. rewrite Hg.
  destruct (store_get σ _ _) as [| | | | | |p| | |]; try done.
  destruct (status (get_promise p σ)) eqn:Hst; try done.
  destruct (Hkeep p Hst) as [-> ->]. done.
Qed.

(** X13.  A signal that can be read keeps its value while the atoms are
    not written: whatever calls of [use], settlements and runs of
    callbacks happen to the promises, it reads to the same value.  So the
    value a render resumed with is the value every later render gets.
    This holds with the [use] of the module and with any [use] of React
    that keeps the contract of the engine's primitive. *)
Theorem readable_signal_keeps_its_value (sts : list promise_step)
    (sg : Signal) (σ : heap) (v : value) :
  React_use_ok →
  callbacks_done σ →
  now sg σ = Some v →
  now sg (promise_steps_run sts σ) = Some v
  ∧ readSignal sg (promise_steps_run sts σ)
    = (Return v, promise_steps_run sts σ).
Proof.
  intros Hok Hdone Hnow.
  pose proof (now_promise_steps sts sg σ v Hok Hdone Hnow) as Hnow'.
  split; [done|]. by apply readSignal_now.
Qed.

Lemma now_same_state sg σ σ' : same_state σ σ' → now sg σ' = now sg σ.
Proof.
  intros (Hp & Hg & _). unfold now, read, get_promise. by rewrite Hp, Hg.
Qed.

Lemma settle_same_state p o σ σ' :
  same_state σ σ' → same_state (settle p o σ) (settle p o σ').
Proof.
  intros (Hp & Hg & Hc). unfold settle, get_promise, set_promise.
  rewrite Hp. destruct (settled _); repeat split; simpl; congruence.
Qed.

Lemma run_reactions_same_state p σ σ' :
  same_state σ σ' → same_state (run_reactions p σ) (run_reactions p σ').
Proof.
  intros (Hp & Hg & Hc). unfold run_reactions, get_promise, set_promise.
  rewrite Hp. set (q := default untouched (promises σ !! p)).
  destruct (reactions q), (settled q) as [[]|];
    repeat split; simpl; congruence.
Qed.

Lemma reads_readable l σ :
  React_use_ok →
  Forall (can_read σ) l → ∃ vs, reads l σ = (Return vs, σ).
Proof.
  intros Hok.
  unfold reads. induction 1 as [|sg l [v Hv] _ [vs IH]]; [by exists []|].
  exists (v :: vs). simpl. unfold bind at 1.
  rewrite (readSignal_now _ _ _ Hok Hv). unfold bind. by rewrite IH.
Qed.

(** X14.  A retry gets further.  Let the first signal of [x] that cannot
    be read hold a promise that is still pending, unseen by [use] or seen
    with its callbacks waiting.  Then [fillAllSignalValues] throws what
    the read of that signal throws, the promise itself when React exports
    no [use]; and once the promise is fulfilled with [v] and the callbacks
    have run, that signal reads to [v], every signal that could be read
    reads to the value it read to before, and so any signal that still
    cannot be read comes later in the order.  This holds with the [use]
    of the module and with any [use] of React that keeps the contract of
    the engine's primitive. *)
Theorem retry_gets_further (x : value) (σ : heap) (pre post : list Signal)
    (sg : Signal) (p : ref) (v : value) :
  React_use_ok →
  callbacks_done σ →
  findAllSignals x = pre ++ sg :: post →
  Forall (can_read σ) pre →
  read sg σ = VPromise p →
  settled (get_promise p σ) = None →
  status (get_promise p σ) = StatusUnset
  ∨ status (get_promise p σ) = StatusPending
    ∧ reactions (get_promise p σ) ≠ 0 →
  let σ2 :=
    run_reactions p (settle p (Fulfilled v) (fillAllSignalValues x σ).2) in
  (∃ e, (fillAllSignalValues x σ).1 = Throw e
        ∧ (readSignal sg σ).1 = Throw e
        ∧ (ReactExports_use = None → e = VPromise p))
  ∧ now sg σ2 = Some v
  ∧ (∀ sg' w, now sg' σ = Some w → now sg' σ2 = Some w)
  ∧ Forall (can_read σ2) (pre ++ [sg])
  ∧ ∀ pre2 sg2 post2,
      findAllSignals x = pre2 ++ sg2 :: post2 → now sg2 σ2 = None →
      length pre < length pre2.
Proof.
  intros Hok Hdone Hsigs Hpre Hread Hsettled Hstatus σ2.
  destruct (use_cases Hok) as (suspender & Hnone & Huse).
  (* the reads stop at [sg] *)
  assert (readSignal sg σ = (Throw (suspender p), (use p σ).2)) as Hthrow.
  { rewrite (readSignal_promise _ _ _ Hread), Huse.
    by destruct Hstatus as [->|[-> _]]. }
  assert (reads (findAllSignals x) σ = (Throw (suspender p), (use p σ).2))
    as Hreads.
  { rewrite Hsigs, reads_app. unfold bind at 1.
    destruct (reads_readable pre σ Hok Hpre) as (vs & ->).
    unfold bind at 1. unfold reads at 1. simpl. unfold bind at 1.
    by rewrite Hthrow. }
  pose proof (fillAllSignalValues_reads_like x Hok σ σ (same_state_refl σ))
    as Hlike.
  rewrite Hreads in Hlike.
  destruct (fillAllSignalValues x σ) as [[x'|e] σ'] eqn:Hfill; [done|].
  destruct Hlike as (-> & Hsame & _). simpl in σ2.
  (* the heap of the retry, up to the next address *)
  set (σs := promise_steps_run
               [UseStep p; SettleStep p (Fulfilled v); ReactionsStep p] σ).
  assert (same_state σs σ2) as Hs2.
  { unfold σs, σ2. simpl.
    by apply run_reactions_same_state, settle_same_state. }
  assert (∀ sg' w, now sg' σ = Some w → now sg' σ2 = Some w) as Hkeep.
  { intros sg' w Hw. rewrite (now_same_state _ _ _ Hs2).
    by apply now_promise_steps. }
  assert (now sg σ2 = Some v) as Hsg.
  { rewrite (now_same_state _ _ _ Hs2). unfold σs. simpl.
    unfold now. rewrite read_run_reactions, read_settle.
    assert (read sg (use p σ).2 = VPromise p) as ->.
    { rewrite Huse. unfold read in *.
      by destruct (status (get_promise p σ)). }
    assert (∃ n, get_promise p (use p σ).2
                 = {| settled := None; status := StatusPending;
                      value_field := value_field (get_promise p σ);
                      reason_field := reason_field (get_promise p σ);
                      reactions := S n |}) as [n Hused].
    { rewrite Huse.
      destruct Hstatus as [Hst|[Hst Hre]]; rewrite Hst; simpl.
      - rewrite get_set_promise. unfold tracked. rewrite Hsettled.
        by eexists.
      - destruct (get_promise p σ) as [s st vf rf [|n]]; simpl in *;
          [done|]. subst. by exists n. }
    unfold run_reactions, settle. rewrite Hused. simpl.
    rewrite !get_set_promise. simpl. by rewrite get_set_promise. }
  assert (Forall (can_read σ2) (pre ++ [sg])) as Hall.
  { apply Forall_app. split.
    - eapply Forall_impl; [exact Hpre|]. intros sg' [w Hw].
      exists w. by apply Hkeep.
    - constructor; [by exists v|constructor]. }
  split.
  { exists (suspender p). split; [done|]. split; [by rewrite Hthrow|].
    intros HR. by rewrite (Hnone HR). }
  split; [done|]. split; [done|]. split; [done|].
  intros pre2 sg2 post2 Hsigs2 Hnone2.
  destruct (decide (length pre < length pre2)) as [|Hge]; [done|].
  exfalso. rewrite Forall_lookup in Hall.
  assert ((pre ++ [sg]) !! length pre2 = Some sg2) as Hat.
  { assert ((pre ++ sg :: post) !! length pre2 = Some sg2) as H
      by (rewrite <- Hsigs, Hsigs2; by apply list_lookup_middle).
    change (sg :: post) with ([sg] ++ post) in H.
    rewrite app_assoc in H.
    rewrite lookup_app_l in H; [done|]. rewrite length_app. simpl. lia. }
  destruct (Hall _ _ Hat) as [w Hw]. congruence.
Qed.

End module.

(** ** Examples *)

(** React exports no [use]: the contract asks nothing. *)
Lemma React_use_ok_None : React_use_ok None.
Proof. intros React_use HR. discriminate HR. Qed.

(** A [use] that throws an exception object of its own to suspend keeps
    the contract. *)
Lemma React_use_ok_suspending_with e :
  React_use_ok (Some (suspending_with e)).
Proof.
  intros React_use [= <-]. exists (λ _, e). intros p σ.
  unfold suspending_with. by destruct (status (get_promise p σ)).
Qed.

(** Signals at depth 0, 1 and 3, and the same signal twice. *)
Example findAllSignals_depths :
  let h0 := mkSignal 10 0 0 in
  let h1 := mkSignal 11 0 1 in
  let h3 := mkSignal 12 0 2 in
  findAllSignals
    (VArray 1
       [VSignal h0;
        VObject 2 ObjectPrototype
          [Property (KString "a") true (VSignal h1);
           Property (KSymbol 7) true (VSignal h3);
           Property (KString "n") true (VNumber (Num 5))];
        VArray 3 [VArray 4 [VObject 5 ObjectPrototype
                              [Property (KString "b") true (VSignal h3)]]];
        VSignal h0;
        VNull])
  = [h0; h1; h3; h0].
Proof. reflexivity. Qed.

(** A counter passed as a child: the element renders the value the atom
    holds at the time of the render, whatever React exports. *)
Example counter_child (ReactExports_use : option (ref → M value)) :
  let counter := mkSignal 1 0 0 in
  let rc := mkRender (VString "span") VNull [VSignal counter] [counter] [] in
  createElement (VString "span") VNull [VSignal counter]
    (heap_of 2 (VNumber (Num 1)))
  = (Return (RerendererElement (mkArray 2 [counter]) rc),
     heap_of 3 (VNumber (Num 1)))
  ∧ (render ReactExports_use rc (heap_of 3 (VNumber (Num 1)))).1
    = Return (Element (VString "span") VNull [VNumber (Num 1)])
  ∧ (render ReactExports_use rc (heap_of 3 (VNumber (Num 2)))).1
    = Return (Element (VString "span") VNull [VNumber (Num 2)]).
Proof. repeat split; reflexivity. Qed.

(** A child whose atom holds a pending promise: the render throws the
    promise when React exports no [use], and the exception object of
    React's [use] when it exports one that throws its own. *)
Example pending_child :
  let sg := mkSignal 1 0 0 in
  let rc := mkRender (VString "span") VNull [VSignal sg] [sg] [] in
  let exception := VObject 90 (OtherPrototype 91) [] in
  (render None rc (heap_of 3 (VPromise 2))).1 = Throw (VPromise 2)
  ∧ (render (Some (suspending_with exception)) rc (heap_of 3 (VPromise 2))).1
    = Throw exception.
Proof. split; reflexivity. Qed.

(** No signal in the props or among the children: the element is created
    directly. *)
Example createElement_without_signal :
  createElement (VString "p") VNull [VString "text"] (heap_of 0 VNull)
  = (Return (Element (VString "p") VNull [VString "text"]), heap_of 0 VNull).
Proof. reflexivity. Qed.

(** The default [compareFn] on a list that holds NaN: the list differs
    from itself, and is handed to [setState] although it is the list in
    the state. *)
Example useMemoList_NaN :
  let list := mkArray 1 [VNumber NaN] in
  useMemoList list default_compareFn list = (list, Some list).
Proof. reflexivity. Qed.

(** Mount with [[h]], fire, flush, render with [[]], fire, flush: three
    passes, and no listener left. *)
Example Rerenderer_run :
  let h := mkSignal 1 0 0 in
  (λ w, (passes w, subscriptions w))
  <$> run [Render [h]; fire_signal h; Flush; Render []; fire_signal h; Flush]
        initial_world
  = Some (3, []).
Proof. reflexivity. Qed.

(** Two fires before the flush: the reducer is applied twice, and React
    makes one pass for the two actions. *)
Example Rerenderer_two_fires :
  let h := mkSignal 1 0 0 in
  (λ w, (passes w, count <$> instance w))
  <$> run [Render [h]; fire_signal h; fire_signal h; Flush] initial_world
  = Some (2, Some 2).
Proof. reflexivity. Qed.

(** ** The theorems at concrete inputs *)

(** C1 at the first call for an atom of the default store. *)
Lemma signal_same_handle_witness :
  let σ := heap_of 5 VNull in
  cached 0 7 σ = None
  ∧ ∃ h σ1,
      signal 0 7 None σ = (Return h, σ1)
      ∧ signal 0 7 (Some 0) σ1 = (Return h, σ1)
      ∧ sig_ref h = 5.
Proof.
  intros σ. split; [reflexivity|].
  destruct (signal_same_handle 0 7 None σ)
    as (h & σ1 & Hfirst & Hsecond & _ & Hnew & _).
  exists h, σ1. split; [exact Hfirst|]. split; [exact Hsecond|].
  exact (proj1 (Hnew eq_refl)).
Defined.

(** C5 at an array that holds one signal twice, and at a string. *)
Lemma findAllSignals_encounter_order_witness :
  let h := mkSignal 9 0 0 in
  let x := VArray 1 [VSignal h; VArray 2 [VSignal h]] in
  (∃ ps : list path,
     NoDup ps ∧ (∀ pos, pos ∈ ps ↔ embedded pos x h)
     ∧ 2 = length ps)
  ∧ (∀ pos sg, ¬ embedded pos (VString "s") sg)
  ∧ findAllSignals (VString "s") = [].
Proof.
  intros h x.
  assert (∀ pos sg, ¬ embedded pos (VString "s") sg) as Hnone.
  { intros pos sg Hemb. inversion Hemb as [|i q ? y ? Hi Hq]; subst.
    discriminate Hi. }
  split; [|split; [exact Hnone|]].
  - destruct (findAllSignals_encounter_order x) as (_ & Hcount & _).
    exact (Hcount h).
  - destruct (findAllSignals_encounter_order (VString "s")) as (_ & _ & H & _).
    exact (H Hnone).
Defined.

(** C7 at an atom that holds a promise fulfilled with ["ready"], and at
    one that holds a promise rejected with ["E"], when React exports no
    [use]; and at the same atom when React exports a [use] that throws an
    exception object of its own. *)
Lemma readSignal_suspends_and_resumes_witness :
  let sg := mkSignal 1 0 0 in
  let σ := heap_of 3 (VPromise 2) in
  let σ1 := (readSignal None sg σ).2 in
  let fulfilled := run_reactions 2 (settle 2 (Fulfilled (VString "ready")) σ1) in
  let rejected := run_reactions 2 (settle 2 (Rejected (VString "E")) σ1) in
  let exception := VObject 90 (OtherPrototype 91) [] in
  let React_use := suspending_with exception in
  (React_use_ok None
   ∧ readSignal None sg σ = (Throw (VPromise 2), σ1)
   ∧ readSignal None sg fulfilled = (Return (VString "ready"), fulfilled)
   ∧ readSignal None sg rejected = (Throw (VString "E"), rejected)
   ∧ readSignal None sg (heap_of 3 (VString "now"))
     = (Return (VString "now"), heap_of 3 (VString "now")))
  ∧ (React_use_ok (Some React_use)
     ∧ readSignal (Some React_use) sg σ = (Throw exception, σ1)
     ∧ readSignal (Some React_use) sg fulfilled
       = (Return (VString "ready"), fulfilled)
     ∧ readSignal (Some React_use) sg rejected
       = (Throw (VString "E"), rejected)).
Proof.
  intros sg σ σ1 fulfilled rejected exception React_use. split.
  - split; [exact React_use_ok_None|].
    destruct (readSignal_suspends_and_resumes None sg σ) as (_ & _ & Hpending).
    destruct (Hpending React_use_ok_None) as (suspender & Hnone & Hp).
    rewrite (Hnone eq_refl) in Hp.
    destruct (Hp 2 (Fulfilled (VString "ready")) eq_refl eq_refl)
      as (Hthrown & _ & _ & Hfulfilled).
    destruct (Hp 2 (Rejected (VString "E")) eq_refl eq_refl)
      as (_ & _ & _ & Hrejected).
    destruct (readSignal_suspends_and_resumes None sg
                (heap_of 3 (VString "now"))) as [Himmediate _].
    split; [exact Hthrown|]. split; [exact Hfulfilled|].
    split; [exact Hrejected|]. exact (Himmediate eq_refl).
  - split; [exact (React_use_ok_suspending_with exception)|].
    destruct (readSignal_suspends_and_resumes (Some React_use) sg σ)
      as (_ & Hdefers & Hpending).
    destruct (Hpending (React_use_ok_suspending_with exception))
      as (suspender & _ & Hp).
    destruct (Hp 2 (Fulfilled (VString "ready")) eq_refl eq_refl)
      as (_ & _ & _ & Hfulfilled).
    destruct (Hp 2 (Rejected (VString "E")) eq_refl eq_refl)
      as (_ & _ & _ & Hrejected).
    split; [exact (Hdefers 2 React_use eq_refl eq_refl)|].
    split; [exact Hfulfilled|exact Hrejected].
Defined.

(** C9 at an atom that holds an object with a [then] method. *)
Lemma readSignal_only_Promise_instances_witness :
  let thenable :=
    VObject 5 ObjectPrototype [Property (KString "then") true (VFunction 6)] in
  let sg := mkSignal 1 0 0 in
  let σ := heap_of 7 thenable in
  instanceof_Promise (read sg σ) = false
  ∧ readSignal None sg σ = (Return thenable, σ).
Proof.
  intros thenable sg σ. split; [reflexivity|].
  apply (readSignal_only_Promise_instances None sg σ). reflexivity.
Defined.

(** C8 at two arrays of one signal, and at arrays of different signals. *)
Lemma useMemoList_keeps_equal_list_witness :
  let h := mkSignal 1 0 0 in
  let k := mkSignal 2 0 1 in
  let state := mkArray 10 [h] in
  (arr_ref (mkArray 11 [h]) ≠ arr_ref state
   ∧ useMemoList (mkArray 11 [h]) signal_compareFn state = (state, None)
   ∧ arr_ref (useMemoList (mkArray 11 [h]) signal_compareFn state).1
     = arr_ref state)
  ∧ (arr_ref (mkArray 12 [k]) ≠ arr_ref state
     ∧ useMemoList (mkArray 12 [k]) signal_compareFn state
       = (mkArray 12 [k], Some (mkArray 12 [k]))).
Proof.
  intros h k state.
  assert (arr_ref (mkArray 11 [h]) ≠ arr_ref state) as H1 by (simpl; lia).
  assert (arr_ref (mkArray 12 [k]) ≠ arr_ref state) as H2 by (simpl; lia).
  assert (same_lists signal_compareFn [h] [h]) as Hsame
    by (split; [reflexivity|]; by repeat constructor).
  split; (split; [assumption|]).
  - destruct (useMemoList_keeps_equal_list signal_compareFn
                (mkArray 11 [h]) state) as (Hkept & _ & Href).
    split; [by apply Hkept|by apply (Href H1)].
  - destruct (useMemoList_keeps_equal_list signal_compareFn
                (mkArray 12 [k]) state) as (_ & Hother & _).
    apply Hother. intros [_ Hall]. by inversion Hall.
Defined.

(** C10 at an instance of a class with a symbol-keyed property, a
    non-enumerable property and a signal. *)
Lemma fillAllSignalValues_rebuilds_from_entries_witness :
  let sg := mkSignal 1 0 0 in
  let props :=
    [Property (KString "a") true (VSignal sg);
     Property (KSymbol 3) true VNull;
     Property (KString "b") false VNull;
     Property (KString "c") true (VString "c")] in
  let σ := heap_of 10 (VNumber (Num 1)) in
  let x' :=
    VObject 10 ObjectPrototype
      [Property (KString "a") true (VNumber (Num 1));
       Property (KString "c") true (VString "c")] in
  let out := fillAllSignalValues None (VObject 0 (OtherPrototype 9) props) σ in
  out = (Return x', out.2)
  ∧ strict_eq (VObject 0 (OtherPrototype 9) props) x' = false
  ∧ ∃ o' props',
      x' = VObject o' ObjectPrototype props'
      ∧ Forall (λ p, is_entry p = true) props'
      ∧ (∀ k, k ∈ prop_key <$> props' ↔ k ∈ KString <$> (entries props).*1)
      ∧ (NoDup (entries props).*1 →
           prop_key <$> props' = KString <$> (entries props).*1).
Proof.
  intros sg props σ x' out.
  split; [reflexivity|]. split; [reflexivity|].
  apply (fillAllSignalValues_rebuilds_from_entries None 0 (OtherPrototype 9)
           props σ out.2 x'); reflexivity.
Defined.

(** C3 at [createElement('div', { title: $a, style: { w: [$a] } }, $a,
    'x', { a: $a })]. *)
Lemma createElement_substitutes_witness :
  let sg := mkSignal 1 0 0 in
  let props :=
    VObject 2 ObjectPrototype
      [Property (KString "title") true (VSignal sg);
       Property (KString "style") true
         (VObject 3 ObjectPrototype
            [Property (KString "w") true (VArray 4 [VSignal sg])])] in
  let children :=
    [VSignal sg; VString "x";
     VObject 5 ObjectPrototype [Property (KString "a") true (VSignal sg)]] in
  let σ := heap_of 10 (VNumber (Num 1)) in
  React_use_ok None
  ∧ readable σ (signalsInChildren children ++ findAllSignals props) = true
  ∧ distinct_keys props = true
  ∧ allocated (next σ) props = true
  ∧ ∃ e σ1 props' children' σ',
      createElement (VString "div") props children σ = (Return e, σ1)
      ∧ rendered None e σ
        = (Return (Element (VString "div") props' children'), σ')
      ∧ length children' = length children
      ∧ (∀ i sg, children !! i = Some (VSignal sg) →
           ∃ v, now sg σ = Some v ∧ children' !! i = Some v)
      ∧ (∀ i c, children !! i = Some c → isSignal c = false →
           children' !! i = Some c)
      ∧ (∀ i c pos sg, children !! i = Some c → isSignal c = false →
           embedded pos c sg →
           ∃ c', children' !! i = Some c' ∧ embedded pos c' sg)
      ∧ (∀ pos sg, embedded pos props sg →
           ∃ v, now sg σ = Some v ∧ value_at pos props' = Some v).
Proof.
  intros sg props children σ.
  split; [exact React_use_ok_None|].
  split; [reflexivity|]. split; [reflexivity|]. split; [reflexivity|].
  apply (createElement_substitutes None (VString "div") props children σ σ
           React_use_ok_None); reflexivity.
Defined.

(** ** The further properties at concrete inputs *)

(** X3 at a promise that [use] has not seen: one pair of callbacks after
    the first call, and still one after three more. *)
Lemma use_again_witness :
  let σ := heap_of 3 (VPromise 2) in
  let σ1 := (use None 2 σ).2 in
  reactions (get_promise 2 σ) = 0
  ∧ reactions (get_promise 2 σ1) = 1
  ∧ Nat.iter 3 (λ σ', (use None 2 σ').2) σ1 = σ1
  ∧ use None 2 σ1 = use None 2 σ.
Proof.
  intros σ σ1.
  destruct (use_again None 2 σ eq_refl) as (Hone & Hmore & Hagain & _).
  split; [reflexivity|]. split; [exact Hone|].
  split; [exact (Hmore 3)|exact Hagain].
Defined.

(** X4 at [[$a, { b: $b }, $c]], where the atom of [$a] holds a value and
    the atoms of [$b] and [$c] hold pending promises: the call throws the
    promise of [$b], and the promise of [$c] is left alone. *)
Lemma fillAllSignalValues_stops_at_first_unreadable_witness :
  let sga := mkSignal 1 0 0 in
  let sgb := mkSignal 2 0 1 in
  let sgc := mkSignal 3 0 2 in
  let x :=
    VArray 5 [VSignal sga;
              VObject 6 ObjectPrototype
                [Property (KString "b") true (VSignal sgb)];
              VSignal sgc] in
  let σ :=
    {| next := 10; signalCache := ∅; promises := ∅;
       store_get := λ _ atom,
         match atom with 0 => VString "a" | _ => VPromise (20 + atom) end |} in
  let out := fillAllSignalValues None x σ in
  out.1 = Throw (VPromise 21)
  ∧ status (get_promise 21 out.2) = StatusPending
  ∧ status (get_promise 22 out.2) = StatusUnset
  ∧ stops_at_first_unreadable None σ (findAllSignals x) out.
Proof.
  intros sga sgb sgc x σ out.
  split; [reflexivity|]. split; [reflexivity|]. split; [reflexivity|].
  exact (fillAllSignalValues_stops_at_first_unreadable None x σ
           React_use_ok_None).
Defined.

(** X5 at [createElement('div', { title: $b }, $a)], rendered while both
    atoms hold pending promises: the promise of the props' signal is the
    one thrown. *)
Lemma render_reads_props_before_children_witness :
  let sga := mkSignal 1 0 1 in
  let sgb := mkSignal 2 0 2 in
  let props :=
    VObject 3 ObjectPrototype [Property (KString "title") true (VSignal sgb)] in
  let children := [VSignal sga] in
  let σ0 := heap_of 10 VNull in
  let σ :=
    {| next := 10; signalCache := ∅; promises := ∅;
       store_get := λ _ atom, VPromise (20 + atom) |} in
  let signals := mkArray 10 [sga; sgb] in
  let rc := mkRender (VString "div") props children [sga] [sgb] in
  (createElement (VString "div") props children σ0).1
  = Return (RerendererElement signals rc)
  ∧ (render None rc σ).1 = Throw (VPromise 22)
  ∧ arr_items signals = signalsInChildren children ++ findAllSignals props
  ∧ stops_at_first_unreadable None σ
      (findAllSignals props ++ signalsInChildren children)
      (render None rc σ).
Proof.
  intros sga sgb props children σ0 σ signals rc.
  split; [reflexivity|]. split; [reflexivity|].
  apply (render_reads_props_before_children None (VString "div") props
           children σ0 σ signals rc React_use_ok_None).
  reflexivity.
Defined.

(** X6 at [{ title: $a, style: { w: [$a] } }] with the atom holding 1. *)
Lemma fillAllSignalValues_leaves_no_signal_witness :
  let sg := mkSignal 1 0 0 in
  let x :=
    VObject 2 ObjectPrototype
      [Property (KString "title") true (VSignal sg);
       Property (KString "style") true
         (VObject 3 ObjectPrototype
            [Property (KString "w") true (VArray 4 [VSignal sg])])] in
  let σ := heap_of 10 (VNumber (Num 1)) in
  let out := fillAllSignalValues None x σ in
  out.1 = Return (VObject 12 ObjectPrototype
                    [Property (KString "title") true (VNumber (Num 1));
                     Property (KString "style") true
                       (VObject 11 ObjectPrototype
                          [Property (KString "w") true
                             (VArray 10 [VNumber (Num 1)])])])
  ∧ ∃ x', out = (Return x', out.2)
      ∧ findAllSignals x' = []
      ∧ (findAllSignals x ≠ [] → strict_eq x x' = false).
Proof.
  intros sg x σ out.
  split; [reflexivity|].
  eexists. split; [reflexivity|].
  apply (fillAllSignalValues_leaves_no_signal None x _ σ out.2
           React_use_ok_None).
  - reflexivity.
  - reflexivity.
  - intros sg' v _ Hnow. injection Hnow as <-. reflexivity.
Defined.

(** X12 at [createElement('div', { title: $b }, $a)]. *)
Lemma mount_subscribes_detected_signals_witness :
  let sga := mkSignal 1 0 1 in
  let sgb := mkSignal 2 0 2 in
  let props :=
    VObject 3 ObjectPrototype [Property (KString "title") true (VSignal sgb)] in
  let children := [VSignal sga] in
  let σ := heap_of 10 VNull in
  let signals := mkArray 10 [sga; sgb] in
  let rc := mkRender (VString "div") props children [sga] [sgb] in
  (createElement (VString "div") props children σ).1
  = Return (RerendererElement signals rc)
  ∧ ∃ w,
      step (Render (arr_items signals)) initial_world = Some w
      ∧ subscriptions w = [(0, 1); (0, 2)]
      ∧ passes w = 1.
Proof.
  intros sga sgb props children σ signals rc.
  split; [reflexivity|].
  apply (mount_subscribes_detected_signals (VString "div") props children
           σ signals rc).
  reflexivity.
Defined.

(** X13 at an atom whose value is at hand, while a promise of another
    atom is used, rejected and has its callbacks run; with the [use] of
    the module, and with a [use] of React that throws an exception object
    of its own. *)
Lemma readable_signal_keeps_its_value_witness :
  let sg := mkSignal 1 0 0 in
  let σ := heap_of 3 (VString "v") in
  let sts :=
    [UseStep 2; SettleStep 2 (Rejected (VString "no")); ReactionsStep 2;
     UseStep 2] in
  let React_use := suspending_with (VObject 90 (OtherPrototype 91) []) in
  callbacks_done σ
  ∧ now sg σ = Some (VString "v")
  ∧ status (get_promise 2 (promise_steps_run None sts σ)) = StatusRejected
  ∧ now sg (promise_steps_run None sts σ) = Some (VString "v")
  ∧ readSignal None sg (promise_steps_run None sts σ)
    = (Return (VString "v"), promise_steps_run None sts σ)
  ∧ readSignal (Some React_use) sg (promise_steps_run (Some React_use) sts σ)
    = (Return (VString "v"), promise_steps_run (Some React_use) sts σ).
Proof.
  intros sg σ sts React_use.
  assert (callbacks_done σ) as Hdone by (intros p Hp; by destruct Hp).
  split; [exact Hdone|]. split; [reflexivity|]. split; [reflexivity|].
  split; [|split].
  - apply (readable_signal_keeps_its_value None sts sg σ (VString "v")
             React_use_ok_None Hdone). reflexivity.
  - apply (readable_signal_keeps_its_value None sts sg σ (VString "v")
             React_use_ok_None Hdone). reflexivity.
  - apply (readable_signal_keeps_its_value (Some React_use) sts sg σ
             (VString "v") (React_use_ok_suspending_with _) Hdone).
    reflexivity.
Defined.

(** X14 at [[$a, $b, $c]], where the atom of [$a] holds a value and the
    atoms of [$b] and [$c] hold pending promises: the first call throws
    the promise of [$b]; once it is fulfilled the retry reads [$a] and
    [$b], and can only stop later. *)
Lemma retry_gets_further_witness :
  let sga := mkSignal 1 0 0 in
  let sgb := mkSignal 2 0 1 in
  let sgc := mkSignal 3 0 2 in
  let x := VArray 5 [VSignal sga; VSignal sgb; VSignal sgc] in
  let σ :=
    {| next := 10; signalCache := ∅; promises := ∅;
       store_get := λ _ atom,
         match atom with 0 => VString "a" | _ => VPromise (20 + atom) end |} in
  let σ2 :=
    run_reactions 21
      (settle 21 (Fulfilled (VString "b"))
         (fillAllSignalValues None x σ).2) in
  callbacks_done σ
  ∧ (fillAllSignalValues None x σ).1 = Throw (VPromise 21)
  ∧ now sga σ2 = Some (VString "a")
  ∧ now sgb σ2 = Some (VString "b")
  ∧ Forall (can_read σ2) [sga; sgb]
  ∧ (fillAllSignalValues None x σ2).1 = Throw (VPromise 22)
  ∧ ∀ pre2 sg2 post2,
      findAllSignals x = pre2 ++ sg2 :: post2 → now sg2 σ2 = None →
      1 < length pre2.
Proof.
  intros sga sgb sgc x σ σ2.
  assert (callbacks_done σ) as Hdone by (intros p Hp; by destruct Hp).
  split; [exact Hdone|].
  destruct (retry_gets_further None x σ [sga] [sgc] sgb 21 (VString "b")
              React_use_ok_None Hdone)
    as ((e & Hthrow & _ & He) & Hnow & Hkeep & Hall & Hlater).
  - reflexivity.
  - constructor; [|constructor]. by exists (VString "a").
  - reflexivity.
  - reflexivity.
  - by left.
  - rewrite (He eq_refl) in Hthrow.
    split; [exact Hthrow|]. split; [exact (Hkeep sga _ eq_refl)|].
    split; [exact Hnow|]. split; [exact Hall|].
    split; [reflexivity|]. exact Hlater.
Defined.
